(** * simi agent core: tool-call parser, tool registry, reasoning loop and
      conversation context, embedded from the C++ sources.

    - [parse_tool_calls], [format_tool_results], [build_prompt], [react_loop],
      [process], [reset]: src/agent/src/core/agent.cpp
    - [ToolRegistry] operations: src/agent/src/tools/tool_registry.cpp
    - [Context] operations: src/agent/src/core/context.cpp
    - records and enums: src/agent/include/simi/types.hpp

    Conventions.  [std::string] is [string]; the regular-expression engine
    works on [list ascii].  [int] counters are [Z] (the counters of the loop
    stay far below 2^31).  [std::map<std::string,_>] is a [gmap string _].
    External collaborators (model backend, tool bodies) are functions over an
    abstract [World] that is threaded through every call.  A C++ exception is
    a value of [Fault]; a function that may throw returns an [Outcome].

    The three callbacks of the agent are observers: what they are told is
    kept in a trace, and they are taken to return normally.  The embedding
    is sequential: a call of [stop] from another thread or from a signal
    handler while [process] runs is outside it, so within [process] the
    stop flag keeps the value [process] gave it.

    Resources of the host.  [Regex.run], [parse_tool_calls] and [Ctx.load]
    are the code on a host that never runs short of stack or memory.
    [RegexOn.run_on] and [parse_tool_calls_on] are the matcher and the
    parser on a stack that holds a given number of levels of the matcher,
    and [load_in] is [Context::load] on a host that answers each request for
    a string by a [Memory]; they agree with the former as long as the
    resources last (StackFacts.parse_on_agree, MemoryFacts.load_in_agree).
    The texts the tools build ([replace_loop], [read_pipe]) are not bounded
    by memory, and a role number without enumerator in a saved context is
    outside the embedding ([Ctx.load_loop] answers [None]). *)

From Stdlib Require Import ZArith Ascii String List Lia Bool.
From Stdlib Require Import DecimalString DecimalNat.
From stdpp Require Import base option list gmap strings sorting.

Local Open Scope Z_scope.

(* ===================================================================== *)
(** * Strings                                                             *)
(* ===================================================================== *)

Definition chars (s : string) : list ascii := list_ascii_of_string s.
Definition text (l : list ascii) : string := string_of_list_ascii l.

(** [std::to_string] on a non-negative [int] / [operator<<] on [size_t]. *)
Definition nat_to_string (n : nat) : string :=
  NilEmpty.string_of_uint (Nat.to_uint n).

(** [operator<<] on an [int]. *)
Definition int_to_string (z : Z) : string :=
  if z <? 0 then "-" +:+ nat_to_string (Z.to_nat (- z))
  else nat_to_string (Z.to_nat z).

Definition nl : string := String "010"%char EmptyString.

(* ===================================================================== *)
(** * A backtracking matcher for the two patterns of parse_tool_calls     *)
(* ===================================================================== *)

(** [std::regex] (ECMAScript grammar) is a backtracking matcher: a greedy
    quantifier first tries one more repetition and falls back to the rest of
    the pattern, a lazy one does the opposite; the first successful path
    wins.  The syntax below covers what the two patterns use: literal
    characters, character classes, [*] / [*?] applied to a class, capturing
    groups and concatenation. *)
Module Regex.

Inductive regex : Type :=
| Eps
| Chr (c : ascii)
| Cls (p : ascii -> bool)
| Star (p : ascii -> bool) (greedy : bool)
| Grp (n : nat) (r : regex)
| Cat (r1 r2 : regex).

(** Character classes of [std::regex_traits<char>] in the "C" locale. *)
Definition cls_space (c : ascii) : bool := Ascii.is_space c.

Definition cls_word (c : ascii) : bool :=
  let n := nat_of_ascii c in
  ((48 <=? n) && (n <=? 57) || (65 <=? n) && (n <=? 90)
   || (97 <=? n) && (n <=? 122) || (n =? 95))%nat.

(** [.] matches everything but a line terminator. *)
Definition cls_dot (c : ascii) : bool :=
  negb (Ascii.eqb c "010"%char || Ascii.eqb c "013"%char).

(** [[\s\S]]. *)
Definition cls_any (c : ascii) : bool := cls_space c || negb (cls_space c).

Fixpoint lit (l : list ascii) : regex :=
  match l with
  | [] => Eps
  | c :: l' => Cat (Chr c) (lit l')
  end.

Definition plus (p : ascii -> bool) : regex := Cat (Cls p) (Star p true).

Fixpoint seq (rs : list regex) : regex :=
  match rs with
  | [] => Eps
  | r :: rs' => Cat r (seq rs')
  end.

(** Sub-matches, indexed by group number. *)
Abbreviation captures := (gmap nat (list ascii)).

Section Run.
Context {R : Type}.

Fixpoint star_greedy (p : ascii -> bool) (s : list ascii)
    (k : list ascii -> option R) : option R :=
  match s with
  | c :: s' =>
      if p c then
        match star_greedy p s' k with
        | Some r => Some r
        | None => k s
        end
      else k s
  | [] => k s
  end.

Fixpoint star_lazy (p : ascii -> bool) (s : list ascii)
    (k : list ascii -> option R) : option R :=
  match k s with
  | Some r => Some r
  | None =>
      match s with
      | c :: s' => if p c then star_lazy p s' k else None
      | [] => None
      end
  end.

(** [run r s caps k]: match [r] at the head of [s], then continue with
    [k] on the rest; [None] when every path fails. *)
Fixpoint run (r : regex) (s : list ascii) (caps : captures)
    (k : list ascii -> captures -> option R) : option R :=
  match r with
  | Eps => k s caps
  | Chr c =>
      match s with
      | x :: s' => if Ascii.eqb x c then k s' caps else None
      | [] => None
      end
  | Cls p =>
      match s with
      | x :: s' => if p x then k s' caps else None
      | [] => None
      end
  | Star p greedy =>
      (if greedy then star_greedy else star_lazy) p s (fun s' => k s' caps)
  | Grp n r' =>
      run r' s caps
        (fun s' caps' =>
           k s' (<[n := take (length s - length s') s]> caps'))
  | Cat r1 r2 =>
      run r1 s caps (fun s' caps' => run r2 s' caps' k)
  end.
End Run.

(** One attempt of [regex_search] at the current position: the length of
    the match and its sub-matches. *)
Definition match_at (r : regex) (s : list ascii) : option (nat * captures) :=
  run r s ∅ (fun s' caps => Some ((length s - length s')%nat, caps)).

(** [std::sregex_iterator]: successive non-overlapping left-most matches.
    [skip] counts the characters of the previous match still to be passed.
    Both patterns below consume at least one character, so the iterator's
    special treatment of empty matches never comes into play. *)
Fixpoint iterate (r : regex) (s : list ascii) (skip : nat) : list captures :=
  match s with
  | [] => []
  | _ :: s' =>
      match skip with
      | S n => iterate r s' n
      | O =>
          match match_at r s with
          | Some (len, caps) => caps :: iterate r s' (pred len)
          | None => iterate r s' 0
          end
      end
  end.

(** [match[n].str()]: empty when the group did not take part. *)
Definition sub (caps : captures) (n : nat) : list ascii :=
  default [] (caps !! n).

End Regex.

(* ===================================================================== *)
(** * types.hpp                                                           *)
(* ===================================================================== *)

Inductive Role : Type := System | User | Assistant | Tool.

Record Message : Type := mkMessage {
  role : Role;
  content : string;
  tool_name : option string;
  tool_call_id : option string;
  images : list string
}.

Definition Message_system (c : string) : Message :=
  mkMessage System c None None [].
Definition Message_user (c : string) (imgs : list string) : Message :=
  mkMessage User c None None imgs.
Definition Message_assistant (c : string) : Message :=
  mkMessage Assistant c None None [].
Definition Message_tool_result (name call_id result : string) : Message :=
  mkMessage Tool result (Some name) (Some call_id) [].

Record ToolCall : Type := mkToolCall {
  id : string;
  name : string;
  arguments : gmap string string
}.

Record ToolResult : Type := mkToolResult {
  call_id : string;
  success : bool;
  output : string;
  error : option string
}.

Inductive AgentState : Type :=
  Idle | Thinking | CallingTool | WaitingForUser | Error | Done.

(* ===================================================================== *)
(** * Agent::parse_tool_calls                                             *)
(* ===================================================================== *)

Import Regex.

(** [<tool_call>\s*name:\s*(\w+)\s*arguments:\s*([\s\S]*?)</tool_call>] *)
Definition tool_regex : regex :=
  seq [ lit (chars "<tool_call>"); Star cls_space true;
        lit (chars "name:"); Star cls_space true;
        Grp 1 (plus cls_word); Star cls_space true;
        lit (chars "arguments:"); Star cls_space true;
        Grp 2 (Star cls_any false);
        lit (chars "</tool_call>") ].

(** [(\w+):\s*(.+)] *)
Definition arg_regex : regex :=
  seq [ Grp 1 (plus cls_word); lit (chars ":"); Star cls_space true;
        Grp 2 (plus cls_dot) ].

(** The characters removed by the two [erase] calls: [" \t\n\r"]. *)
Definition trim_char (c : ascii) : bool :=
  Ascii.eqb c " "%char || Ascii.eqb c "009"%char
  || Ascii.eqb c "010"%char || Ascii.eqb c "013"%char.

(** [value.erase(0, value.find_first_not_of(" \t\n\r"))] *)
Fixpoint erase_leading (l : list ascii) : list ascii :=
  match l with
  | c :: l' => if trim_char c then erase_leading l' else l
  | [] => []
  end.

(** [value.erase(value.find_last_not_of(" \t\n\r") + 1)] *)
Fixpoint erase_trailing (l : list ascii) : list ascii :=
  match l with
  | c :: l' =>
      match erase_trailing l' with
      | [] => if trim_char c then [] else [c]
      | t => c :: t
      end
  | [] => []
  end.

Definition trim_value (l : list ascii) : list ascii :=
  erase_trailing (erase_leading l).

(** The inner loop over [arg_regex]: [call.arguments[key] = value]. *)
Definition parse_arguments (args_str : list ascii) : gmap string string :=
  fold_left
    (fun (args : gmap string string) (m : captures) =>
       <[text (sub m 1) := text (trim_value (sub m 2))]> args)
    (iterate arg_regex args_str 0) ∅.

Definition make_call (call_id : nat) (m : captures) : ToolCall :=
  {| id := "call_" +:+ nat_to_string call_id;
     name := text (sub m 1);
     arguments := parse_arguments (sub m 2) |}.

(** The outer loop: [call_id] starts at 0 and is incremented per match. *)
Fixpoint collect_calls (call_id : nat) (ms : list captures) : list ToolCall :=
  match ms with
  | [] => []
  | m :: ms' => make_call call_id m :: collect_calls (S call_id) ms'
  end.

Definition parse_tool_calls (response : string) : list ToolCall :=
  collect_calls 0 (iterate tool_regex (chars response) 0).

(* ===================================================================== *)
(** * Faults                                                              *)
(* ===================================================================== *)

(** What a C++ call can throw: an object derived from [std::exception]
    (with its [what()] text) or anything else. *)
Inductive Fault : Type :=
| StdException (what : string)
| OtherException.

Inductive Outcome (A : Type) : Type :=
| Returns (a : A)
| Throws (f : Fault).
Arguments Returns {A} a.
Arguments Throws {A} f.

(* ===================================================================== *)
(** * tools.hpp, tool_registry.cpp                                        *)
(* ===================================================================== *)

Record ToolParameter : Type := mkToolParameter {
  param_name : string;
  param_type : string;
  param_description : string;
  required : bool;
  default_value : option string
}.

Record ToolSchema : Type := mkToolSchema {
  schema_name : string;
  schema_description : string;
  parameters : list ToolParameter
}.

Section Tools.
Context {World : Type}.

(** The abstract class [Tool].  Executing a tool acts on the world and
    may throw; the availability check reads the world. *)
Record ToolImpl : Type := mkTool {
  get_schema : ToolSchema;
  execute : World -> gmap string string -> Outcome ToolResult * World;
  is_available : World -> bool
}.

Definition tool_name_of (t : ToolImpl) : string := schema_name (get_schema t).

(** [std::map<std::string, std::unique_ptr<Tool>> tools_] *)
Abbreviation ToolRegistry := (gmap string ToolImpl).

(** [register_tool]: a null pointer is ignored, an existing entry of the
    same name is replaced. *)
Definition register_tool (tool : option ToolImpl) (tools_ : ToolRegistry)
    : ToolRegistry :=
  match tool with
  | Some t => <[tool_name_of t := t]> tools_
  | None => tools_
  end.

Definition get_tool (tools_ : ToolRegistry) (name : string) : option ToolImpl :=
  tools_ !! name.

(** Iteration over a [std::map] visits the keys in increasing order. *)
Definition key_le (a b : string * ToolImpl) : Prop := String.le a.1 b.1.

#[local] Instance key_le_dec : RelDecision key_le.
Proof. intros a b. unfold key_le. apply _. Defined.

Definition in_key_order (tools_ : ToolRegistry) : list ToolImpl :=
  (merge_sort key_le (map_to_list tools_)).*2.

Definition get_all_tools (tools_ : ToolRegistry) (w : World) : list ToolImpl :=
  filter (fun t => is_available t w = true) (in_key_order tools_).

Definition get_all_schemas (tools_ : ToolRegistry) (w : World) : list ToolSchema :=
  get_schema <$> get_all_tools tools_ w.

Definition format_parameter (p : ToolParameter) : string :=
  "- `" +:+ param_name p +:+ "` (" +:+ param_type p
  +:+ (if required p then ", required" else "")
  +:+ "): " +:+ param_description p
  +:+ match default_value p with
      | Some d => " (default: " +:+ d +:+ ")"
      | None => ""
      end
  +:+ nl.

Definition format_schema (s : ToolSchema) : string :=
  "### " +:+ schema_name s +:+ nl
  +:+ schema_description s +:+ nl +:+ nl
  +:+ "**Parameters:**" +:+ nl
  +:+ String.concat "" (format_parameter <$> parameters s)
  +:+ nl.

Definition format_tools_prompt (tools_ : ToolRegistry) (w : World) : string :=
  "## Available Tools" +:+ nl +:+ nl
  +:+ "You can use these tools by outputting a tool call in this format:" +:+ nl
  +:+ "```" +:+ nl
  +:+ "<tool_call>" +:+ nl
  +:+ "name: tool_name" +:+ nl
  +:+ "arguments:" +:+ nl
  +:+ "  param1: value1" +:+ nl
  +:+ "  param2: value2" +:+ nl
  +:+ "</tool_call>" +:+ nl
  +:+ "```" +:+ nl +:+ nl
  +:+ String.concat "" (format_schema <$> get_all_schemas tools_ w).

(** [ToolRegistry::execute].  The [catch] clause handles
    [const std::exception&] only. *)
Definition registry_execute (tools_ : ToolRegistry) (call : ToolCall)
    (w : World) : Outcome ToolResult * World :=
  match get_tool tools_ (name call) with
  | None =>
      (Returns (mkToolResult (id call) false ""
                  (Some ("Unknown tool: " +:+ name call))), w)
  | Some tool =>
      if negb (is_available tool w) then
        (Returns (mkToolResult (id call) false ""
                    (Some ("Tool not available: " +:+ name call))), w)
      else
        match execute tool w (arguments call) with
        | (Returns result, w') =>
            (Returns (mkToolResult (id call) (success result)
                        (output result) (error result)), w')
        | (Throws (StdException what), w') =>
            (Returns (mkToolResult (id call) false ""
                        (Some ("Tool execution failed: " +:+ what))), w')
        | (Throws OtherException, w') => (Throws OtherException, w')
        end
  end.

End Tools.

Arguments ToolImpl World : clear implicits.

(* ===================================================================== *)
(** * agent.hpp, agent.cpp                                                *)
(* ===================================================================== *)

(** [Agent::Config]; the device and the generation settings are only handed
    on to the backend and are part of its behaviour here. *)
Record Config : Type := mkConfig {
  vlm_model_path : string;
  llm_model_path : string;
  max_iterations : Z;
  max_consecutive_errors : Z;
  verbose : bool;
  stream_output : bool;
  system_prompt : string
}.

(** What the three callbacks are told, in order, plus one entry per call of
    the model backend.  The trace is kept whether or not a callback is
    installed; nothing in the agent reads it. *)
Inductive Event : Type :=
| StateChanged (s : AgentState) (message : string)
| ToolDispatched (call : ToolCall) (result : ToolResult)
| Token (t : string)
| Generated (prompt response : string).

Section Agent.
Context {World : Type}.

Record VLMEngine : Type := mkVLM {
  vlm_is_loaded : World -> bool;
  vlm_generate : World -> string -> list string -> Outcome string * World;
  (** the tokens handed to the callback, and the fault if one ended the call *)
  vlm_generate_stream :
    World -> string -> list string -> list string * option Fault * World;
  vlm_start_chat : World -> World
}.

Record LLMEngine : Type := mkLLM {
  llm_is_loaded : World -> bool;
  llm_generate : World -> string -> Outcome string * World
}.

(** [Agent::Impl].  [stream_callback] tells whether a token callback is
    installed. *)
Record Impl : Type := mkImpl {
  config : Config;
  vlm : option VLMEngine;
  llm : option LLMEngine;
  tools : gmap string (ToolImpl World);
  history : list Message;
  state : AgentState;
  stop_requested : bool;
  stream_callback : bool;
  events : list Event
}.

Definition with_history (i : Impl) (h : list Message) : Impl :=
  mkImpl (config i) (vlm i) (llm i) (tools i) h (state i)
         (stop_requested i) (stream_callback i) (events i).

Definition with_state (i : Impl) (s : AgentState) : Impl :=
  mkImpl (config i) (vlm i) (llm i) (tools i) (history i) s
         (stop_requested i) (stream_callback i) (events i).

Definition with_stop_requested (i : Impl) (b : bool) : Impl :=
  mkImpl (config i) (vlm i) (llm i) (tools i) (history i) (state i)
         b (stream_callback i) (events i).

Definition with_stream_callback (i : Impl) (b : bool) : Impl :=
  mkImpl (config i) (vlm i) (llm i) (tools i) (history i) (state i)
         (stop_requested i) b (events i).

Definition with_tools (i : Impl) (t : gmap string (ToolImpl World)) : Impl :=
  mkImpl (config i) (vlm i) (llm i) t (history i) (state i)
         (stop_requested i) (stream_callback i) (events i).

Definition log (i : Impl) (es : list Event) : Impl :=
  mkImpl (config i) (vlm i) (llm i) (tools i) (history i) (state i)
         (stop_requested i) (stream_callback i) (events i ++ es).

Definition push_history (i : Impl) (m : Message) : Impl :=
  with_history i (history i ++ [m]).

(** [Impl::set_state] *)
Definition set_state (i : Impl) (new_state : AgentState) (message : string)
    : Impl :=
  log (with_state i new_state) [StateChanged new_state message].

(** The constructor, given the engines it has loaded and the default tools
    of [register_defaults]. *)
Definition Agent_new (cfg : Config) (v : option VLMEngine)
    (l : option LLMEngine) (defaults : list (ToolImpl World)) : Impl :=
  mkImpl cfg v l
    (foldl (fun r t => register_tool (Some t) r) ∅ defaults)
    [] Idle false false [].

(** [Agent::format_tool_results] *)
Definition format_tool_result (cr : ToolCall * ToolResult) : string :=
  let (call, result) := cr in
  nl +:+ "### " +:+ name call +:+ " (id: " +:+ id call +:+ ")" +:+ nl
  +:+ (if success result then
         "Status: Success" +:+ nl
         +:+ "Output:" +:+ nl +:+ output result +:+ nl
       else
         "Status: Failed" +:+ nl
         +:+ "Error: " +:+ default "Unknown error" (error result) +:+ nl
         +:+ (if String.eqb (output result) "" then ""
              else "Output:" +:+ nl +:+ output result +:+ nl)).

Definition format_tool_results (results : list (ToolCall * ToolResult))
    : string :=
  "Tool Results:" +:+ nl +:+ String.concat "" (format_tool_result <$> results).

(** [Agent::build_prompt] *)
Definition format_message (msg : Message) : string :=
  match role msg with
  | User =>
      "<|im_start|>user" +:+ nl
      +:+ String.concat ""
            ((fun _ => "<|vision_start|><|image_pad|><|vision_end|>")
               <$> images msg)
      +:+ content msg +:+ "<|im_end|>" +:+ nl
  | Assistant =>
      "<|im_start|>assistant" +:+ nl +:+ content msg +:+ "<|im_end|>" +:+ nl
  | Tool =>
      "<|im_start|>tool" +:+ nl +:+ content msg +:+ "<|im_end|>" +:+ nl
  | System => ""
  end.

Definition build_prompt (i : Impl) (w : World) (messages : list Message)
    : string :=
  "<|im_start|>system" +:+ nl
  +:+ system_prompt (config i) +:+ nl +:+ nl
  +:+ format_tools_prompt (tools i) w
  +:+ "<|im_end|>" +:+ nl
  +:+ String.concat "" (format_message <$> messages)
  +:+ "<|im_start|>assistant" +:+ nl.

(** The "Generate response" step of the loop body. *)
Definition generate_response (i : Impl) (w : World) (prompt : string)
    (imgs : list string) : Outcome string * Impl * World :=
  let use_llm :=
    match llm i with
    | Some l =>
        if llm_is_loaded l w then
          match llm_generate l w prompt with
          | (Returns response, w') =>
              (Returns response, log i [Generated prompt response], w')
          | (Throws f, w') => (Throws f, i, w')
          end
        else (Throws (StdException "No model loaded"), i, w)
    | None => (Throws (StdException "No model loaded"), i, w)
    end in
  match vlm i with
  | Some v =>
      if vlm_is_loaded v w then
        if stream_callback i then
          match vlm_generate_stream v w prompt imgs with
          | (tokens, None, w') =>
              let response := String.concat "" tokens in
              (Returns response,
               log i ((Token <$> tokens) ++ [Generated prompt response]), w')
          | (tokens, Some f, w') => (Throws f, log i (Token <$> tokens), w')
          end
        else
          match vlm_generate v w prompt imgs with
          | (Returns response, w') =>
              (Returns response, log i [Generated prompt response], w')
          | (Throws f, w') => (Throws f, i, w')
          end
      else use_llm
  | None => use_llm
  end.

(** The [for] loop over the parsed calls.  [errs] is [consecutive_errors],
    [final] the text accumulated in [final_response]. *)
Fixpoint dispatch_all (calls : list ToolCall) (i : Impl) (w : World)
    (errs : Z) (final : string) (results : list (ToolCall * ToolResult))
    : Outcome (Z * string * list (ToolCall * ToolResult)) * Impl * World :=
  match calls with
  | [] => (Returns (errs, final, results), i, w)
  | call :: rest =>
      if stop_requested i then (Returns (errs, final, results), i, w)
      else
        match registry_execute (tools i) call w with
        | (Throws f, w') => (Throws f, i, w')
        | (Returns result, w') =>
            let results' := results ++ [(call, result)] in
            let i' := log i [ToolDispatched call result] in
            if negb (success result) then
              let errs' := errs + 1 in
              if errs' >=? max_consecutive_errors (config i) then
                (Returns
                   (errs',
                    final +:+ "Too many consecutive errors. Stopping." +:+ nl
                    +:+ "Last error: "
                    +:+ default "Unknown error" (error result),
                    results'), i', w')
              else dispatch_all rest i' w' errs' final results'
            else dispatch_all rest i' w' 0 final results'
        end
  end.

(** The statements after the [while] loop. *)
Definition finish (i : Impl) (w : World) (iterations : Z) (final : string)
    : Outcome string * Impl * World :=
  (Returns (if iterations >=? max_iterations (config i)
            then final +:+ nl +:+ "[Reached maximum iterations]"
            else final), i, w).

(** The [while] loop of [react_loop].  Every turn increments [iterations],
    so [max_iterations] turns of fuel are enough ([None]: out of fuel). *)
Fixpoint react_while (fuel : nat) (imgs : list string) (i : Impl) (w : World)
    (iterations errs : Z) (final : string)
    : option (Outcome string * Impl * World) :=
  if (iterations <? max_iterations (config i)) && negb (stop_requested i) then
    match fuel with
    | O => None
    | S fuel' =>
        let iterations := iterations + 1 in
        let prompt := build_prompt i w (history i) in
        match generate_response i w prompt imgs with
        | (Throws f, i, w) => Some (Throws f, i, w)
        | (Returns response, i, w) =>
            match parse_tool_calls response with
            | [] => Some (finish i w iterations (final +:+ response))
            | tool_calls =>
                let i := set_state i CallingTool "Executing tools..." in
                match dispatch_all tool_calls i w errs final [] with
                | (Throws f, i, w) => Some (Throws f, i, w)
                | (Returns (errs, final, results), i, w) =>
                    let tool_results := format_tool_results results in
                    let i :=
                      push_history i
                        (Message_tool_result "tools" "" tool_results) in
                    let i := set_state i Thinking "Processing tool results..." in
                    react_while fuel' imgs i w iterations errs final
                end
            end
        end
    end
  else Some (finish i w iterations final).

(** [Agent::react_loop] *)
Definition react_loop (i : Impl) (w : World) (user_message : string)
    (imgs : list string) : option (Outcome string * Impl * World) :=
  react_while (Z.to_nat (max_iterations (config i))) imgs i w 0 0 "".

(** [Agent::process] *)
Definition process (i : Impl) (w : World) (message : string)
    (imgs : list string) : option (Outcome string * Impl * World) :=
  let i := with_stop_requested i false in
  let i := set_state i Thinking "Processing message..." in
  let i := push_history i (Message_user message imgs) in
  match react_loop i w message imgs with
  | None => None
  | Some (Throws f, i, w) => Some (Throws f, i, w)
  | Some (Returns response, i, w) =>
      let i := push_history i (Message_assistant response) in
      let i := set_state i Done "" in
      Some (Returns response, i, w)
  end.

(** [Agent::process_stream]; [on_token] tells whether the token callback
    passed in is non-empty. *)
Definition process_stream (i : Impl) (w : World) (message : string)
    (imgs : list string) (on_token : bool)
    : option (Outcome string * Impl * World) :=
  process (with_stream_callback i on_token) w message imgs.


Definition add_message (i : Impl) (m : Message) : Impl := push_history i m.
Definition get_state (i : Impl) : AgentState := state i.

Definition is_busy (i : Impl) : bool :=
  match state i with
  | Thinking | CallingTool => true
  | _ => false
  end.

End Agent.

Arguments VLMEngine World : clear implicits.
Arguments LLMEngine World : clear implicits.
Arguments Impl World : clear implicits.

(* ===================================================================== *)
(** * context.cpp                                                         *)
(* ===================================================================== *)

Module Ctx.

(** [class Context]: the message vector and the token limit ([size_t]). *)
Record Context : Type := mkContext {
  messages_ : list Message;
  max_tokens_ : N
}.

Definition new : Context := mkContext [] 16000.

Definition messages (c : Context) : list Message := messages_ c.

Definition set_max_tokens (c : Context) (max : N) : Context :=
  mkContext (messages_ c) max.

Definition is_system (m : Message) : bool :=
  match role m with System => true | _ => false end.

(** [clear]: [remove_if] on [role != System]. *)
Definition clear (c : Context) : Context :=
  mkContext (List.filter is_system (messages_ c)) (max_tokens_ c).

(** [estimate_tokens]: the sum of [content.length() / 4]. *)
Definition estimate (msgs : list Message) : N :=
  fold_left
    (fun total msg => (total + N.of_nat (String.length (content msg)) / 4)%N)
    msgs 0%N.

Definition estimate_tokens (c : Context) : N := estimate (messages_ c).

(** The body of the [while] in [trim_if_needed]; it only runs with more
    than two messages, so the iterator never reaches [end()]. *)
Definition erase_oldest (msgs : list Message) : list Message :=
  match msgs with
  | [] => []
  | m :: rest =>
      if is_system m then
        match rest with
        | [] => msgs
        | _ :: rest' => m :: rest'
        end
      else rest
  end.

(** The [while] of [trim_if_needed]; each turn erases one message, so the
    number of messages is enough fuel. *)
Fixpoint trim_loop (fuel : nat) (max : N) (msgs : list Message)
    : list Message :=
  if (max <? estimate msgs)%N && (2 <? length msgs)%nat then
    match fuel with
    | O => msgs
    | S fuel' => trim_loop fuel' max (erase_oldest msgs)
    end
  else msgs.

Definition trim_if_needed (c : Context) : Context :=
  mkContext (trim_loop (length (messages_ c)) (max_tokens_ c) (messages_ c))
            (max_tokens_ c).

Definition add_message (c : Context) (msg : Message) : Context :=
  trim_if_needed (mkContext (messages_ c ++ [msg]) (max_tokens_ c)).

(** [format] *)
Definition format (c : Context) : string :=
  String.concat ""
    ((fun msg =>
        match role msg with
        | System => "[System] "
        | User => "[User] "
        | Assistant => "[Assistant] "
        | Tool => "[Tool] "
        end +:+ content msg +:+ nl +:+ nl) <$> messages_ c).

(** ** save and load *)

(** [static_cast<int>(msg.role)] and back.  A number without an enumerator
    has no counterpart in [Role]. *)
Definition role_to_int (r : Role) : Z :=
  match r with System => 0 | User => 1 | Assistant => 2 | Tool => 3 end.

Definition role_of_int (z : Z) : option Role :=
  match z with
  | 0 => Some System
  | 1 => Some User
  | 2 => Some Assistant
  | 3 => Some Tool
  | _ => None
  end.

(** The files of the host, with what [ofstream] / [ifstream] can open. *)
Record FileSystem : Type := mkFS {
  files : gmap string string;
  can_write : string -> bool;
  can_read : string -> bool
}.

Definition save_record (msg : Message) : string :=
  int_to_string (role_to_int (role msg)) +:+ nl
  +:+ nat_to_string (String.length (content msg)) +:+ nl
  +:+ content msg +:+ nl.

Definition save_text (msgs : list Message) : string :=
  String.concat "" (save_record <$> msgs).

(** [save] *)
Definition save (c : Context) (path : string) (fs : FileSystem)
    : bool * FileSystem :=
  if can_write fs path then
    (true,
     mkFS (<[path := save_text (messages_ c)]> (files fs))
          (can_write fs) (can_read fs))
  else (false, fs).

(** Formatted extraction, [operator>>]: leading white space is skipped, a
    sign is accepted, at least one digit is needed. *)
Fixpoint skip_space (l : list ascii) : list ascii :=
  match l with
  | c :: l' => if Ascii.is_space c then skip_space l' else l
  | [] => []
  end.

Definition digit (c : ascii) : option Z :=
  let n := Z.of_nat (nat_of_ascii c) in
  if (48 <=? n) && (n <=? 57) then Some (n - 48) else None.

Fixpoint digits (l : list ascii) (acc : Z) : Z * list ascii :=
  match l with
  | c :: l' =>
      match digit c with
      | Some d => digits l' (acc * 10 + d)
      | None => (acc, l)
      end
  | [] => (acc, [])
  end.

(** Sign and magnitude of the number at the head of the stream. *)
Definition number (l : list ascii) : option (bool * Z * list ascii) :=
  let l := skip_space l in
  let (negative, l) :=
    match l with
    | c :: l' =>
        if Ascii.eqb c "-"%char then (true, l')
        else if Ascii.eqb c "+"%char then (false, l')
        else (false, l)
    | [] => (false, l)
    end in
  match l with
  | c :: _ =>
      match digit c with
      | Some _ => let (v, rest) := digits l 0 in Some (negative, v, rest)
      | None => None
      end
  | [] => None
  end.

(** [file >> role_int]: a value outside [int] sets the fail bit. *)
Definition extract_int (l : list ascii) : option (Z * list ascii) :=
  match number l with
  | Some (negative, v, rest) =>
      let z := if negative then - v else v in
      if (- 2 ^ 31 <=? z) && (z <? 2 ^ 31) then Some (z, rest) else None
  | None => None
  end.

(** [file >> content_len]: a magnitude outside [size_t] sets the fail bit;
    a minus sign negates modulo 2^64. *)
Definition extract_size (l : list ascii) : option (Z * list ascii) :=
  match number l with
  | Some (negative, v, rest) =>
      if v <? 2 ^ 64 then
        Some (if negative then (2 ^ 64 - v) mod 2 ^ 64 else v, rest)
      else None
  | None => None
  end.

(** [file.ignore()] *)
Definition ignore (l : list ascii) : list ascii := drop 1 l.

(** [std::string content(content_len, '\0'); file.read(&content[0], content_len)]:
    what the stream cannot supply stays zero. *)
Definition read (n : nat) (l : list ascii) : list ascii :=
  take n l ++ replicate (n - length l) "000"%char.

(** The [while] of [load].  A turn consumes at least one digit, so the
    length of the file is enough fuel.  [None]: the file names a role
    number that has no enumerator. *)
Fixpoint load_loop (fuel : nat) (l : list ascii) (acc : list Message)
    : option (list Message) :=
  match fuel with
  | O => Some acc
  | S fuel' =>
      match extract_int l with
      | None => Some acc
      | Some (role_int, l) =>
          match extract_size l with
          | None => Some acc
          | Some (content_len, l) =>
              let n := Z.to_nat content_len in
              let l := ignore l in
              let content := read n l in
              let l := ignore (drop n l) in
              match role_of_int role_int with
              | Some r =>
                  load_loop fuel' l
                    (acc ++ [mkMessage r (text content) None None []])
              | None => None
              end
          end
      end
  end.

Definition load_text (file : string) : option (list Message) :=
  load_loop (String.length file) (chars file) [].

(** [load]: [false] when the file does not exist or cannot be opened. *)
Definition load (c : Context) (path : string) (fs : FileSystem)
    : option (bool * Context) :=
  match files fs !! path with
  | None => Some (false, c)
  | Some file =>
      if can_read fs path then
        match load_text file with
        | Some msgs => Some (true, mkContext msgs (max_tokens_ c))
        | None => None
        end
      else Some (false, c)
  end.

End Ctx.

(* ===================================================================== *)
(** * Vocabulary of the statements                                        *)
(* ===================================================================== *)

(** The index [trim_if_needed] erases: the first message that is not the
    System message standing at the front. *)
Definition oldest_unpinned (msgs : list Message) : nat :=
  match msgs with
  | m :: _ => if Ctx.is_system m then 1%nat else 0%nat
  | [] => 0%nat
  end.

(** One eviction as the policy words it. *)
Definition evict (msgs : list Message) : list Message :=
  delete (oldest_unpinned msgs) msgs.

Definition over_budget (max : N) (msgs : list Message) : Prop :=
  (max < Ctx.estimate msgs)%N /\ (2 < length msgs)%nat.

(** What [load] rebuilds of a message: role and content. *)
Definition persisted (m : Message) : Message :=
  mkMessage (role m) (content m) None None [].

(** Whether the loop finds a backend to call. *)
Definition vlm_usable {World : Type} (i : Impl World) (w : World) : bool :=
  match vlm i with Some v => vlm_is_loaded v w | None => false end.

Definition llm_usable {World : Type} (i : Impl World) (w : World) : bool :=
  match llm i with Some l => llm_is_loaded l w | None => false end.

Definition no_model_loaded {World : Type} (i : Impl World) (w : World) : Prop :=
  vlm_usable i w = false /\ llm_usable i w = false.

(** Counting entries of the trace. *)
Definition is_generated (e : Event) : bool :=
  match e with Generated _ _ => true | _ => false end.

Definition is_dispatch (e : Event) : bool :=
  match e with ToolDispatched _ _ => true | _ => false end.

Definition is_calling_tool (e : Event) : bool :=
  match e with StateChanged CallingTool _ => true | _ => false end.

Definition count (p : Event -> bool) (es : list Event) : nat :=
  length (List.filter p es).

Definition iteration_marker : string := nl +:+ "[Reached maximum iterations]".

(** Prefix and suffix tests. *)
Fixpoint starts_with (p s : list ascii) : bool :=
  match p, s with
  | [], _ => true
  | c :: p', x :: s' => Ascii.eqb x c && starts_with p' s'
  | _ :: _, [] => false
  end.

Definition ends_with (suffix s : string) : bool :=
  starts_with (rev (chars suffix)) (rev (chars s)).

(** Every response the agent can get from its backends holds a tool call. *)
Definition responses_always_call {World : Type} (i : Impl World) : Prop :=
  (forall v, vlm i = Some v ->
     (forall w prompt imgs r w',
         vlm_generate v w prompt imgs = (Returns r, w') ->
         parse_tool_calls r <> [])
     /\ (forall w prompt imgs tokens w',
           vlm_generate_stream v w prompt imgs = (tokens, None, w') ->
           parse_tool_calls (String.concat "" tokens) <> []))
  /\ (forall l, llm i = Some l ->
        forall w prompt r w',
          llm_generate l w prompt = (Returns r, w') ->
          parse_tool_calls r <> []).

(** The part of the agent that a run of the loop leaves alone. *)
Definition same_setup {World : Type} (i i' : Impl World) : Prop :=
  config i' = config i /\ vlm i' = vlm i /\ llm i' = llm i
  /\ tools i' = tools i /\ stop_requested i' = stop_requested i
  /\ stream_callback i' = stream_callback i.

Definition is_tool_turn (m : Message) : Prop := role m = Tool.

(** What ends a run of digits: the end of the file or another character. *)
Definition stops_digits (l : list ascii) : Prop :=
  match l with
  | c :: _ => Ctx.digit c = None
  | [] => True
  end.

Definition newline : ascii := "010"%char.

(** What ends a greedy run over a class: the end of the text or a character
    outside the class. *)
Definition stops (p : ascii -> bool) (s : list ascii) : Prop :=
  match s with
  | c :: _ => p c = false
  | [] => True
  end.

Definition lt_free (q : list ascii) : bool :=
  forallb (fun c => negb (Ascii.eqb c "<"%char)) q.

(** A text is at a boundary when it is empty or starts with "<". *)
Definition at_boundary (s : list ascii) : Prop :=
  match s with
  | c :: _ => c = "<"%char
  | [] => True
  end.

(** ** Texts with tool-call blocks *)

Definition opener : list ascii := chars "<tool_call>".
Definition closer : list ascii := chars "</tool_call>".
Definition name_key : list ascii := chars "name:".
Definition arguments_key : list ascii := chars "arguments:".

(** [contains p s]: [p] occurs somewhere in [s]. *)
Fixpoint contains (p s : list ascii) : bool :=
  starts_with p s
  || match s with
     | [] => false
     | _ :: s' => contains p s'
     end.

(** The words denoted by a pattern. *)
Fixpoint lang (r : Regex.regex) (s : list ascii) : Prop :=
  match r with
  | Regex.Eps => s = []
  | Regex.Chr c => s = [c]
  | Regex.Cls p => exists c, s = [c] /\ p c = true
  | Regex.Star p _ => forallb p s = true
  | Regex.Grp _ r' => lang r' s
  | Regex.Cat r1 r2 => exists s1 s2, s = s1 ++ s2 /\ lang r1 s1 /\ lang r2 s2
  end.

(** A block in the documented layout: the two delimiters, the name field
    and the arguments field, with runs of white space in between. *)
Record Block : Type := mkBlock {
  gap1 : list ascii;
  gap2 : list ascii;
  block_name : list ascii;
  gap3 : list ascii;
  gap4 : list ascii;
  block_body : list ascii
}.

Definition render_block (b : Block) : list ascii :=
  opener ++ gap1 b ++ name_key ++ gap2 b ++ block_name b ++ gap3 b
  ++ arguments_key ++ gap4 b ++ block_body b ++ closer.

(** The gaps are white space, the name is a non-empty word followed by
    white space, and the body (taken from its first character that is not
    white space) does not hold the closing delimiter. *)
Definition well_formed (b : Block) : bool :=
  forallb Regex.cls_space (gap1 b) && forallb Regex.cls_space (gap2 b)
  && forallb Regex.cls_space (gap3 b) && forallb Regex.cls_space (gap4 b)
  && negb (bool_decide (gap3 b = []))
  && forallb Regex.cls_word (block_name b)
  && negb (bool_decide (block_name b = []))
  && negb (contains closer (block_body b))
  && match block_body b with
     | c :: _ => negb (Regex.cls_space c)
     | [] => true
     end.

(** [headed s]: [s] starts with the opening delimiter, white space and the
    name key.  A text is [inert] when this happens at none of its
    positions; it may hold delimiters, and whole blocks without a name
    field. *)
Definition headed (s : list ascii) : bool :=
  starts_with opener s
  && starts_with name_key (Ctx.skip_space (drop (length opener) s)).

Fixpoint inert (f : list ascii) : bool :=
  negb (headed f)
  && match f with
     | [] => true
     | _ :: f' => inert f'
     end.

(** A response: leading text, then blocks, each followed by more text. *)
Definition render (f0 : list ascii) (items : list (Block * list ascii))
    : list ascii :=
  f0 ++ flat_map (fun it => render_block it.1 ++ it.2) items.

Definition well_formed_items (items : list (Block * list ascii)) : Prop :=
  Forall (fun it => well_formed it.1 = true /\ inert it.2 = true) items.

(** The requests expected of a list of blocks, numbered from [n]. *)
Fixpoint calls_from (n : nat) (bs : list Block) : list ToolCall :=
  match bs with
  | [] => []
  | b :: bs' =>
      mkToolCall ("call_" +:+ nat_to_string n) (text (block_name b))
                 (parse_arguments (block_body b))
      :: calls_from (S n) bs'
  end.

Definition block_captures (b : Block) : gmap nat (list ascii) :=
  <[2%nat := block_body b]> (<[1%nat := block_name b]> ∅).

(* ===================================================================== *)
(** * Scenarios                                                           *)
(* ===================================================================== *)

Definition block_text (tool : string) (args : string) : string :=
  "<tool_call>" +:+ nl +:+ "name: " +:+ tool +:+ nl
  +:+ "arguments:" +:+ nl +:+ args +:+ "</tool_call>".

(** The response of the end-to-end scenario, with the delimiters as the
    scenario writes them and with the delimiters of [tool_regex]. *)
Definition scenario_response_call : string :=
  "<call>" +:+ nl +:+ "name: list_directory" +:+ nl
  +:+ "arguments:" +:+ nl +:+ "  path: ." +:+ nl +:+ "</call>".

Definition scenario_response_tool_call : string :=
  block_text "list_directory" ("  path: ." +:+ nl).

(** Tools over a world that holds nothing. *)
Definition plain_schema (n : string) : ToolSchema := mkToolSchema n "" [].

Definition echo_tool : ToolImpl unit :=
  mkTool (plain_schema "echo")
    (fun w args =>
       (Returns (mkToolResult "set-by-tool" true
                   (default "" (args !! "text")) None), w))
    (fun _ => true).

Definition boom_tool : ToolImpl unit :=
  mkTool (plain_schema "boom")
    (fun w _ => (Throws (StdException "boom"), w))
    (fun _ => true).

Definition foreign_tool : ToolImpl unit :=
  mkTool (plain_schema "foreign")
    (fun w _ => (Throws OtherException, w))
    (fun _ => true).

Definition offline_tool : ToolImpl unit :=
  mkTool (plain_schema "offline")
    (fun w _ => (Returns (mkToolResult "" true "" None), w))
    (fun _ => false).

Definition sample_registry : gmap string (ToolImpl unit) :=
  foldl (fun r t => register_tool (Some t) r) ∅
        [echo_tool; boom_tool; foreign_tool; offline_tool].

Definition sample_call (n : string) : ToolCall :=
  mkToolCall "call_7" n {[ "text" := "hi" ]}.

(** An agent without any backend, and backends that answer by script. *)
Definition bare_config (max_iter : Z) : Config :=
  mkConfig "" "" max_iter 3 false true "sys".

Definition bare_agent (max_iter : Z) : Impl unit :=
  Agent_new (bare_config max_iter) None None [].

(** A backend that asks for an unregistered tool every time. *)
Definition stubborn_llm : LLMEngine unit :=
  mkLLM (fun _ => true) (fun w _ => (Returns (block_text "nope" ""), w)).

Definition stubborn_agent (max_iter : Z) : Impl unit :=
  Agent_new (bare_config max_iter) None (Some stubborn_llm) [].

(** A backend over a call counter: four calls of unregistered tools in the
    first response, a plain answer from then on. *)
Definition relenting_llm : LLMEngine nat :=
  mkLLM (fun _ => true)
    (fun w _ =>
       (Returns
          (match w with
           | O => block_text "a" "" +:+ block_text "b" ""
                  +:+ block_text "c" "" +:+ block_text "d" ""
           | S _ => "done"
           end), S w)).

Definition relenting_agent : Impl nat :=
  Agent_new (bare_config 50) None (Some relenting_llm) [].

(** A response in the documented layout: prose, a block, prose holding a
    stray "<" and a block without name field, a second block. *)
Definition sample_lead : list ascii := chars "Let me look. ".

Definition sample_items : list (Block * list ascii) :=
  [ (mkBlock (chars nl) (chars " ") (chars "read_file") (chars nl)
             (chars (nl +:+ "  ")) (chars ("path: a.txt" +:+ nl)),
     chars (nl +:+ "then, if 1 < 2:" +:+ nl
            +:+ "<tool_call>" +:+ nl +:+ "arguments:" +:+ nl
            +:+ "</tool_call>" +:+ nl));
    (mkBlock (chars nl) (chars " ") (chars "shell") (chars nl)
             (chars (nl +:+ "  ")) (chars ("command: ls" +:+ nl)),
     chars nl) ].

(** What follows an opening delimiter that is never closed. *)
Definition sample_tail : list ascii :=
  chars (nl +:+ "name: grep" +:+ nl +:+ "arguments:" +:+ nl +:+ "  pattern: x").

(** An unterminated block followed by a complete one. *)
Definition unterminated_then_block : string :=
  "<tool_call>" +:+ nl +:+ "name: a" +:+ nl +:+ "arguments:" +:+ nl
  +:+ "  x: 1" +:+ nl +:+ block_text "b" ("  y: 2" +:+ nl).

(* ===================================================================== *)
(** * vlm_engine.cpp: the chat format                                     *)
(* ===================================================================== *)

(** [VLMEngine::format_prompt] *)
Definition format_prompt_turn (msg : Message) : string :=
  match role msg with
  | System =>
      "<|im_start|>system" +:+ nl +:+ content msg +:+ "<|im_end|>" +:+ nl
  | User =>
      "<|im_start|>user" +:+ nl
      +:+ String.concat ""
            ((fun _ => "<|vision_start|><|image_pad|><|vision_end|>")
               <$> images msg)
      +:+ content msg +:+ "<|im_end|>" +:+ nl
  | Assistant =>
      "<|im_start|>assistant" +:+ nl +:+ content msg +:+ "<|im_end|>" +:+ nl
  | Tool =>
      "<|im_start|>tool" +:+ nl +:+ content msg +:+ "<|im_end|>" +:+ nl
  end.

Definition format_prompt (messages : list Message) : string :=
  String.concat "" (format_prompt_turn <$> messages)
  +:+ "<|im_start|>assistant" +:+ nl.

(** The prompt [LLMEngine::chat] hands to [generate]. *)
Definition chat_turn (msg : Message) : string :=
  match role msg with
  | System =>
      "<|im_start|>system" +:+ nl +:+ content msg +:+ "<|im_end|>" +:+ nl
  | User =>
      "<|im_start|>user" +:+ nl +:+ content msg +:+ "<|im_end|>" +:+ nl
  | Assistant =>
      "<|im_start|>assistant" +:+ nl +:+ content msg +:+ "<|im_end|>" +:+ nl
  | Tool =>
      "<|im_start|>tool" +:+ nl +:+ content msg +:+ "<|im_end|>" +:+ nl
  end.

Definition chat_prompt (messages : list Message) : string :=
  String.concat "" (chat_turn <$> messages)
  +:+ "<|im_start|>assistant" +:+ nl.

(* ===================================================================== *)
(** * shell_exec.cpp: ShellExecTool                                       *)
(* ===================================================================== *)

(** [std::stoi]: white space is skipped, a sign is accepted, at least one
    digit is needed ([std::invalid_argument] otherwise), and a value
    outside [int] raises [std::out_of_range].  Both derive from
    [std::exception]; their text is the name of the function. *)
Definition stoi (s : string) : Outcome Z :=
  match Ctx.number (chars s) with
  | Some (negative, v, _) =>
      let z := if negative then - v else v in
      if (- 2 ^ 31 <=? z) && (z <? 2 ^ 31) then Returns z
      else Throws (StdException "stoi")
  | None => Throws (StdException "stoi")
  end.

(** The settings of [class ShellExecTool]. *)
Record ShellExecTool : Type := mkShell {
  blocked_commands : list string;
  timeout_ms : Z;
  max_output_size : N;
  working_directory : string
}.

Definition ShellExecTool_default : ShellExecTool :=
  mkShell ["rm -rf /"; "format"; "mkfs"; "dd if="; ":(){"; "fork bomb";
           "> /dev/sda"]
          60000 (1024 * 1024) "".

(** [WEXITSTATUS]: bits 8 to 15 of the wait status. *)
Definition WEXITSTATUS (status : Z) : Z :=
  Z.shiftr (Z.land status 65280) 8.

(** The [fgets] loop of the Unix branch: [chunks] are the texts the
    successive calls deliver until the end of the stream, [total_read] is a
    [size_t].  The result is the output and the number of calls that
    delivered a text. *)
Fixpoint read_pipe (limit : N) (chunks : list string) (output : string)
    (total_read : N) (reads : nat) : string * nat :=
  match chunks with
  | [] => (output, reads)
  | buffer :: rest =>
      let output := output +:+ buffer in
      let total_read :=
        ((total_read + N.of_nat (String.length buffer)) mod 2 ^ 64)%N in
      if (limit <? total_read)%N then
        (output +:+ nl +:+ "... (output truncated)", S reads)
      else read_pipe limit rest output total_read (S reads)
  end.

Section Shell.
Context {World : Type}.

(** A pipe opened by [popen]: what [fgets] delivers, and the wait status
    and the world [pclose] leaves, given how many texts were read. *)
Record Pipe : Type := mkPipe {
  chunks : list string;
  pclose : nat -> Z * World
}.

(** [popen]: no pipe when the call fails. *)
Variable popen : World -> string -> option Pipe * World.

Definition shell_failure (message : string) : ToolResult :=
  mkToolResult "" false "" (Some message).

(** [ShellExecTool::execute], Unix branch. *)
Definition ShellExecTool_execute (t : ShellExecTool) (w : World)
    (args : gmap string string) : Outcome ToolResult * World :=
  match args !! "command" with
  | None => (Returns (shell_failure "command is required"), w)
  | Some command =>
      match List.find (fun blocked => contains (chars blocked) (chars command))
                      (blocked_commands t) with
      | Some blocked =>
          (Returns (shell_failure
                      ("Command blocked for security: " +:+ blocked)), w)
      | None =>
          match match args !! "timeout" with
                | Some s => stoi s
                | None => Returns (timeout_ms t)
                end with
          | Throws f => (Throws f, w)
          | Returns timeout =>
              let work_dir :=
                default (working_directory t) (args !! "working_dir") in
              let full_cmd :=
                if String.eqb work_dir "" then command
                else "cd '" +:+ work_dir +:+ "' && " +:+ command in
              let full_cmd := full_cmd +:+ " 2>&1" in
              match popen w full_cmd with
              | (None, w') =>
                  (Returns (shell_failure "Failed to execute command"), w')
              | (Some pipe, _) =>
                  let (output, reads) :=
                    read_pipe (max_output_size t) (chunks pipe) "" 0 0 in
                  let (status, w') := pclose pipe reads in
                  let exit_code := WEXITSTATUS status in
                  let success_flag := exit_code =? 0 in
                  (Returns
                     (mkToolResult "" success_flag output
                        (if success_flag then None
                         else Some ("Exit code: "
                                    +:+ int_to_string exit_code))), w')
              end
          end
      end
  end.

End Shell.

Arguments Pipe World : clear implicits.

(* ===================================================================== *)
(** * shell_exec.cpp: AskUserTool                                         *)
(* ===================================================================== *)

(** The characters removed from an option: [" \t"]. *)
Definition blank (c : ascii) : bool :=
  Ascii.eqb c " "%char || Ascii.eqb c "009"%char.

(** [s.erase(0, s.find_first_not_of(set))] and
    [s.erase(s.find_last_not_of(set) + 1)] for a set of characters. *)
Fixpoint erase_front (p : ascii -> bool) (l : list ascii) : list ascii :=
  match l with
  | c :: l' => if p c then erase_front p l' else l
  | [] => []
  end.

Fixpoint erase_back (p : ascii -> bool) (l : list ascii) : list ascii :=
  match l with
  | c :: l' =>
      match erase_back p l' with
      | [] => if p c then [] else [c]
      | t => c :: t
      end
  | [] => []
  end.

(** [while (std::getline(iss, option, delim))]: the fields read until an
    extraction finds the stream exhausted.  [cur] holds the characters of
    the field being read. *)
Fixpoint getline_all (delim : ascii) (l cur : list ascii)
    : list (list ascii) :=
  match l with
  | [] => match cur with [] => [] | _ => [cur] end
  | c :: l' =>
      if Ascii.eqb c delim then cur :: getline_all delim l' []
      else getline_all delim l' (cur ++ [c])
  end.

(** The options handed to the callback. *)
Definition parse_options (s : string) : list string :=
  text <$> filter (fun o => o <> [])
             ((fun o => erase_back blank (erase_front blank o))
                <$> getline_all ","%char (chars s) []).

Section AskUser.
Context {World : Type}.

(** [AskUserTool::execute]; the callback acts on the world and may throw. *)
Definition AskUserTool_execute
    (input_callback :
       option (World -> string -> list string -> Outcome string * World))
    (w : World) (args : gmap string string) : Outcome ToolResult * World :=
  match args !! "question" with
  | None =>
      (Returns (mkToolResult "" false "" (Some "question is required")), w)
  | Some question =>
      match input_callback with
      | None =>
          (Returns (mkToolResult "" false ""
                      (Some "No input callback configured")), w)
      | Some callback =>
          let options :=
            match args !! "options" with
            | Some s => parse_options s
            | None => []
            end in
          match callback w question options with
          | (Returns response, w') =>
              (Returns (mkToolResult "" true response None), w')
          | (Throws f, w') => (Throws f, w')
          end
      end
  end.

End AskUser.

(* ===================================================================== *)
(** * file_ops.cpp: EditFileTool                                          *)
(* ===================================================================== *)

(** [s.find(p)]: the first position at which [p] occurs. *)
Fixpoint find_at (p s : list ascii) : option nat :=
  if starts_with p s then Some 0%nat
  else match s with
       | [] => None
       | _ :: s' => S <$> find_at p s'
       end.

(** [s.find(p, pos)]: nothing is found from a position behind the end. *)
Definition find_from (p s : list ascii) (pos : nat) : option nat :=
  if (pos <=? length s)%nat then (fun k => (pos + k)%nat) <$> find_at p (drop pos s)
  else None.

(** [content.replace(pos, n, new_string)] *)
Definition replace_at (content : list ascii) (pos n : nat)
    (new_string : list ascii) : list ascii :=
  take pos content ++ new_string ++ drop (pos + n) content.

(** The loop of the replace_all branch.  [None]: out of fuel. *)
Fixpoint replace_loop (fuel : nat) (old_string new_string content : list ascii)
    (pos count : nat) : option (list ascii * nat) :=
  match find_from old_string content pos with
  | None => Some (content, count)
  | Some pos =>
      match fuel with
      | O => None
      | S fuel' =>
          replace_loop fuel' old_string new_string
            (replace_at content pos (length old_string) new_string)
            (pos + length new_string) (S count)
      end
  end.

Definition edit_failure (message : string) : ToolResult :=
  mkToolResult "" false "" (Some message).

(** [EditFileTool::execute] on the files of the host.  [None]: the loop
    of the replace_all branch ran out of fuel. *)
Definition EditFileTool_execute (fuel : nat) (fs : Ctx.FileSystem)
    (args : gmap string string) : option (Outcome ToolResult * Ctx.FileSystem) :=
  match args !! "file_path", args !! "old_string", args !! "new_string" with
  | Some file_path, Some old_string, Some new_string =>
      let replace_all :=
        match args !! "replace_all" with
        | Some v => String.eqb v "true"
        | None => false
        end in
      match Ctx.files fs !! file_path with
      | None => Some (Returns (edit_failure ("File not found: " +:+ file_path)), fs)
      | Some file =>
          if negb (Ctx.can_read fs file_path) then
            Some (Returns (edit_failure
                             ("Failed to open file: " +:+ file_path)), fs)
          else
            let content := chars file in
            let old_string := chars old_string in
            let new_string := chars new_string in
            match
              if replace_all then
                replace_loop fuel old_string new_string content 0 0
              else
                match find_at old_string content with
                | Some pos =>
                    Some (replace_at content pos (length old_string)
                                     new_string, 1%nat)
                | None => Some (content, 0%nat)
                end
            with
            | None => None
            | Some (content, count) =>
                if (count =? 0)%nat then
                  Some (Returns (edit_failure "old_string not found in file"),
                        fs)
                else if negb (Ctx.can_write fs file_path) then
                  Some (Returns (edit_failure
                                   ("Failed to write file: " +:+ file_path)),
                        fs)
                else
                  Some (Returns
                          (mkToolResult "" true
                             ("Replaced " +:+ nat_to_string count
                              +:+ " occurrence(s)") None),
                        Ctx.mkFS (<[file_path := text content]> (Ctx.files fs))
                                 (Ctx.can_write fs) (Ctx.can_read fs))
            end
      end
  | _, _, _ =>
      Some (Returns (edit_failure
                       "file_path, old_string, and new_string are required"),
            fs)
  end.

(* ===================================================================== *)
(** * file_ops.cpp: ReadFileTool                                          *)
(* ===================================================================== *)

Record ReadFileTool : Type := mkReadFile {
  max_file_size : N;
  allow_binary : bool
}.

Definition ReadFileTool_default : ReadFileTool :=
  mkReadFile (10 * 1024 * 1024) false.

(** [std::setw(6)] in front of a number: blanks up to the width, nothing
    cut off. *)
Definition setw (width : nat) (s : string) : string :=
  text (replicate (width - String.length s) " "%char) +:+ s.

Definition numbered (line_num : Z) (line : list ascii) : string :=
  setw 6 (int_to_string line_num) +:+ String "009"%char "" +:+ text line +:+ nl.

(** The reading loop over the lines [std::getline] delivers. *)
Fixpoint read_lines (lines : list (list ascii)) (offset limit : Z)
    (line_num lines_read : Z) : string :=
  match lines with
  | [] => ""
  | line :: rest =>
      if lines_read <? limit then
        let line_num := line_num + 1 in
        if line_num >=? offset then
          numbered line_num line
          +:+ read_lines rest offset limit line_num (lines_read + 1)
        else read_lines rest offset limit line_num lines_read
      else ""
  end.

Definition read_failure (message : string) : ToolResult :=
  mkToolResult "" false "" (Some message).

(** [ReadFileTool::execute]; the files are only read. *)
Definition ReadFileTool_execute (t : ReadFileTool) (fs : Ctx.FileSystem)
    (args : gmap string string) : Outcome ToolResult :=
  match args !! "file_path" with
  | None => Returns (read_failure "file_path is required")
  | Some file_path =>
      match Ctx.files fs !! file_path with
      | None => Returns (read_failure ("File not found: " +:+ file_path))
      | Some file =>
          if (max_file_size t <? N.of_nat (String.length file))%N then
            Returns (read_failure
                       ("File too large: "
                        +:+ nat_to_string (String.length file) +:+ " bytes"))
          else
            match match args !! "offset" with
                  | Some s => stoi s
                  | None => Returns 1
                  end with
            | Throws f => Throws f
            | Returns offset =>
                match match args !! "limit" with
                      | Some s => stoi s
                      | None => Returns 2000
                      end with
                | Throws f => Throws f
                | Returns limit =>
                    if negb (Ctx.can_read fs file_path) then
                      Returns (read_failure
                                 ("Failed to open file: " +:+ file_path))
                    else
                      Returns
                        (mkToolResult "" true
                           (read_lines
                              (getline_all "010"%char (chars file) [])
                              offset limit 0 0)
                           None)
                end
            end
      end
  end.

(* ===================================================================== *)
(** * string_utils.cpp                                                    *)
(* ===================================================================== *)

Module Utils.

(** [str.find_first_not_of(set)] and [str.find_last_not_of(set)]; [None]
    stands for [npos]. *)
Fixpoint find_first_not_of (p : ascii -> bool) (l : list ascii) : option nat :=
  match l with
  | [] => None
  | c :: l' => if p c then S <$> find_first_not_of p l' else Some 0%nat
  end.

Fixpoint find_last_not_of (p : ascii -> bool) (l : list ascii) : option nat :=
  match l with
  | [] => None
  | c :: l' =>
      match find_last_not_of p l' with
      | Some k => Some (S k)
      | None => if p c then None else Some 0%nat
      end
  end.

(** A position as a [size_t]: [npos] is the largest value. *)
Definition position (o : option nat) : Z :=
  match o with Some k => Z.of_nat k | None => 2 ^ 64 - 1 end.

(** [str.substr(pos, n)] for a position inside the text. *)
Definition substr (l : list ascii) (pos : nat) (n : Z) : list ascii :=
  take (Z.to_nat n) (drop pos l).

(** [trim] *)
Definition trim (str : string) : string :=
  match find_first_not_of trim_char (chars str) with
  | None => ""
  | Some start =>
      let end_pos := position (find_last_not_of trim_char (chars str)) in
      text (substr (chars str) start
                   ((end_pos - Z.of_nat start + 1) mod 2 ^ 64))
  end.

(** [truncate]; the lengths are [size_t], so the subtraction wraps. *)
Definition truncate (str : string) (max_length : Z) (ellipsis : string)
    : string :=
  if Z.of_nat (String.length str) <=? max_length then str
  else
    text (substr (chars str) 0
            ((max_length - Z.of_nat (String.length ellipsis)) mod 2 ^ 64))
    +:+ ellipsis.

End Utils.

(* ===================================================================== *)
(** * Further vocabulary                                                  *)
(* ===================================================================== *)

(** Every tool sits under its own name, as in a registry filled by
    [register_tool]. *)
Definition names_agree {World : Type} (reg : gmap string (ToolImpl World)) : Prop :=
  forall n t, reg !! n = Some t -> tool_name_of t = n.

(** The value of [consecutive_errors] after the outcomes [rs], starting
    from [errs]: a success resets it, a failure adds one. *)
Definition errors_after (errs : Z) (rs : list (ToolCall * ToolResult)) : Z :=
  foldl (fun e cr => if success cr.2 then 0 else e + 1) errs rs.

(** What the tool callback is told for the outcomes [rs]. *)
Definition told (rs : list (ToolCall * ToolResult)) : list Event :=
  (fun cr => ToolDispatched cr.1 cr.2) <$> rs.

(** The text added to the answer when the error cap is reached. *)
Definition cap_diagnostic (r : ToolResult) : string :=
  "Too many consecutive errors. Stopping." +:+ nl
  +:+ "Last error: " +:+ default "Unknown error" (error r).

(** The turns of a history that are not System turns. *)
Definition spoken (messages : list Message) : list Message :=
  filter (fun m => Ctx.is_system m = false) messages.

(** The system turn [build_prompt] writes in front. *)
Definition system_turn {World : Type} (i : Impl World) (w : World) : Message :=
  Message_system
    (system_prompt (config i) +:+ nl +:+ nl +:+ format_tools_prompt (tools i) w).

(** A line of the argument layout: indentation, key, colon, blanks, value,
    end of line. *)
Record ArgLine : Type := mkArgLine {
  arg_indent : list ascii;
  arg_key : list ascii;
  arg_pad : list ascii;
  arg_value : list ascii
}.

Definition render_arg (a : ArgLine) : list ascii :=
  arg_indent a ++ arg_key a ++ ":"%char :: arg_pad a ++ arg_value a
  ++ [newline].

Definition non_word (l : list ascii) : bool :=
  forallb (fun c => negb (cls_word c)) l.

(** The indentation holds no word character, the key is a non-empty word,
    the blanks are white space, and the value is non-empty, stays on its
    line and does not start with white space. *)
Definition well_formed_arg (a : ArgLine) : bool :=
  non_word (arg_indent a)
  && forallb cls_word (arg_key a)
  && negb (bool_decide (arg_key a = []))
  && forallb cls_space (arg_pad a)
  && forallb cls_dot (arg_value a)
  && match arg_value a with
     | c :: _ => negb (cls_space c)
     | [] => false
     end.

Definition arg_captures (a : ArgLine) : gmap nat (list ascii) :=
  <[2%nat := arg_value a]> (<[1%nat := arg_key a]> ∅).

(** The map a sequence of lines stands for: later lines win. *)
Definition arguments_of (ls : list ArgLine) : gmap string string :=
  fold_left
    (fun (args : gmap string string) (a : ArgLine) =>
       <[text (arg_key a) := text (trim_value (arg_value a))]> args)
    ls ∅.

(** The text handed to [popen] for a command. *)
Definition command_line (t : ShellExecTool) (args : gmap string string)
    (command : string) : string :=
  let work_dir := default (working_directory t) (args !! "working_dir") in
  (if String.eqb work_dir "" then command
   else "cd '" +:+ work_dir +:+ "' && " +:+ command) +:+ " 2>&1".

Definition allowed (t : ShellExecTool) (command : string) : Prop :=
  Forall (fun blocked => contains (chars blocked) (chars command) = false)
         (blocked_commands t).

(** The note the reading loop appends when it stops early. *)
Definition truncation_note : string := nl +:+ "... (output truncated)".

(** An option as the callback sees it: not empty, without a comma, and
    without a blank or tab at either end. *)
Definition clean_option (o : list ascii) : Prop :=
  o <> []
  /\ (","%char ∉ o)
  /\ (forall c, head o = Some c -> blank c = false)
  /\ (forall c, last o = Some c -> blank c = false).

(** Options written one after the other, separated by a comma and a blank. *)
Fixpoint join_options (opts : list (list ascii)) : list ascii :=
  match opts with
  | [] => []
  | [o] => o
  | o :: rest => o ++ ","%char :: " "%char :: join_options rest
  end.

(** [p] does not occur in [s] at a position before [n]. *)
Definition absent_before (p s : list ascii) (n : nat) : Prop :=
  forall k, (k < n)%nat -> starts_with p (drop k s) = false.

(** The lines [first], [first + 1], ... of a listing. *)
Definition listing (first : Z) (lines : list (list ascii)) : string :=
  String.concat "" (imap (fun k line => numbered (first + Z.of_nat k) line) lines).

(* ===================================================================== *)
(** * Further scenarios                                                   *)
(* ===================================================================== *)

(** An agent with the sample tools, and two batches of calls. *)
Definition batch_agent : Impl unit := with_tools (bare_agent 5) sample_registry.

Definition mixed_batch : list ToolCall :=
  [sample_call "echo"; sample_call "ghost"].


(** A history with a System turn in the middle. *)
Definition sample_history : list Message :=
  [Message_user "hi" []; Message_system "be brief"; Message_assistant "yes"].

(** Two argument lines, the second with blanks behind the value. *)
Definition sample_lines : list ArgLine :=
  [ mkArgLine (chars "  ") (chars "path") (chars " ") (chars "a.txt");
    mkArgLine (chars "  ") (chars "mode") (chars " ") (chars "r  ") ].

(** A host on which popen fails, and one on which the command is ended by
    signal 9 after one line of output. *)
Definition failing_popen : unit -> string -> option (Pipe unit) * unit :=
  fun w _ => (None, w).

Definition killed_popen : unit -> string -> option (Pipe unit) * unit :=
  fun w _ => (Some (mkPipe ["partial" +:+ nl] (fun _ => (9, w))), w).

(** A callback that answers with the options it was given. *)
Definition echo_callback
    : unit -> string -> list string -> Outcome string * unit :=
  fun w _ options => (Returns (String.concat "|" options), w).

(** A host with one file that can be read and written. *)
Definition one_file (file : string) : Ctx.FileSystem :=
  Ctx.mkFS {[ "f.txt" := file ]} (fun _ => true) (fun _ => true).

Definition edit_args (old_string new_string : string) : gmap string string :=
  {[ "file_path" := "f.txt"; "old_string" := old_string;
     "new_string" := new_string ]}.

(* ===================================================================== *)
(** * The matcher on the stack of the host                                *)
(* ===================================================================== *)

(** The executor behind [std::regex_search] explores the pattern depth
    first by nested calls: every character a path consumes opens one more
    level, and the levels of a path stay open until the attempt is decided.
    [depth] is the number of levels the stack of the host still holds.  An
    attempt that needs more overflows the stack, which ends the process. *)
Module RegexOn.

Inductive Try (R : Type) : Type :=
| Overflow
| NoMatch
| Found (r : R).
Arguments Overflow {R}.
Arguments NoMatch {R}.
Arguments Found {R} r.

Section Run.
Context {R : Type}.

(** One level deeper, if the stack has one. *)
Definition deeper (depth : N) (k : N -> Try R) : Try R :=
  if (depth =? 0)%N then Overflow else k (depth - 1)%N.

Fixpoint star_greedy_on (p : ascii -> bool) (s : list ascii) (depth : N)
    (k : list ascii -> N -> Try R) : Try R :=
  match s with
  | c :: s' =>
      if p c then
        match deeper depth (fun d => star_greedy_on p s' d k) with
        | NoMatch => k s depth
        | t => t
        end
      else k s depth
  | [] => k s depth
  end.

Fixpoint star_lazy_on (p : ascii -> bool) (s : list ascii) (depth : N)
    (k : list ascii -> N -> Try R) : Try R :=
  match k s depth with
  | NoMatch =>
      match s with
      | c :: s' =>
          if p c then deeper depth (fun d => star_lazy_on p s' d k)
          else NoMatch
      | [] => NoMatch
      end
  | t => t
  end.

(** [Regex.run] with the depth left on the stack. *)
Fixpoint run_on (r : regex) (s : list ascii) (depth : N) (caps : captures)
    (k : list ascii -> N -> captures -> Try R) : Try R :=
  match r with
  | Eps => k s depth caps
  | Chr c =>
      match s with
      | x :: s' =>
          if Ascii.eqb x c then deeper depth (fun d => k s' d caps)
          else NoMatch
      | [] => NoMatch
      end
  | Cls p =>
      match s with
      | x :: s' =>
          if p x then deeper depth (fun d => k s' d caps) else NoMatch
      | [] => NoMatch
      end
  | Star p greedy =>
      (if greedy then star_greedy_on else star_lazy_on) p s depth
        (fun s' d => k s' d caps)
  | Grp n r' =>
      run_on r' s depth caps
        (fun s' d caps' =>
           k s' d (<[n := take (length s - length s') s]> caps'))
  | Cat r1 r2 =>
      run_on r1 s depth caps (fun s' d caps' => run_on r2 s' d caps' k)
  end.
End Run.

(** One attempt of [regex_search] at the current position, on a stack that
    holds [depth] levels. *)
Definition match_at_on (r : regex) (s : list ascii) (depth : N)
    : Try (nat * captures) :=
  run_on r s depth ∅
    (fun s' _ caps => Found ((length s - length s')%nat, caps)).

(** [std::sregex_iterator]; every attempt starts on the same stack.
    [None]: an attempt overflowed. *)
Fixpoint iterate_on (r : regex) (s : list ascii) (skip : nat) (depth : N)
    : option (list captures) :=
  match s with
  | [] => Some []
  | _ :: s' =>
      match skip with
      | S n => iterate_on r s' n depth
      | O =>
          match match_at_on r s depth with
          | Overflow => None
          | Found (len, caps) =>
              match iterate_on r s' (pred len) depth with
              | Some ms => Some (caps :: ms)
              | None => None
              end
          | NoMatch => iterate_on r s' 0 depth
          end
      end
  end.

End RegexOn.

Import RegexOn.

(** [Agent::parse_tool_calls] on a host whose stack holds [depth] levels of
    the matcher.  [None]: the stack overflowed in one of the searches and
    nothing is returned. *)
Definition parse_arguments_on (depth : N) (args_str : list ascii)
    : option (gmap string string) :=
  match iterate_on arg_regex args_str 0 depth with
  | Some ms =>
      Some (fold_left
              (fun (args : gmap string string) (m : captures) =>
                 <[text (sub m 1) := text (trim_value (sub m 2))]> args)
              ms ∅)
  | None => None
  end.

Definition make_call_on (depth : N) (call_id : nat) (m : captures)
    : option ToolCall :=
  match parse_arguments_on depth (sub m 2) with
  | Some args =>
      Some {| id := "call_" +:+ nat_to_string call_id;
              name := text (sub m 1);
              arguments := args |}
  | None => None
  end.

Fixpoint collect_calls_on (depth : N) (call_id : nat) (ms : list captures)
    : option (list ToolCall) :=
  match ms with
  | [] => Some []
  | m :: ms' =>
      match make_call_on depth call_id m with
      | Some call =>
          match collect_calls_on depth (S call_id) ms' with
          | Some calls => Some (call :: calls)
          | None => None
          end
      | None => None
      end
  end.

Definition parse_tool_calls_on (depth : N) (response : string)
    : option (list ToolCall) :=
  match iterate_on tool_regex (chars response) 0 depth with
  | Some ms => collect_calls_on depth 0 ms
  | None => None
  end.

(** A result of the matcher as a bounded attempt that did not overflow. *)
Definition settled {R : Type} (o : option R) : Try R :=
  match o with Some r => Found r | None => NoMatch end.

(** All sub-matches are at most [limit] characters long. *)
Definition caps_within (limit : nat) (caps : captures) : Prop :=
  forall n v, caps !! n = Some v -> (length v <= limit)%nat.

(** A block in the documented layout whose body is [n] characters long. *)
Definition long_block (n : N) : Block :=
  mkBlock (chars nl) (chars " ") (chars "a") (chars nl) (chars nl)
          (replicate (N.to_nat n) "x"%char).

(* ===================================================================== *)
(** * context.cpp: load and the memory of the host                        *)
(* ===================================================================== *)

(** What the host can allocate: [std::string content(content_len, '\0')]
    succeeds for the lengths [can_allocate] accepts and throws for the
    others, [std::length_error] beyond [max_size()] and [std::bad_alloc]
    when memory is short.  Both derive from [std::exception];
    [alloc_what] is the text of the one thrown. *)
Record Memory : Type := mkMemory {
  can_allocate : nat -> bool;
  alloc_what : nat -> string
}.

(** The [while] of [Context::load] on such a host.  The result holds what
    [messages_] holds when the loop is left: all the records, or the ones
    read before the exception. *)
Fixpoint load_loop_in (mem : Memory) (fuel : nat) (l : list ascii)
    (acc : list Message) : option (Outcome unit * list Message) :=
  match fuel with
  | O => Some (Returns tt, acc)
  | S fuel' =>
      match Ctx.extract_int l with
      | None => Some (Returns tt, acc)
      | Some (role_int, l) =>
          match Ctx.extract_size l with
          | None => Some (Returns tt, acc)
          | Some (content_len, l) =>
              let n := Z.to_nat content_len in
              let l := Ctx.ignore l in
              if can_allocate mem n then
                let content := Ctx.read n l in
                let l := Ctx.ignore (drop n l) in
                match Ctx.role_of_int role_int with
                | Some r =>
                    load_loop_in mem fuel' l
                      (acc ++ [mkMessage r (text content) None None []])
                | None => None
                end
              else Some (Throws (StdException (alloc_what mem n)), acc)
          end
      end
  end.

Definition load_text_in (mem : Memory) (file : string)
    : option (Outcome unit * list Message) :=
  load_loop_in mem (String.length file) (chars file) [].

(** [Context::load] on such a host: [messages_] is cleared before the
    loop, so an exception leaves the context with the records read so far. *)
Definition load_in (mem : Memory) (c : Ctx.Context) (path : string)
    (fs : Ctx.FileSystem) : option (Outcome bool * Ctx.Context) :=
  match Ctx.files fs !! path with
  | None => Some (Returns false, c)
  | Some file =>
      if Ctx.can_read fs path then
        match load_text_in mem file with
        | Some (Returns _, msgs) =>
            Some (Returns true, Ctx.mkContext msgs (Ctx.max_tokens_ c))
        | Some (Throws f, msgs) =>
            Some (Throws f, Ctx.mkContext msgs (Ctx.max_tokens_ c))
        | None => None
        end
      else Some (Returns false, c)
  end.




(* ===================================================================== *)
(** * Part II: properties                                                 *)
(* ===================================================================== *)

(** ** ToolRegistry::execute *)

Section RegistryFacts.
Context {World : Type}.
Implicit Types (reg : gmap string (ToolImpl World)) (call : ToolCall)
  (w : World).

Lemma registry_execute_call_id reg call w r w' :
  registry_execute reg call w = (Returns r, w') -> call_id r = id call.
Proof.
  unfold registry_execute, get_tool.
  destruct (reg !! name call) as [tool|]; [|by intros [= <- _]].
  destruct (is_available tool w); simpl; [|by intros [= <- _]].
  destruct (execute tool w (arguments call)) as [[r0|[what|]] w0];
    by intros [= <- _].
Qed.

Lemma registry_execute_throws reg call w f w' :
  registry_execute reg call w = (Throws f, w') ->
  f = OtherException /\
  exists tool, reg !! name call = Some tool /\ is_available tool w = true /\
               execute tool w (arguments call) = (Throws OtherException, w').
Proof.
  unfold registry_execute, get_tool.
  destruct (reg !! name call) as [tool|]; [|done].
  destruct (is_available tool w) eqn:Hav; simpl; [|done].
  destruct (execute tool w (arguments call)) as [[r0|[what|]] w0] eqn:Hex;
    try done.
  intros [= <- <-]. split; [done|]. by exists tool.
Qed.

End RegistryFacts.

(** C3 (as amended).  Dispatch looks the tool up by name.  An unregistered
    name gives the failure "Unknown tool: <name>", an unavailable tool gives
    "Tool not available: <name>", both with the request's id and without
    touching the world.  A result returned by the tool is handed on with its
    call_id replaced by the request's id.  A fault derived from
    std::exception becomes a failure whose message is "Tool execution
    failed: " followed by the fault's text.  Every result that dispatch
    returns carries the request's id, and the only fault that dispatch lets
    through is one that is not derived from std::exception. *)
Theorem registry_execute_outcomes :
  forall (World : Type) (tools_ : gmap string (ToolImpl World))
         (call : ToolCall) (w : World),
    (tools_ !! name call = None ->
     registry_execute tools_ call w =
       (Returns (mkToolResult (id call) false ""
                   (Some ("Unknown tool: " +:+ name call))), w))
    /\ (forall tool, tools_ !! name call = Some tool ->
          is_available tool w = false ->
          registry_execute tools_ call w =
            (Returns (mkToolResult (id call) false ""
                        (Some ("Tool not available: " +:+ name call))), w))
    /\ (forall tool r w', tools_ !! name call = Some tool ->
          is_available tool w = true ->
          execute tool w (arguments call) = (Returns r, w') ->
          registry_execute tools_ call w =
            (Returns (mkToolResult (id call) (success r) (output r) (error r)),
             w'))
    /\ (forall tool what w', tools_ !! name call = Some tool ->
          is_available tool w = true ->
          execute tool w (arguments call) = (Throws (StdException what), w') ->
          registry_execute tools_ call w =
            (Returns (mkToolResult (id call) false ""
                        (Some ("Tool execution failed: " +:+ what))), w'))
    /\ (forall r w', registry_execute tools_ call w = (Returns r, w') ->
          call_id r = id call)
    /\ (forall f w', registry_execute tools_ call w = (Throws f, w') ->
          f = OtherException).
Proof.
  intros World tools_ call w. repeat split.
  - intros H. unfold registry_execute, get_tool. by rewrite H.
  - intros tool H Hav. unfold registry_execute, get_tool. by rewrite H, Hav.
  - intros tool r w' H Hav Hex. unfold registry_execute, get_tool.
    by rewrite H, Hav, Hex.
  - intros tool what w' H Hav Hex. unfold registry_execute, get_tool.
    by rewrite H, Hav, Hex.
  - intros r w'. apply registry_execute_call_id.
  - intros f w' H. by apply registry_execute_throws in H as [-> _].
Qed.

Lemma registry_execute_outcomes_witness :
  registry_execute sample_registry (sample_call "ghost") tt =
    (Returns (mkToolResult "call_7" false "" (Some "Unknown tool: ghost")), tt)
  /\ registry_execute sample_registry (sample_call "offline") tt =
    (Returns (mkToolResult "call_7" false ""
                (Some "Tool not available: offline")), tt)
  /\ registry_execute sample_registry (sample_call "echo") tt =
    (Returns (mkToolResult "call_7" true "hi" None), tt)
  /\ registry_execute sample_registry (sample_call "boom") tt =
    (Returns (mkToolResult "call_7" false ""
                (Some "Tool execution failed: boom")), tt)
  /\ call_id (mkToolResult "call_7" true "hi" None) = "call_7"
  /\ OtherException = OtherException.
Proof.
  destruct (registry_execute_outcomes unit sample_registry
              (sample_call "ghost") tt) as (H1 & _).
  destruct (registry_execute_outcomes unit sample_registry
              (sample_call "offline") tt) as (_ & H2 & _).
  destruct (registry_execute_outcomes unit sample_registry
              (sample_call "echo") tt) as (_ & _ & H3 & _ & H5 & _).
  destruct (registry_execute_outcomes unit sample_registry
              (sample_call "boom") tt) as (_ & _ & _ & H4 & _).
  destruct (registry_execute_outcomes unit sample_registry
              (sample_call "foreign") tt) as (_ & _ & _ & _ & _ & H6).
  split; [exact (H1 eq_refl)|].
  split; [exact (H2 offline_tool eq_refl eq_refl)|].
  split; [exact (H3 echo_tool _ tt eq_refl eq_refl eq_refl)|].
  split; [exact (H4 boom_tool "boom" tt eq_refl eq_refl eq_refl)|].
  split; [exact (H5 _ tt (H3 echo_tool _ tt eq_refl eq_refl eq_refl))|].
  exact (H6 OtherException tt eq_refl).
Defined.

(** C3 fails as stated on two inputs: the error of a faulting tool is not
    the fault's text alone, and a fault that is not a std::exception leaves
    dispatch unhandled. *)
Lemma registry_execute_counterexample :
  (exists r, registry_execute sample_registry (sample_call "boom") tt
             = (Returns r, tt)
             /\ error r = Some "Tool execution failed: boom"
             /\ error r <> Some "boom")
  /\ registry_execute sample_registry (sample_call "foreign") tt
     = (Throws OtherException, tt).
Proof.
  split; [|reflexivity].
  eexists. split; [reflexivity|]. split; [reflexivity|discriminate].
Qed.

(** ** parse_tool_calls on the scenario response *)

(** C2 (as amended).  With the delimiters the parser looks for,
    <tool_call> and </tool_call>, the scenario response yields exactly one
    request: id call_0, name list_directory, the single argument path=".". *)
Theorem parse_scenario_tool_call :
  parse_tool_calls scenario_response_tool_call =
    [ mkToolCall "call_0" "list_directory" {[ "path" := "." ]} ].
Proof. vm_compute. reflexivity. Qed.

(** C2 fails as stated: between <call> and </call> nothing is recognised. *)
Lemma parse_scenario_call_counterexample :
  parse_tool_calls scenario_response_call = []
  /\ length (parse_tool_calls scenario_response_call) <> 1%nat.
Proof. split; [vm_compute; reflexivity | vm_compute; discriminate]. Qed.

(** ** Context::trim_if_needed *)

Module CtxFacts.
Import Ctx.

Lemma erase_oldest_evict msgs : erase_oldest msgs = evict msgs.
Proof.
  unfold evict, oldest_unpinned.
  destruct msgs as [|m [|m2 rest]]; simpl; [done| |];
    by destruct (is_system m).
Qed.

Lemma evict_length msgs :
  (2 < length msgs)%nat -> length (evict msgs) = pred (length msgs).
Proof.
  unfold evict, oldest_unpinned.
  destruct msgs as [|m [|m2 rest]]; simpl; try lia.
  by destruct (is_system m).
Qed.

Lemma evict_head msgs m :
  head msgs = Some m -> is_system m = true -> head (evict msgs) = Some m.
Proof.
  unfold evict, oldest_unpinned.
  destruct msgs as [|m' rest]; [done|]. simpl. intros [= ->] ->.
  by destruct rest.
Qed.

Lemma evict_sublist msgs : evict msgs `sublist_of` msgs.
Proof. apply sublist_delete. Qed.

Lemma iter_evict_head k msgs m :
  head msgs = Some m -> is_system m = true ->
  head (Nat.iter k evict msgs) = Some m.
Proof.
  intros Hh Hs. induction k as [|k IH]; [done|].
  simpl. by apply evict_head.
Qed.

Lemma iter_evict_sublist k msgs : Nat.iter k evict msgs `sublist_of` msgs.
Proof.
  induction k as [|k IH]; [done|].
  simpl. etrans; [apply evict_sublist | exact IH].
Qed.

Lemma over_budget_test max msgs :
  (max <? estimate msgs)%N && (2 <? length msgs)%nat = true
  <-> over_budget max msgs.
Proof.
  unfold over_budget.
  rewrite andb_true_iff, N.ltb_lt, Nat.ltb_lt. tauto.
Qed.

(** The loop stops by its own test before the fuel is used up, and what it
    has done by then is a run of evictions, each on an over-budget list. *)
Lemma trim_loop_evictions fuel max msgs :
  (length msgs <= fuel + 2)%nat ->
  exists k : nat,
    trim_loop fuel max msgs = Nat.iter k evict msgs
    /\ (forall j, (j < k)%nat -> over_budget max (Nat.iter j evict msgs))
    /\ ~ over_budget max (trim_loop fuel max msgs).
Proof.
  revert msgs. induction fuel as [|fuel IH]; intros msgs Hlen; simpl.
  - destruct ((max <? estimate msgs)%N && (2 <? length msgs)%nat) eqn:Hc.
    + apply over_budget_test in Hc as [_ ?]. lia.
    + exists 0%nat. split; [done|]. split; [lia|].
      rewrite <- over_budget_test. by rewrite Hc.
  - destruct ((max <? estimate msgs)%N && (2 <? length msgs)%nat) eqn:Hc.
    + pose proof (proj1 (over_budget_test _ _) Hc) as Hob.
      rewrite erase_oldest_evict.
      destruct (IH (evict msgs)) as (k & Heq & Hpre & Hpost).
      { rewrite evict_length by apply Hob. lia. }
      exists (S k). rewrite Nat.iter_succ_r. split; [done|]. split; [|done].
      intros [|j] Hj; [done|]. rewrite Nat.iter_succ_r. apply Hpre. lia.
    + exists 0%nat. split; [done|]. split; [lia|].
      rewrite <- over_budget_test. by rewrite Hc.
Qed.

End CtxFacts.

(** C6.  Appending a turn puts it at the end and then evicts: as long as the
    estimate exceeds the budget and more than two turns remain, the turn
    erased is the oldest one that is not the System turn at the front
    (index 1 when the front turn is a System turn, index 0 otherwise).  The
    loop ends only when the test fails; a System turn standing at the front,
    at the start or after some evictions, stays at the front to the end;
    what remains is a sub-sequence of the turns before, in their order. *)
Theorem add_message_evicts_oldest_unpinned :
  forall (c : Ctx.Context) (msg : Message),
    let before := Ctx.messages_ c ++ [msg] in
    let after := Ctx.messages_ (Ctx.add_message c msg) in
    (exists k : nat,
        after = Nat.iter k evict before
        /\ (forall j, (j < k)%nat ->
              over_budget (Ctx.max_tokens_ c) (Nat.iter j evict before))
        /\ (forall j m, (j <= k)%nat ->
              head (Nat.iter j evict before) = Some m ->
              Ctx.is_system m = true -> head after = Some m))
    /\ ~ over_budget (Ctx.max_tokens_ c) after
    /\ after `sublist_of` before
    /\ Ctx.max_tokens_ (Ctx.add_message c msg) = Ctx.max_tokens_ c.
Proof.
  intros c msg before after.
  destruct (CtxFacts.trim_loop_evictions (length before) (Ctx.max_tokens_ c)
              before) as (k & Heq & Hpre & Hpost); [lia|].
  assert (Hafter : after = Nat.iter k evict before) by exact Heq.
  split; [|split; [exact Hpost|split; [|done]]].
  - exists k. split; [done|]. split; [done|].
    intros j m Hj Hh Hs. rewrite Hafter.
    replace k with ((k - j) + j)%nat by lia. rewrite Nat.iter_add.
    by apply CtxFacts.iter_evict_head.
  - rewrite Hafter. apply CtxFacts.iter_evict_sublist.
Qed.

Lemma add_message_evicts_oldest_unpinned_witness :
  Ctx.messages_
    (Ctx.add_message
       (Ctx.mkContext [Message_system "s"; Message_user "12345678" [];
                       Message_assistant "abcd"] 2)
       (Message_user "wxyz" []))
  = [Message_system "s"; Message_assistant "abcd"; Message_user "wxyz" []]
  /\ head
       (Ctx.messages_
          (Ctx.add_message
             (Ctx.mkContext [Message_system "s"; Message_user "12345678" [];
                             Message_assistant "abcd"] 2)
             (Message_user "wxyz" [])))
     = Some (Message_system "s").
Proof.
  split; [reflexivity|].
  destruct (add_message_evicts_oldest_unpinned
              (Ctx.mkContext [Message_system "s"; Message_user "12345678" [];
                              Message_assistant "abcd"] 2)
              (Message_user "wxyz" [])) as ((k & _ & _ & H) & _).
  exact (H 0%nat (Message_system "s") (Nat.le_0_l k) eq_refl eq_refl).
Defined.

(** ** Strings as character lists *)

Lemma chars_app (a b : string) : chars (a +:+ b) = chars a ++ chars b.
Proof. induction a as [|c a IH]; simpl; [done|]. by rewrite <- IH. Qed.

Lemma chars_length (s : string) : length (chars s) = String.length s.
Proof. induction s as [|c s IH]; simpl; [done|]. by rewrite IH. Qed.

Lemma text_chars (s : string) : text (chars s) = s.
Proof. apply string_of_list_ascii_of_string. Qed.

Lemma chars_text (l : list ascii) : chars (text l) = l.
Proof. apply list_ascii_of_string_of_list_ascii. Qed.

Lemma append_empty_r (s : string) : s +:+ "" = s.
Proof.
  induction s as [|c s IH]; [done|].
  change (String c (s +:+ "") = String c s). by rewrite IH.
Qed.

Lemma concat_cons (x : string) (xs : list string) :
  String.concat "" (x :: xs) = x +:+ String.concat "" xs.
Proof. destruct xs; simpl; [by rewrite append_empty_r | done]. Qed.

(** ** Context::save and Context::load *)

Module PersistFacts.
Import Ctx.

Lemma digits_step (c : ascii) (k : Z) (l : list ascii) (acc : Z) :
  digit c = Some k -> digits (c :: l) acc = digits l (acc * 10 + k).
Proof. intros H. simpl. by rewrite H. Qed.

Lemma digits_of_uint (d : Decimal.uint) (rest : list ascii) (a : nat) :
  stops_digits rest ->
  digits (chars (NilEmpty.string_of_uint d) ++ rest) (Z.of_nat a)
  = (Z.of_nat (Nat.of_uint_acc d a), rest).
Proof.
  intros Hrest. revert a.
  assert (Hstep : forall (k : nat) (c : ascii) (e : Decimal.uint) (a : nat),
             digit c = Some (Z.of_nat k) ->
             (forall a', digits (chars (NilEmpty.string_of_uint e) ++ rest)
                           (Z.of_nat a')
                         = (Z.of_nat (Nat.of_uint_acc e a'), rest)) ->
             digits (c :: chars (NilEmpty.string_of_uint e) ++ rest)
                    (Z.of_nat a)
             = (Z.of_nat (Nat.of_uint_acc e (k + Nat.tail_mul 10 a)), rest)).
  { intros k c e a Hc IH. rewrite (digits_step _ _ _ _ Hc), <- IH.
    f_equal. rewrite Nat.tail_mul_spec. lia. }
  induction d as [|d IH|d IH|d IH|d IH|d IH|d IH|d IH|d IH|d IH|d IH];
    intros a.
  - simpl. destruct rest as [|c rest]; [done|]. simpl in *. by rewrite Hrest.
  - exact (Hstep 0%nat "0"%char d a eq_refl IH).
  - exact (Hstep 1%nat "1"%char d a eq_refl IH).
  - exact (Hstep 2%nat "2"%char d a eq_refl IH).
  - exact (Hstep 3%nat "3"%char d a eq_refl IH).
  - exact (Hstep 4%nat "4"%char d a eq_refl IH).
  - exact (Hstep 5%nat "5"%char d a eq_refl IH).
  - exact (Hstep 6%nat "6"%char d a eq_refl IH).
  - exact (Hstep 7%nat "7"%char d a eq_refl IH).
  - exact (Hstep 8%nat "8"%char d a eq_refl IH).
  - exact (Hstep 9%nat "9"%char d a eq_refl IH).
Qed.

Lemma to_uint_not_nil (n : nat) : Nat.to_uint n <> Decimal.Nil.
Proof.
  intros H. pose proof (DecimalNat.Unsigned.to_of (Nat.to_uint n)) as Hto.
  rewrite DecimalNat.Unsigned.of_to, H in Hto. discriminate.
Qed.

Lemma number_space (c : ascii) (l : list ascii) :
  Ascii.is_space c = true -> number (c :: l) = number l.
Proof. intros H. unfold number. simpl. by rewrite H. Qed.

Lemma number_digits (l : list ascii) :
  (exists c l', l = c :: l' /\ is_Some (digit c)) ->
  number l = (let (v, rest) := digits l 0 in Some (false, v, rest)).
Proof.
  intros (c & l' & -> & [k Hk]).
  destruct c as [[] [] [] [] [] [] [] []]; try discriminate Hk; reflexivity.
Qed.

(** Reading back a printed natural number. *)
Lemma number_nat (n : nat) (rest : list ascii) :
  stops_digits rest ->
  number (chars (nat_to_string n) ++ rest) = Some (false, Z.of_nat n, rest).
Proof.
  intros Hrest. unfold nat_to_string.
  pose proof (digits_of_uint (Nat.to_uint n) rest 0 Hrest) as Hd.
  change (Nat.of_uint_acc (Nat.to_uint n) 0) with (Nat.of_uint (Nat.to_uint n))
    in Hd.
  rewrite DecimalNat.Unsigned.of_to in Hd. change (Z.of_nat 0) with 0 in Hd.
  rewrite number_digits; [by rewrite Hd|].
  pose proof (to_uint_not_nil n) as Hnil.
  destruct (Nat.to_uint n) as [|d|d|d|d|d|d|d|d|d|d]; [done|..];
    (eexists _, _; split; [reflexivity | by eexists]).
Qed.

Lemma extract_int_nat (n : nat) (rest : list ascii) :
  stops_digits rest -> Z.of_nat n < 2 ^ 31 ->
  extract_int (chars (nat_to_string n) ++ rest) = Some (Z.of_nat n, rest).
Proof.
  intros Hrest Hn. unfold extract_int. rewrite number_nat by done.
  assert ((- 2 ^ 31 <=? Z.of_nat n) && (Z.of_nat n <? 2 ^ 31) = true) as ->;
    [|done].
  apply andb_true_iff. split; [apply Z.leb_le | apply Z.ltb_lt]; lia.
Qed.

Lemma extract_size_nat (n : nat) (rest : list ascii) :
  stops_digits rest -> Z.of_nat n < 2 ^ 64 ->
  extract_size (chars (nat_to_string n) ++ rest) = Some (Z.of_nat n, rest).
Proof.
  intros Hrest Hn. unfold extract_size. rewrite number_nat by done.
  by rewrite (proj2 (Z.ltb_lt _ _) Hn).
Qed.

Lemma read_exact (l rest : list ascii) : read (length l) (l ++ rest) = l.
Proof.
  unfold read. rewrite take_app_length, length_app.
  replace (length l - (length l + length rest))%nat with 0%nat by lia.
  apply app_nil_r.
Qed.

Lemma save_record_chars (m : Message) (rest : list ascii) :
  chars (save_record m) ++ rest
  = chars (nat_to_string (Z.to_nat (role_to_int (role m))))
    ++ newline :: chars (nat_to_string (String.length (content m)))
    ++ newline :: chars (content m) ++ newline :: rest.
Proof.
  unfold save_record. rewrite !chars_app, <- !app_assoc.
  change (chars nl) with [newline]. simpl.
  by destruct (role m).
Qed.

(** One turn of the loop of [load] consumes exactly one saved record. *)
Lemma load_loop_record (fuel : nat) (m : Message) (rest : list ascii)
    (acc : list Message) :
  Z.of_nat (String.length (content m)) < 2 ^ 64 ->
  load_loop (S fuel) (chars (save_record m) ++ rest) acc
  = load_loop fuel rest (acc ++ [persisted m]).
Proof.
  intros Hlen. rewrite save_record_chars.
  cbn [load_loop].
  rewrite extract_int_nat; [|done|by destruct (role m)].
  unfold extract_size at 1. rewrite number_space by done.
  fold (extract_size
          (chars (nat_to_string (String.length (content m)))
           ++ newline :: chars (content m) ++ newline :: rest)).
  rewrite extract_size_nat by done.
  rewrite Nat2Z.id.
  change (ignore (newline :: ?l)) with l.
  rewrite <- (chars_length (content m)).
  rewrite read_exact, drop_app_length.
  change (ignore (newline :: rest)) with rest.
  rewrite Z2Nat.id by (by destruct (role m)).
  replace (role_of_int (role_to_int (role m))) with (Some (role m))
    by (by destruct (role m)).
  by rewrite text_chars.
Qed.

Lemma load_loop_saved (msgs : list Message) (fuel : nat)
    (acc : list Message) :
  (length msgs <= fuel)%nat ->
  Forall (fun m => Z.of_nat (String.length (content m)) < 2 ^ 64) msgs ->
  load_loop fuel (chars (save_text msgs)) acc = Some (acc ++ (persisted <$> msgs)).
Proof.
  revert fuel acc. induction msgs as [|m msgs IH]; intros fuel acc Hfuel Hall.
  - rewrite app_nil_r. by destruct fuel.
  - destruct fuel as [|fuel]; [simpl in Hfuel; lia|].
    apply Forall_cons in Hall as [Hm Hall].
    unfold save_text. rewrite fmap_cons, concat_cons, chars_app.
    rewrite load_loop_record by done.
    fold (save_text msgs). rewrite IH; [|simpl in Hfuel; lia|done].
    by rewrite <- app_assoc.
Qed.

Lemma digits_shorter (l : list ascii) (acc v : Z) (rest : list ascii) :
  digits l acc = (v, rest) -> (length rest <= length l)%nat.
Proof.
  revert acc. induction l as [|c l IH]; intros acc; simpl.
  - by intros [= _ <-].
  - destruct (digit c); [|by intros [= _ <-]].
    intros H. apply IH in H. lia.
Qed.

Lemma skip_space_shorter (l : list ascii) :
  (length (skip_space l) <= length l)%nat.
Proof.
  induction l as [|c l IH]; simpl; [done|].
  destruct (Ascii.is_space c); simpl; lia.
Qed.

(** Extracting a number consumes at least one character. *)
Lemma number_shorter (l : list ascii) (neg : bool) (v : Z) (rest : list ascii) :
  number l = Some (neg, v, rest) -> (length rest < length l)%nat.
Proof.
  unfold number. pose proof (skip_space_shorter l) as Hs.
  set (l1 := skip_space l) in *.
  destruct l1 as [|c l1']; [done|].
  destruct (Ascii.eqb c "-"); [|destruct (Ascii.eqb c "+")].
  - intros H. destruct l1' as [|c' l2]; [done|].
    destruct (digit c'); [|done].
    destruct (digits (c' :: l2) 0) as [v0 rest0] eqn:Hd.
    injection H as _ _ <-. apply digits_shorter in Hd. simpl in Hs, Hd. clear -Hs Hd. lia.
  - intros H. destruct l1' as [|c' l2]; [done|].
    destruct (digit c'); [|done].
    destruct (digits (c' :: l2) 0) as [v0 rest0] eqn:Hd.
    injection H as _ _ <-. apply digits_shorter in Hd.
    simpl in Hs, Hd. clear -Hs Hd. lia.
  - intros H. destruct (digit c) eqn:Hc; [|done].
    destruct (digits (c :: l1') 0) as [v0 rest0] eqn:Hd.
    injection H as _ _ <-. cbn [digits] in Hd. rewrite Hc in Hd.
    apply digits_shorter in Hd. simpl in Hs. clear -Hs Hd. lia.
Qed.

Lemma extract_int_shorter (l : list ascii) (z : Z) (rest : list ascii) :
  extract_int l = Some (z, rest) -> (length rest < length l)%nat.
Proof.
  unfold extract_int. destruct (number l) as [[[neg v] r]|] eqn:Hn; [|done].
  destruct (_ && _); [|done]. intros [= _ <-]. by eapply number_shorter.
Qed.

Lemma extract_size_shorter (l : list ascii) (z : Z) (rest : list ascii) :
  extract_size l = Some (z, rest) -> (length rest < length l)%nat.
Proof.
  unfold extract_size. destruct (number l) as [[[neg v] r]|] eqn:Hn; [|done].
  destruct (_ <? _); [|done]. intros [= _ <-]. by eapply number_shorter.
Qed.

(** The loop of [load] never uses up the fuel it is given by [load_text]:
    any amount of at least the length of the file gives the same result. *)
Lemma load_loop_fuel (fuel fuel' : nat) (l : list ascii) (acc : list Message) :
  (length l <= fuel)%nat -> (length l <= fuel')%nat ->
  load_loop fuel l acc = load_loop fuel' l acc.
Proof.
  revert fuel' l acc. induction fuel as [|fuel IH]; intros fuel' l acc Hf Hf'.
  - destruct l; [|simpl in Hf; lia]. by destruct fuel'.
  - destruct fuel' as [|fuel'].
    + destruct l; [done|simpl in Hf'; lia].
    + cbn [load_loop].
      destruct (extract_int l) as [[role_int l1]|] eqn:H1; [|done].
      destruct (extract_size l1) as [[content_len l2]|] eqn:H2; [|done].
      destruct (role_of_int role_int); [|done].
      apply extract_int_shorter in H1. apply extract_size_shorter in H2.
      assert (length (ignore (drop (Z.to_nat content_len) (ignore l2)))
              <= length l2)%nat.
      { unfold ignore. rewrite !length_drop. lia. }
      apply IH; lia.
Qed.

Lemma save_record_length (m : Message) :
  (1 <= String.length (save_record m))%nat.
Proof.
  rewrite <- chars_length, <- (app_nil_r (chars _)), save_record_chars.
  rewrite length_app. simpl. lia.
Qed.

Lemma save_text_length (msgs : list Message) :
  (length msgs <= String.length (save_text msgs))%nat.
Proof.
  induction msgs as [|m msgs IH]; [simpl; lia|].
  unfold save_text. rewrite fmap_cons, concat_cons.
  rewrite <- chars_length, chars_app, length_app, !chars_length.
  pose proof (save_record_length m). fold (save_text msgs). simpl. lia.
Qed.

End PersistFacts.

(** C8.  A history saved to a writable path and loaded back from that path
    (readable) comes back as the same sequence of turns, each with its role
    and its content, whatever characters the content holds (none, or line
    breaks); tool name, call id and images come back empty.  (A content is a
    std::string, so its length fits size_t.) *)
Theorem save_load_roundtrip :
  forall (c c0 : Ctx.Context) (path : string) (fs : Ctx.FileSystem),
    Ctx.can_write fs path = true ->
    Ctx.can_read fs path = true ->
    Forall (fun m => Z.of_nat (String.length (content m)) < 2 ^ 64)
           (Ctx.messages_ c) ->
    exists fs' loaded,
      Ctx.save c path fs = (true, fs')
      /\ Ctx.load c0 path fs' = Some (true, loaded)
      /\ Ctx.messages_ loaded = persisted <$> Ctx.messages_ c
      /\ role <$> Ctx.messages_ loaded = role <$> Ctx.messages_ c
      /\ content <$> Ctx.messages_ loaded = content <$> Ctx.messages_ c
      /\ length (Ctx.messages_ loaded) = length (Ctx.messages_ c).
Proof.
  intros c c0 path fs Hw Hr Hall.
  exists (Ctx.mkFS (<[path := Ctx.save_text (Ctx.messages_ c)]> (Ctx.files fs))
            (Ctx.can_write fs) (Ctx.can_read fs)),
         (Ctx.mkContext (persisted <$> Ctx.messages_ c) (Ctx.max_tokens_ c0)).
  split; [unfold Ctx.save; by rewrite Hw|].
  split.
  { unfold Ctx.load. cbn [Ctx.files Ctx.can_read].
    rewrite lookup_insert_eq, Hr. unfold Ctx.load_text.
    rewrite PersistFacts.load_loop_saved;
      [done|apply PersistFacts.save_text_length|done]. }
  cbn [Ctx.messages_]. repeat split.
  - rewrite <- list_fmap_compose. by apply list_fmap_ext.
  - rewrite <- list_fmap_compose. by apply list_fmap_ext.
  - by rewrite length_fmap.
Qed.

Lemma save_load_roundtrip_witness :
  exists fs' loaded,
    Ctx.save
      (Ctx.mkContext
         [Message_system "be brief"; Message_user ("a" +:+ nl +:+ "7") ["i.png"];
          Message_assistant ""; Message_tool_result "tools" "" "ok"] 16000)
      "ctx.txt" (Ctx.mkFS ∅ (fun _ => true) (fun _ => true)) = (true, fs')
    /\ Ctx.load Ctx.new "ctx.txt" fs' = Some (true, loaded)
    /\ Ctx.messages_ loaded
       = [Message_system "be brief";
          mkMessage User ("a" +:+ nl +:+ "7") None None [];
          Message_assistant ""; mkMessage Tool "ok" None None []].
Proof.
  destruct (save_load_roundtrip
              (Ctx.mkContext
                 [Message_system "be brief";
                  Message_user ("a" +:+ nl +:+ "7") ["i.png"];
                  Message_assistant ""; Message_tool_result "tools" "" "ok"]
                 16000)
              Ctx.new "ctx.txt" (Ctx.mkFS ∅ (fun _ => true) (fun _ => true))
              eq_refl eq_refl)
    as (fs' & loaded & Hs & Hl & Hm & _).
  { repeat constructor. }
  exists fs', loaded. split; [exact Hs|]. split; [exact Hl|exact Hm].
Defined.

(** ** Agent::process without a backend *)

(** C9 (as amended).  With no VLM and no LLM loaded and an iteration limit
    of at least one, process appends the user turn, enters the loop and the
    fault "No model loaded" leaves process.  The history then ends with the
    new user turn (no assistant turn), the state is Thinking, and the only
    state change announced was the one to Thinking. *)
Theorem process_without_model :
  forall (World : Type) (i : Impl World) (w : World) (message : string)
         (imgs : list string),
    no_model_loaded i w ->
    0 < max_iterations (config i) ->
    exists i',
      process i w message imgs
      = Some (Throws (StdException "No model loaded"), i', w)
      /\ history i' = history i ++ [Message_user message imgs]
      /\ state i' = Thinking
      /\ events i' = events i ++ [StateChanged Thinking "Processing message..."].
Proof.
  intros World i w message imgs [Hv Hl] Hmax.
  exists (push_history
            (set_state (with_stop_requested i false) Thinking
               "Processing message...")
            (Message_user message imgs)).
  split; [|done].
  unfold process, react_loop.
  set (i3 := push_history _ _).
  assert (Hc : config i3 = config i) by reflexivity.
  assert (Hstop : stop_requested i3 = false) by reflexivity.
  assert (Hvlm : vlm i3 = vlm i) by reflexivity.
  assert (Hllm : llm i3 = llm i) by reflexivity.
  rewrite Hc.
  destruct (Z.to_nat (max_iterations (config i))) as [|fuel] eqn:Hfuel;
    [lia|].
  cbn [react_while]. rewrite Hc, Hstop, (proj2 (Z.ltb_lt _ _) Hmax).
  cbn [andb negb].
  unfold generate_response. rewrite Hvlm, Hllm.
  unfold vlm_usable, llm_usable in Hv, Hl.
  destruct (vlm i) as [v|]; [rewrite Hv|];
    (destruct (llm i) as [l|]; [rewrite Hl|]); reflexivity.
Qed.

Lemma process_without_model_witness :
  exists i',
    process (bare_agent 50) tt "hello" []
    = Some (Throws (StdException "No model loaded"), i', tt)
    /\ history i' = [Message_user "hello" []]
    /\ state i' = Thinking.
Proof.
  destruct (process_without_model unit (bare_agent 50) tt "hello" [])
    as (i' & Hp & Hh & Hs & _).
  - split; reflexivity.
  - reflexivity.
  - exists i'. split; [exact Hp|]. split; [exact Hh|exact Hs].
Defined.

(** C9 fails as stated when the iteration limit is zero: the loop body is
    never entered, nothing is thrown, and process completes with an
    assistant turn and the state Done. *)
Lemma process_without_model_counterexample :
  exists i',
    process (bare_agent 0) tt "hello" []
    = Some (Returns iteration_marker, i', tt)
    /\ history i'
       = [Message_user "hello" []; Message_assistant iteration_marker]
    /\ state i' = Done.
Proof. eexists. split; [reflexivity|]. split; reflexivity. Qed.

(** ** The reasoning loop *)

Section LoopFacts.
Context {World : Type}.
Implicit Types (i : Impl World) (w : World) (es : list Event).

Lemma count_app p es1 es2 : count p (es1 ++ es2) = (count p es1 + count p es2)%nat.
Proof. unfold count. by rewrite List.filter_app, length_app. Qed.

Lemma count_tokens p (tokens : list string) :
  (forall t, p (Token t) = false) -> count p (Token <$> tokens) = 0%nat.
Proof.
  intros Hp. unfold count. induction tokens as [|t ts IH]; [done|].
  simpl. by rewrite Hp.
Qed.

Lemma same_setup_refl i : same_setup i i.
Proof. by repeat split. Qed.

Lemma same_setup_trans i1 i2 i3 :
  same_setup i1 i2 -> same_setup i2 i3 -> same_setup i1 i3.
Proof.
  intros (?&?&?&?&?&?) (?&?&?&?&?&?). repeat split; congruence.
Qed.

(** The backend step only adds to the trace: one [Generated] entry when it
    returns, none when it throws. *)
Lemma generate_response_log i w prompt imgs o i' w' :
  generate_response i w prompt imgs = (o, i', w') ->
  exists es,
    i' = log i es
    /\ count is_calling_tool es = 0%nat
    /\ count is_generated es
       = match o with Returns _ => 1%nat | Throws _ => 0%nat end.
Proof.
  unfold generate_response.
  assert (Hllm :
    match llm i with
    | Some l =>
        if llm_is_loaded l w then
          match llm_generate l w prompt with
          | (Returns response, w') =>
              (Returns response, log i [Generated prompt response], w')
          | (Throws f, w') => (Throws f, i, w')
          end
        else (Throws (StdException "No model loaded"), i, w)
    | None => (Throws (StdException "No model loaded"), i, w)
    end = (o, i', w') ->
    exists es,
      i' = log i es
      /\ count is_calling_tool es = 0%nat
      /\ count is_generated es
         = match o with Returns _ => 1%nat | Throws _ => 0%nat end).
  { assert (Hnil : i = log i []).
    { destruct i. unfold log. simpl. by rewrite app_nil_r. }
    destruct (llm i) as [l|]; [|intros [= <- <- <-]; by exists []].
    destruct (llm_is_loaded l w); [|intros [= <- <- <-]; by exists []].
    destruct (llm_generate l w prompt) as [[r|f] w0];
      intros [= <- <- <-]; [by eexists|by exists []]. }
  assert (Hnil : i = log i []).
  { destruct i. unfold log. simpl. by rewrite app_nil_r. }
  destruct (vlm i) as [v|]; [|exact Hllm].
  destruct (vlm_is_loaded v w); [|exact Hllm].
  destruct (stream_callback i).
  - destruct (vlm_generate_stream v w prompt imgs) as [[tokens [f|]] w0];
      intros [= <- <- <-]; eexists; (split; [reflexivity|]).
    + by rewrite !count_tokens.
    + by rewrite !count_app, !count_tokens.
  - destruct (vlm_generate v w prompt imgs) as [[r|f] w0];
      intros [= <- <- <-]; [by eexists|by exists []].
Qed.

(** The batch only adds [ToolDispatched] entries to the trace. *)
Lemma dispatch_all_log calls i w errs final results o i' w' :
  dispatch_all calls i w errs final results = (o, i', w') ->
  exists es,
    i' = log i es
    /\ count is_calling_tool es = 0%nat
    /\ count is_generated es = 0%nat.
Proof.
  assert (Hnil : forall j : Impl World, j = log j []).
  { intros j. destruct j. unfold log. simpl. by rewrite app_nil_r. }
  assert (Hlog : forall (j : Impl World) es1 es2,
             log (log j es1) es2 = log j (es1 ++ es2)).
  { intros j es1 es2. unfold log. simpl. by rewrite app_assoc. }
  revert i w errs final results.
  induction calls as [|call rest IH]; intros i w errs final results; simpl.
  - intros [= <- <- <-]. by exists [].
  - destruct (stop_requested i); [intros [= <- <- <-]; by exists []|].
    destruct (registry_execute (tools i) call w) as [[result|f] w0];
      [|intros [= <- <- <-]; by exists []].
    destruct (success result); simpl.
    + intros H. apply IH in H as (es & -> & Hc & Hg).
      exists (ToolDispatched call result :: es). by rewrite Hlog.
    + destruct (errs + 1 >=? max_consecutive_errors (config i)).
      * intros [= <- <- <-]. by eexists.
      * intros H. apply IH in H as (es & -> & Hc & Hg).
        exists (ToolDispatched call result :: es). by rewrite Hlog.
Qed.

Lemma starts_with_app (p s : list ascii) : starts_with p (p ++ s) = true.
Proof.
  induction p as [|c p IH]; [done|]. simpl. by rewrite Ascii.eqb_refl.
Qed.

Lemma ends_with_app (front suffix : string) :
  ends_with suffix (front +:+ suffix) = true.
Proof.
  unfold ends_with. rewrite chars_app, rev_app_distr. apply starts_with_app.
Qed.

Lemma geb_le (a b : Z) : b <= a -> (a >=? b) = true.
Proof. intros H. by apply Z.geb_le. Qed.

Lemma finish_marker i w iterations final o i' w' :
  Some (finish i w iterations final) = Some (o, i', w') ->
  i' = i /\ w' = w
  /\ exists t, o = Returns t
     /\ (max_iterations (config i) <= iterations ->
         ends_with iteration_marker t = true).
Proof.
  unfold finish. intros [= <- <- <-]. split; [done|]. split; [done|].
  eexists. split; [done|].
  intros H. rewrite (geb_le _ _ H). apply ends_with_app.
Qed.

(** What a run of the loop does to the history and to the trace. *)
Lemma react_while_shape fuel imgs i w iterations errs final o i' w' :
  react_while fuel imgs i w iterations errs final = Some (o, i', w') ->
  exists turns es,
    history i' = history i ++ turns
    /\ events i' = events i ++ es
    /\ same_setup i i'
    /\ Forall is_tool_turn turns
    /\ match o with
       | Returns t =>
           length turns = count is_calling_tool es
           /\ (max_iterations (config i)
                <= iterations + Z.of_nat (count is_generated es) ->
               ends_with iteration_marker t = true)
       | Throws _ => True
       end.
Proof.
  revert i w iterations errs final.
  induction fuel as [|fuel IH]; intros i w iterations errs final;
    cbn [react_while];
    (destruct ((iterations <? max_iterations (config i))
               && negb (stop_requested i)) eqn:Hcond;
     [|intros H;
       apply finish_marker in H as (-> & -> & t & -> & Hm);
       exists [], []; rewrite !app_nil_r;
       repeat split; [done|];
       intros Hle; apply Hm; unfold count in Hle; simpl in Hle; lia]).
  - discriminate.
  - destruct (generate_response i w (build_prompt i w (history i)) imgs)
      as [[[response|f] i1] w1] eqn:Hgen;
      apply generate_response_log in Hgen as (es1 & -> & Hc1 & Hg1).
    2:{ intros [= <- <- <-]. exists [], es1. rewrite app_nil_r.
        by repeat split. }
    destruct (parse_tool_calls response) as [|c cs] eqn:Hparse.
    { intros H. apply finish_marker in H as (-> & -> & t & -> & Hm).
      exists [], es1. rewrite app_nil_r. repeat split; [done|by rewrite Hc1|].
      intros Hle. apply Hm. cbn [config log]. rewrite Hg1 in Hle. lia. }
    set (i2 := set_state (log i es1) CallingTool "Executing tools...").
    destruct (dispatch_all (c :: cs) i2 w1 errs final [])
      as [[[[[errs' final'] results]|f] i3] w3] eqn:Hd;
      apply dispatch_all_log in Hd as (es2 & -> & Hc2 & Hg2).
    2:{ intros [= <- <- <-].
        exists [], (es1 ++ [StateChanged CallingTool "Executing tools..."]
                    ++ es2).
        rewrite app_nil_r. repeat split; [|done].
        cbn [events log i2 set_state with_state].
        by rewrite <- !app_assoc. }
    intros H. apply IH in H as (turns & es & Hh & He & Hs & Ht & Ho).
    exists (Message_tool_result "tools" "" (format_tool_results results)
            :: turns),
           (es1 ++ [StateChanged CallingTool "Executing tools..."] ++ es2
            ++ [StateChanged Thinking "Processing tool results..."] ++ es).
    split; [|split; [|split; [|split]]].
    + rewrite Hh. cbn [history log push_history with_history set_state
                        with_state i2]. by rewrite <- app_assoc.
    + rewrite He. cbn [events log push_history with_history set_state
                        with_state i2]. by rewrite <- !app_assoc.
    + eapply same_setup_trans; [|exact Hs]. by repeat split.
    + by constructor.
    + destruct o as [t|f]; [|done]. destruct Ho as [Hlen Hm]. split.
      * rewrite !count_app, Hc1, Hc2. unfold count in *. simpl. lia.
      * intros Hle. apply Hm. cbn [config log push_history with_history
                                    set_state with_state i2].
        rewrite !count_app, Hg1, Hg2 in Hle.
        unfold count in *. simpl in Hle. lia.
Qed.

(** The fuel handed to the loop by [react_loop] is never used up. *)
Lemma react_while_total fuel imgs i w iterations errs final :
  max_iterations (config i) - iterations <= Z.of_nat fuel ->
  is_Some (react_while fuel imgs i w iterations errs final).
Proof.
  revert i w iterations errs final.
  induction fuel as [|fuel IH]; intros i w iterations errs final Hfuel;
    cbn [react_while];
    (destruct ((iterations <? max_iterations (config i))
               && negb (stop_requested i)) eqn:Hcond; [|by eexists]).
  - apply andb_true_iff in Hcond as [Hlt _]. apply Z.ltb_lt in Hlt. lia.
  - destruct (generate_response i w (build_prompt i w (history i)) imgs)
      as [[[response|f] i1] w1] eqn:Hgen; [|by eexists].
    apply generate_response_log in Hgen as (es1 & -> & _).
    destruct (parse_tool_calls response) as [|c cs]; [by eexists|].
    destruct (dispatch_all _ _ _ _ _ _)
      as [[[[[errs' final'] results]|f] i3] w3] eqn:Hd; [|by eexists].
    apply dispatch_all_log in Hd as (es2 & -> & _).
    apply IH. cbn [config log push_history with_history set_state with_state].
    lia.
Qed.

End LoopFacts.

(** ** The history of the agent *)



(** ** The caps of the loop *)

Section CapFacts.
Context {World : Type}.
Implicit Types (i : Impl World) (w : World).

Lemma responses_call i j w prompt imgs r j' w' :
  responses_always_call i -> vlm j = vlm i -> llm j = llm i ->
  generate_response j w prompt imgs = (Returns r, j', w') ->
  parse_tool_calls r <> [].
Proof.
  intros [Hv Hl] Hvj Hlj. unfold generate_response. rewrite Hvj, Hlj.
  assert (Hllm :
    match llm i with
    | Some l =>
        if llm_is_loaded l w then
          match llm_generate l w prompt with
          | (Returns response, w') =>
              (Returns response, log j [Generated prompt response], w')
          | (Throws f, w') => (Throws f, j, w')
          end
        else (Throws (StdException "No model loaded"), j, w)
    | None => (Throws (StdException "No model loaded"), j, w)
    end = (Returns r, j', w') -> parse_tool_calls r <> []).
  { destruct (llm i) as [l|]; [|done].
    destruct (llm_is_loaded l w); [|done].
    destruct (llm_generate l w prompt) as [[r0|f] w0] eqn:Hg; [|done].
    intros [= <- <- <-]. by eapply Hl. }
  destruct (vlm i) as [v|]; [|exact Hllm].
  destruct (vlm_is_loaded v w); [|exact Hllm].
  destruct (Hv v eq_refl) as [Hgen Hstream].
  destruct (stream_callback j).
  - destruct (vlm_generate_stream v w prompt imgs) as [[tokens [f|]] w0] eqn:Hg;
      [done|]. intros [= <- <- <-]. by eapply Hstream.
  - destruct (vlm_generate v w prompt imgs) as [[r0|f] w0] eqn:Hg; [|done].
    intros [= <- <- <-]. by eapply Hgen.
Qed.

(** With an iteration limit of one and a backend whose responses always
    hold a tool call, a call of process that returns has made exactly one
    model call and dispatched one batch, and the returned text ends with the
    iteration marker. *)
Lemma single_iteration_marker i w message imgs t i' w' :
  max_iterations (config i) = 1 ->
  responses_always_call i ->
  process i w message imgs = Some (Returns t, i', w') ->
  exists es,
    events i' = events i ++ es
    /\ count is_generated es = 1%nat
    /\ count is_calling_tool es = 1%nat
    /\ ends_with iteration_marker t = true.
Proof.
  intros Hmax Hcalls. unfold process, react_loop.
  set (i3 := push_history _ _).
  assert (Hc : config i3 = config i) by reflexivity.
  assert (Hstop : stop_requested i3 = false) by reflexivity.
  rewrite Hc, Hmax. change (Z.to_nat 1) with 1%nat.
  cbn [react_while]. rewrite Hc, Hstop, Hmax. cbn [Z.ltb Z.compare andb negb].
  destruct (generate_response i3 w (build_prompt i3 w (history i3)) imgs)
    as [[[response|f] i4] w4] eqn:Hgen; [|done].
  pose proof (responses_call i i3 _ _ _ _ _ _ Hcalls eq_refl eq_refl Hgen)
    as Hne.
  apply generate_response_log in Hgen as (es1 & -> & Hc1 & Hg1).
  destruct (parse_tool_calls response) as [|c cs]; [done|].
  destruct (dispatch_all _ _ _ _ _ _)
    as [[[[[errs' final'] results]|f] i5] w5] eqn:Hd; [|done].
  apply dispatch_all_log in Hd as (es2 & -> & Hc2 & Hg2).
  cbn [config log push_history with_history set_state with_state].
  rewrite Hc, Hmax. cbn [Z.add Z.ltb Z.compare Pos.compare Pos.compare_cont
                          andb Pos.add].
  unfold finish.
  cbn [config log push_history with_history set_state with_state].
  rewrite Hc, Hmax. cbn [Z.geb Z.compare Pos.compare Pos.compare_cont].
  intros [= <- <- <-].
  exists ([StateChanged Thinking "Processing message..."] ++ es1
          ++ [StateChanged CallingTool "Executing tools..."] ++ es2
          ++ [StateChanged Thinking "Processing tool results..."]
          ++ [StateChanged Done ""]).
  split; [|split; [|split]].
  - subst i3. cbn [events log push_history with_history set_state with_state
                   with_stop_requested]. by rewrite <- !app_assoc.
  - rewrite !count_app, Hg1, Hg2. by unfold count.
  - rewrite !count_app, Hc1, Hc2. by unfold count.
  - apply ends_with_app.
Qed.

(** Whenever process returns after as many model calls as the iteration
    limit allows, the returned text ends with the iteration marker. *)
Lemma iteration_cap_marker i w message imgs t i' w' es :
  process i w message imgs = Some (Returns t, i', w') ->
  events i' = events i ++ es ->
  max_iterations (config i) <= Z.of_nat (count is_generated es) ->
  ends_with iteration_marker t = true.
Proof.
  unfold process, react_loop. set (i3 := push_history _ _).
  destruct (react_while _ imgs i3 w 0 0 "") as [[[o i4] w4]|] eqn:Hrun;
    [|done].
  destruct o as [response|f]; [|done]. intros [= <- <- <-].
  apply react_while_shape in Hrun as (turns & es' & _ & He & _ & _ & _ & Hm).
  cbn [events set_state log with_state push_history with_history].
  rewrite He. subst i3.
  cbn [events set_state log with_state push_history with_history
       with_stop_requested config].
  rewrite <- !app_assoc. intros Hes%app_inv_head. subst es.
  rewrite !count_app. unfold count at 1 3. simpl. intros Hle.
  apply Hm. cbn [config set_state log with_state push_history with_history
                 with_stop_requested]. lia.
Qed.

End CapFacts.

(** C1, at the failing input.  The backend asks for an unregistered tool in
    every response; the limit of consecutive errors is 3 and the iteration
    limit 50.  The third failure in a row does not end the loop: process
    goes on to 50 model calls and 50 dispatches, every one of them failed,
    and stops at the iteration limit. *)
Theorem error_cap_does_not_end_loop :
  exists t i',
    process (stubborn_agent 50) tt "go" [] = Some (Returns t, i', tt)
    /\ max_consecutive_errors (config (stubborn_agent 50)) = 3
    /\ count is_dispatch (events i') = 50%nat
    /\ count is_generated (events i') = 50%nat
    /\ forallb (fun e => match e with
                         | ToolDispatched _ r => negb (success r)
                         | _ => true
                         end) (events i') = true
    /\ ends_with iteration_marker t = true.
Proof.
  eexists _, _. split; [vm_compute; reflexivity|].
  split; [reflexivity|]. repeat split; vm_compute; reflexivity.
Qed.

(** C7, at the failing input.  The first response holds four calls of
    unregistered tools, the second is the plain answer "done"; the limit of
    consecutive errors is 3 and the iteration limit 50.  The third failure
    puts the diagnostic into the answer but the loop goes on: a second
    model call is made, and the returned text is the diagnostic followed by
    "done", with no marker at its end. *)
Theorem error_cap_marker_not_trailing :
  exists i',
    process relenting_agent 0%nat "go" []
    = Some (Returns ("Too many consecutive errors. Stopping." +:+ nl
                     +:+ "Last error: Unknown tool: c" +:+ "done"), i', 2%nat)
    /\ count is_dispatch (events i') = 3%nat
    /\ count is_generated (events i') = 2%nat
    /\ ends_with iteration_marker
         ("Too many consecutive errors. Stopping." +:+ nl
          +:+ "Last error: Unknown tool: c" +:+ "done") = false
    /\ ends_with "Last error: Unknown tool: c"
         ("Too many consecutive errors. Stopping." +:+ nl
          +:+ "Last error: Unknown tool: c" +:+ "done") = false.
Proof.
  eexists. split; [vm_compute; reflexivity|]. repeat split.
Qed.

(** ** The matcher *)

Module RegexFacts.

Section Matcher.
Context {R : Type}.
Implicit Types (k : list ascii -> captures -> option R) (caps : captures).

Lemma starts_with_split (p s : list ascii) :
  starts_with p s = true -> s = p ++ drop (length p) s.
Proof.
  revert s. induction p as [|c p IH]; intros [|x s]; simpl; try done.
  intros [Hx Hp]%andb_true_iff. apply Ascii.eqb_eq in Hx as ->.
  f_equal. by apply IH.
Qed.

Lemma run_lit (p s : list ascii) caps k :
  run (lit p) (p ++ s) caps k = k s caps.
Proof.
  induction p as [|c p IH]; simpl; [done|]. by rewrite Ascii.eqb_refl.
Qed.

Lemma run_lit_inv (p s : list ascii) caps k res :
  run (lit p) s caps k = Some res ->
  starts_with p s = true /\ k (drop (length p) s) caps = Some res.
Proof.
  revert s. induction p as [|c p IH]; intros s; simpl; [done|].
  destruct s as [|x s]; [done|].
  destruct (Ascii.eqb x c); [|done]. simpl. apply IH.
Qed.

Lemma run_lit_fail (p s : list ascii) caps k :
  starts_with p s = false -> run (lit p) s caps k = None.
Proof.
  intros H. destruct (run (lit p) s caps k) eqn:Hr; [|done].
  apply run_lit_inv in Hr as [Hs _]. congruence.
Qed.

Lemma star_greedy_max (p : ascii -> bool) (a s : list ascii)
    (k' : list ascii -> option R) (res : R) :
  forallb p a = true -> stops p s -> k' s = Some res ->
  star_greedy p (a ++ s) k' = Some res.
Proof.
  intros Ha Hs Hk. induction a as [|x a IH]; simpl.
  - destruct s as [|c s]; simpl; [done|]. simpl in Hs. by rewrite Hs.
  - simpl in Ha. apply andb_true_iff in Ha as [-> Ha]. by rewrite IH.
Qed.

Lemma star_lazy_first (p : ascii -> bool) (a s : list ascii)
    (k' : list ascii -> option R) (res : R) :
  forallb p a = true ->
  (forall pre post, a = pre ++ post -> post <> [] -> k' (post ++ s) = None) ->
  k' s = Some res ->
  star_lazy p (a ++ s) k' = Some res.
Proof.
  intros Ha Hno Hk. induction a as [|x a IH].
  - simpl. destruct s; simpl; by rewrite Hk.
  - simpl in Ha. apply andb_true_iff in Ha as [Hx Ha].
    assert (Hhere : k' (x :: a ++ s) = None) by by apply (Hno [] (x :: a)).
    simpl. rewrite Hhere, Hx.
    apply IH; [done|]. intros pre post -> Hpost.
    by apply (Hno (x :: pre) post).
Qed.

Lemma star_greedy_sound (p : ascii -> bool) (s : list ascii)
    (k' : list ascii -> option R) (res : R) :
  star_greedy p s k' = Some res ->
  exists a b, s = a ++ b /\ forallb p a = true /\ k' b = Some res.
Proof.
  induction s as [|c s IH]; simpl.
  - intros H. by exists [], [].
  - destruct (p c) eqn:Hc; [|intros H; by exists [], (c :: s)].
    destruct (star_greedy p s k') as [r|] eqn:Hrec.
    + intros [= ->]. destruct (IH eq_refl) as (a & b & -> & Ha & Hb).
      exists (c :: a), b. simpl. by rewrite Hc, Ha.
    + intros H. by exists [], (c :: s).
Qed.

Lemma star_lazy_sound (p : ascii -> bool) (s : list ascii)
    (k' : list ascii -> option R) (res : R) :
  star_lazy p s k' = Some res ->
  exists a b, s = a ++ b /\ forallb p a = true /\ k' b = Some res.
Proof.
  induction s as [|c s IH]; simpl.
  - destruct (k' []) eqn:Hk; [|done]. intros [= ->]. by exists [], [].
  - destruct (k' (c :: s)) eqn:Hk.
    + intros [= ->]. by exists [], (c :: s).
    + destruct (p c) eqn:Hc; [|done]. intros H.
      destruct (IH H) as (a & b & -> & Ha & Hb).
      exists (c :: a), b. simpl. by rewrite Hc, Ha.
Qed.

(** Whatever the matcher accepts is a word of the pattern followed by a
    text on which the continuation succeeds. *)
Lemma run_sound (r : regex) (s : list ascii) caps k (res : R) :
  run r s caps k = Some res ->
  exists s1 s2 caps',
    s = s1 ++ s2 /\ lang r s1 /\ k s2 caps' = Some res.
Proof.
  revert s caps k. induction r as [|c|p|p g|n r IH|r1 IH1 r2 IH2];
    intros s caps k; simpl.
  - intros H. by exists [], s, caps.
  - destruct s as [|x s]; [done|].
    destruct (Ascii.eqb_spec x c) as [->|]; [|done].
    intros H. by exists [c], s, caps.
  - destruct s as [|x s]; [done|]. destruct (p x) eqn:Hx; [|done].
    intros H. exists [x], s, caps. split; [done|]. split; [|done].
    by exists x.
  - destruct g; intros H.
    + apply star_greedy_sound in H as (a & b & -> & Ha & Hb).
      by exists a, b, caps.
    + apply star_lazy_sound in H as (a & b & -> & Ha & Hb).
      by exists a, b, caps.
  - intros H. apply IH in H as (s1 & s2 & caps' & -> & Hl & Hk).
    by eexists s1, s2, _.
  - intros H. apply IH1 in H as (s1 & s2 & caps1 & -> & Hl1 & Hk).
    apply IH2 in Hk as (s3 & s4 & caps2 & -> & Hl2 & Hk).
    exists (s1 ++ s3), s4, caps2. rewrite <- app_assoc.
    split; [done|]. split; [|done]. by exists s1, s3.
Qed.

End Matcher.

Lemma lang_lit (p s : list ascii) : lang (lit p) s -> s = p.
Proof.
  revert s. induction p as [|c p IH]; intros s; simpl; [done|].
  intros (s1 & s2 & -> & -> & H2). simpl. f_equal. by apply IH.
Qed.

Lemma contains_here (p s : list ascii) : contains p (p ++ s) = true.
Proof. destruct p; simpl; [by destruct s|]. by rewrite Ascii.eqb_refl, starts_with_app. Qed.

Lemma contains_app_r (p a s : list ascii) :
  contains p s = true -> contains p (a ++ s) = true.
Proof.
  intros H. induction a as [|x a IH]; [done|].
  simpl. rewrite IH. apply orb_true_r.
Qed.

Lemma contains_tail (p : list ascii) (c : ascii) (s : list ascii) :
  contains p (c :: s) = false -> contains p s = false.
Proof. simpl. by intros [_ ?]%orb_false_iff. Qed.

Lemma skip_space_spaces (g s : list ascii) :
  forallb cls_space g = true -> Ctx.skip_space (g ++ s) = Ctx.skip_space s.
Proof.
  induction g as [|c g IH]; [done|]. simpl.
  intros [Hc Hg]%andb_true_iff. unfold cls_space in Hc. rewrite Hc. by apply IH.
Qed.

(** A match of [tool_regex] spells out a whole block. *)
Lemma tool_regex_sound (s : list ascii) (n : nat) (caps : captures) :
  match_at tool_regex s = Some (n, caps) ->
  exists g1 g2 nm g3 g4 body s2,
    s = opener ++ g1 ++ name_key ++ g2 ++ nm ++ g3 ++ arguments_key ++ g4
        ++ body ++ closer ++ s2
    /\ forallb cls_space g1 = true.
Proof.
  unfold match_at. intros H.
  apply run_sound in H as (s1 & s2 & caps' & -> & Hl & _).
  unfold tool_regex in Hl. cbn [lang seq] in Hl.
  destruct Hl as (a1 & b1 & -> & H1%lang_lit & a2 & b2 & -> & H2
                  & a3 & b3 & -> & H3%lang_lit & a4 & b4 & -> & H4
                  & a5 & b5 & -> & H5 & a6 & b6 & -> & H6
                  & a7 & b7 & -> & H7%lang_lit & a8 & b8 & -> & H8
                  & a9 & b9 & -> & H9 & a10 & b10 & -> & H10%lang_lit & ->).
  subst a1 a3 a7 a10.
  exists a2, a4, a5, a6, a8, a9, s2. split; [|done].
  rewrite app_nil_r, <- !app_assoc. reflexivity.
Qed.

Lemma tool_regex_headed (s : list ascii) (n : nat) (caps : captures) :
  match_at tool_regex s = Some (n, caps) -> headed s = true.
Proof.
  intros (g1 & g2 & nm & g3 & g4 & body & s2 & -> & Hg1)%tool_regex_sound.
  unfold headed. rewrite starts_with_app, drop_app_length.
  rewrite skip_space_spaces by done. reflexivity.
Qed.

Lemma tool_regex_closer (s : list ascii) (n : nat) (caps : captures) :
  match_at tool_regex s = Some (n, caps) -> contains closer s = true.
Proof.
  intros (g1 & g2 & nm & g3 & g4 & body & s2 & -> & _)%tool_regex_sound.
  do 9 apply contains_app_r. apply contains_here.
Qed.

Lemma tool_regex_name_key (s : list ascii) (n : nat) (caps : captures) :
  match_at tool_regex s = Some (n, caps) -> contains name_key s = true.
Proof.
  intros (g1 & g2 & nm & g3 & g4 & body & s2 & -> & _)%tool_regex_sound.
  do 2 apply contains_app_r. apply contains_here.
Qed.

Lemma tool_regex_opener (s : list ascii) (n : nat) (caps : captures) :
  match_at tool_regex s = Some (n, caps) -> contains opener s = true.
Proof.
  intros (g1 & g2 & nm & g3 & g4 & body & s2 & -> & _)%tool_regex_sound.
  apply contains_here.
Qed.

Lemma space_not_word (c : ascii) : cls_space c = true -> cls_word c = false.
Proof. destruct c as [[] [] [] [] [] [] [] []]; by vm_compute. Qed.

Lemma contains_starts (p s : list ascii) :
  starts_with p s = true -> contains p s = true.
Proof. intros H. destruct s; simpl; by rewrite H. Qed.

(** A pattern without "<" cannot run across a following "<". *)
Lemma starts_with_clean (q u t : list ascii) :
  lt_free q = true ->
  starts_with q (u ++ "<"%char :: t) = true -> starts_with q u = true.
Proof.
  revert u. induction q as [|d q IH]; intros u Hq; [by destruct u|].
  simpl in Hq. apply andb_true_iff in Hq as [Hd Hq].
  destruct u as [|x u]; cbn [app starts_with].
  - intros [He _]%andb_true_iff. apply Ascii.eqb_eq in He. by subst d.
  - intros [-> H]%andb_true_iff. by rewrite (IH u Hq H).
Qed.

Lemma starts_with_boundary (c : ascii) (q u t : list ascii) :
  lt_free q = true -> at_boundary t ->
  starts_with (c :: q) ((c :: u) ++ t) = true ->
  starts_with (c :: q) (c :: u) = true.
Proof.
  intros Hq Ht. simpl. rewrite Ascii.eqb_refl. simpl.
  destruct t as [|x t]; [by rewrite app_nil_r|].
  simpl in Ht. subst x. by apply starts_with_clean.
Qed.

Lemma closer_not_across (body pre post rest : list ascii) :
  contains closer body = false -> body = pre ++ post -> post <> [] ->
  starts_with closer (post ++ closer ++ rest) = false.
Proof.
  intros Hbody -> Hpost.
  destruct (starts_with closer (post ++ closer ++ rest)) eqn:Hs; [|done].
  destruct post as [|c post]; [done|].
  assert (c = "<"%char) as ->.
  { simpl in Hs. apply andb_true_iff in Hs as [Hc _].
    by apply Ascii.eqb_eq in Hc. }
  apply (starts_with_boundary "<" (chars "/tool_call>") post) in Hs;
    [|done|done].
  rewrite contains_app_r in Hbody; [done|]. by apply contains_starts.
Qed.

Lemma take_front (a b : list ascii) :
  take (length (a ++ b) - length b) (a ++ b) = a.
Proof.
  rewrite length_app. replace (length a + length b - length b)%nat
    with (length a) by lia. apply take_app_length.
Qed.

Lemma match_well_formed (b : Block) (rest : list ascii) :
  well_formed b = true ->
  match_at tool_regex (render_block b ++ rest)
  = Some (length (render_block b), block_captures b).
Proof.
  destruct b as [g1 g2 nm g3 g4 body].
  unfold well_formed, render_block, block_captures.
  cbn [gap1 gap2 gap3 gap4 block_name block_body].
  rewrite !andb_true_iff, !negb_true_iff.
  intros ((((((((Hg1 & Hg2) & Hg3) & Hg4) & Hn3) & Hnm) & Hnn) & Hbody) & Hb0).
  apply bool_decide_eq_false in Hn3, Hnn.
  unfold match_at, tool_regex.
  rewrite <- !app_assoc.
  set (whole := opener ++ _).
  cbn [seq run].
  unfold whole at 1. change (chars "<tool_call>") with opener.
  rewrite run_lit. cbv beta.
  apply star_greedy_max; [exact Hg1|done|]. cbv beta.
  change (chars "name:") with name_key. rewrite run_lit. cbv beta.
  destruct nm as [|c nm]; [done|].
  cbn [forallb] in Hnm. apply andb_true_iff in Hnm as [Hc Hnm].
  apply star_greedy_max; [exact Hg2| |].
  { cbn [app stops]. destruct (cls_space c) eqn:Hsp; [|done].
    apply space_not_word in Hsp. congruence. }
  cbv beta. unfold plus. cbn [app run]. rewrite Hc.
  apply star_greedy_max; [exact Hnm| |].
  { destruct g3 as [|g g3]; [done|]. cbn [forallb] in Hg3.
    apply andb_true_iff in Hg3 as [Hg _]. cbn [app stops].
    by apply space_not_word. }
  apply star_greedy_max; [exact Hg3|done|].
  change (chars "arguments:") with arguments_key. rewrite run_lit. cbv beta.
  apply star_greedy_max; [exact Hg4| |].
  { destruct body as [|b0 body]; [done|]. cbn [app stops].
    by apply negb_true_iff. }
  change (chars "</tool_call>") with closer.
  apply star_lazy_first.
  - apply forallb_forall. intros x _. apply orb_negb_r.
  - intros pre post Hsplit Hpost. apply run_lit_fail.
    by eapply closer_not_across.
  - rewrite run_lit. f_equal. f_equal.
    + unfold whole. repeat (rewrite ?length_app, ?length_cons). lia.
    + rewrite take_front.
      change (c :: nm ++ g3 ++ ?x) with ((c :: nm) ++ g3 ++ x).
      by rewrite take_front.
Qed.

Lemma skip_space_boundary (v t : list ascii) :
  Ctx.skip_space (v ++ "<"%char :: t) = Ctx.skip_space v ++ "<"%char :: t.
Proof.
  induction v as [|c v IH]; [done|]. cbn [app Ctx.skip_space].
  by destruct (Ascii.is_space c).
Qed.

(** Being headed is decided before a following boundary. *)
Lemma headed_boundary (u t : list ascii) :
  u <> [] -> at_boundary t -> headed (u ++ t) = true -> headed u = true.
Proof.
  intros Hu Ht. destruct t as [|x t]; [by rewrite app_nil_r|].
  cbn [at_boundary] in Ht. subst x.
  unfold headed. intros [Ho Hn]%andb_true_iff.
  destruct u as [|c u]; [done|].
  assert (c = "<"%char) as ->.
  { cbn [app starts_with opener] in Ho.
    change (chars "<tool_call>") with ("<"%char :: chars "tool_call>") in Ho.
    cbn [starts_with] in Ho. apply andb_true_iff in Ho as [Hc _].
    by apply Ascii.eqb_eq in Hc. }
  apply (starts_with_boundary "<" (chars "tool_call>") u ("<"%char :: t)) in Ho;
    [|done|done].
  change ("<"%char :: chars "tool_call>") with opener in Ho.
  rewrite Ho. cbn [andb].
  pose proof (starts_with_split _ _ Ho) as Hsplit.
  rewrite Hsplit in Hn at 1.
  rewrite <- app_assoc, drop_app_length, skip_space_boundary in Hn.
  by apply starts_with_clean in Hn.
Qed.

Lemma iterate_skip (r : regex) (a s : list ascii) :
  iterate r (a ++ s) (length a) = iterate r s 0.
Proof. induction a as [|x a IH]; [done|]. exact IH. Qed.

Lemma iterate_found (r : regex) (a s : list ascii) (caps : captures) :
  a <> [] -> match_at r (a ++ s) = Some (length a, caps) ->
  iterate r (a ++ s) 0 = caps :: iterate r s 0.
Proof.
  destruct a as [|c a]; [done|]. intros _ H.
  cbn [iterate app]. cbn [app] in H. rewrite H.
  cbn [length pred]. by rewrite iterate_skip.
Qed.

Lemma iterate_inert (f t : list ascii) :
  inert f = true -> at_boundary t ->
  iterate tool_regex (f ++ t) 0 = iterate tool_regex t 0.
Proof.
  intros Hf Ht. induction f as [|c f IH]; [done|].
  cbn [inert] in Hf. apply andb_true_iff in Hf as [Hh Hf].
  apply negb_true_iff in Hh.
  cbn [iterate app].
  destruct (match_at tool_regex (c :: f ++ t)) as [[n caps]|] eqn:Hm.
  - apply tool_regex_headed in Hm.
    apply (headed_boundary (c :: f) t) in Hm; [congruence|done|done].
  - by apply IH.
Qed.

(** No match anywhere in a text that lacks a piece every match holds. *)
Lemma iterate_without (p d : list ascii) (skip : nat) :
  (forall s n caps, match_at tool_regex s = Some (n, caps) ->
                    contains p s = true) ->
  contains p d = false -> iterate tool_regex d skip = [].
Proof.
  intros Hp. revert skip. induction d as [|c d IH]; intros skip Hd; [done|].
  cbn [iterate]. pose proof (contains_tail _ _ _ Hd) as Hd'.
  destruct skip as [|n]; [|by apply IH].
  destruct (match_at tool_regex (c :: d)) as [[n caps]|] eqn:Hm.
  - apply Hp in Hm. congruence.
  - by apply IH.
Qed.

Lemma render_block_boundary (b : Block) (s : list ascii) :
  at_boundary (render_block b ++ s).
Proof. done. Qed.

Lemma render_block_not_nil (b : Block) : render_block b <> [].
Proof. done. Qed.

(** The matches of a run of well-formed blocks, each followed by inert
    text, and closed by a text [d] without closing delimiter. *)
Lemma iterate_blocks (items : list (Block * list ascii)) (d : list ascii) :
  well_formed_items items -> at_boundary d -> contains closer d = false ->
  iterate tool_regex
    (flat_map (fun it => render_block it.1 ++ it.2) items ++ d) 0
  = block_captures <$> (fst <$> items).
Proof.
  intros Hitems Hd Hclose.
  induction Hitems as [|[b f] items [Hb Hf] _ IH].
  - simpl. apply (iterate_without closer); [apply tool_regex_closer|done].
  - cbn [flat_map fmap list_fmap fst snd]. rewrite <- !app_assoc.
    rewrite iterate_found with (caps := block_captures b);
      [|apply render_block_not_nil|by apply match_well_formed].
    f_equal. rewrite iterate_inert; [exact IH|exact Hf|].
    destruct items as [|[b' f'] items]; [exact Hd|].
    cbn [flat_map fst snd]. rewrite <- !app_assoc.
    apply render_block_boundary.
Qed.

Lemma collect_calls_blocks (n : nat) (bs : list Block) :
  collect_calls n (block_captures <$> bs) = calls_from n bs.
Proof.
  revert n. induction bs as [|b bs IH]; intros n; [done|].
  cbn [fmap list_fmap collect_calls calls_from]. rewrite <- IH. f_equal.
Qed.

(** The parse of a response made of well-formed blocks. *)
Lemma parse_blocks (f0 : list ascii) (items : list (Block * list ascii))
    (d : list ascii) :
  inert f0 = true -> well_formed_items items ->
  at_boundary d -> contains closer d = false ->
  parse_tool_calls (text (render f0 items ++ d))
  = calls_from 0 (fst <$> items).
Proof.
  intros Hf0 Hitems Hd Hclose.
  unfold parse_tool_calls, render. rewrite chars_text, <- app_assoc.
  rewrite iterate_inert; [|done|].
  - rewrite iterate_blocks by done. apply collect_calls_blocks.
  - destruct items as [|[b f] items]; [exact Hd|].
    cbn [flat_map fst snd]. rewrite <- !app_assoc.
    apply render_block_boundary.
Qed.

Lemma nat_to_string_inj (n m : nat) : nat_to_string n = nat_to_string m -> n = m.
Proof.
  unfold nat_to_string. intros H. apply DecimalNat.Unsigned.to_uint_inj.
  apply (f_equal NilEmpty.uint_of_string) in H.
  rewrite !NilEmpty.usu in H. congruence.
Qed.

Lemma call_id_inj (n m : nat) :
  "call_" +:+ nat_to_string n = "call_" +:+ nat_to_string m -> n = m.
Proof. intros [= H]. by apply nat_to_string_inj. Qed.

Lemma collect_calls_id (n : nat) (ms : list captures) (k : nat) (c : ToolCall) :
  collect_calls n ms !! k = Some c ->
  id c = "call_" +:+ nat_to_string (n + k).
Proof.
  revert n k. induction ms as [|m ms IH]; intros n k; [done|].
  destruct k as [|k]; cbn [collect_calls lookup list_lookup].
  - intros [= <-]. by rewrite Nat.add_0_r.
  - intros H. apply IH in H. by rewrite Nat.add_succ_r.
Qed.

Lemma collect_calls_NoDup (n : nat) (ms : list captures) :
  NoDup (id <$> collect_calls n ms).
Proof.
  revert n. induction ms as [|m ms IH]; intros n; [constructor|].
  cbn [collect_calls fmap list_fmap]. constructor; [|apply IH].
  intros (c & Hid & Hin)%list_elem_of_fmap.
  apply list_elem_of_lookup in Hin as [k Hk].
  apply collect_calls_id in Hk. rewrite Hk in Hid.
  apply call_id_inj in Hid. lia.
Qed.

Lemma calls_from_lookup (n k : nat) (bs : list Block) (b : Block) :
  bs !! k = Some b ->
  calls_from n bs !! k
  = Some (mkToolCall ("call_" +:+ nat_to_string (n + k))
            (text (block_name b)) (parse_arguments (block_body b))).
Proof.
  revert n k. induction bs as [|b' bs IH]; intros n k; [done|].
  destruct k as [|k]; cbn [calls_from lookup list_lookup].
  - intros [= ->]. by rewrite Nat.add_0_r.
  - intros H. rewrite Nat.add_succ_r. exact (IH (S n) k H).
Qed.

Lemma calls_from_length (n : nat) (bs : list Block) :
  length (calls_from n bs) = length bs.
Proof. revert n. induction bs as [|b bs IH]; intros n; simpl; [done|]. by rewrite IH. Qed.

End RegexFacts.

(** ** The parser on a bounded stack *)

Module StackFacts.
Import RegexFacts.

Section Agree.
Context {R : Type}.

Lemma star_greedy_on_agree (p : ascii -> bool) (s : list ascii) :
  forall (d : N) (k : list ascii -> option R) (kd : list ascii -> N -> Try R),
    (N.of_nat (length s) <= d)%N ->
    (forall s' d', (length s' <= length s)%nat ->
                   (N.of_nat (length s') <= d')%N ->
                   kd s' d' = settled (k s')) ->
    star_greedy_on p s d kd = settled (star_greedy p s k).
Proof.
  induction s as [|c s IH]; intros d k kd Hd Hk;
    cbn [star_greedy_on star_greedy].
  - by apply Hk.
  - destruct (p c); [|by apply Hk].
    unfold deeper. cbn [length] in Hd.
    replace (d =? 0)%N with false by (symmetry; apply N.eqb_neq; lia).
    rewrite (IH (d - 1)%N k kd); [|lia|].
    + destruct (star_greedy p s k); [done|]. by apply Hk.
    + intros s' d' Hs' Hd'. apply Hk; [cbn [length]; lia|done].
Qed.

Lemma star_lazy_on_agree (p : ascii -> bool) (s : list ascii) :
  forall (d : N) (k : list ascii -> option R) (kd : list ascii -> N -> Try R),
    (N.of_nat (length s) <= d)%N ->
    (forall s' d', (length s' <= length s)%nat ->
                   (N.of_nat (length s') <= d')%N ->
                   kd s' d' = settled (k s')) ->
    star_lazy_on p s d kd = settled (star_lazy p s k).
Proof.
  induction s as [|c s IH]; intros d k kd Hd Hk;
    cbn [star_lazy_on star_lazy]; rewrite (Hk _ d) by done.
  - by destruct (k []).
  - destruct (k (c :: s)); [done|]. cbn [settled].
    destruct (p c); [|done].
    unfold deeper. cbn [length] in Hd.
    replace (d =? 0)%N with false by (symmetry; apply N.eqb_neq; lia).
    apply IH; [lia|].
    intros s' d' Hs' Hd'. apply Hk; [cbn [length]; lia|done].
Qed.

(** On a stack that holds as many levels as the text has characters the
    bounded matcher decides as the matcher does. *)
Lemma run_on_agree (r : regex) :
  forall (s : list ascii) (d : N) (caps : captures)
         (k : list ascii -> captures -> option R)
         (kd : list ascii -> N -> captures -> Try R),
    (N.of_nat (length s) <= d)%N ->
    (forall s' d' caps', (length s' <= length s)%nat ->
                         (N.of_nat (length s') <= d')%N ->
                         kd s' d' caps' = settled (k s' caps')) ->
    run_on r s d caps kd = settled (run r s caps k).
Proof.
  induction r as [|c|p|p g|n r IH|r1 IH1 r2 IH2]; intros s d caps k kd Hd Hk;
    cbn [run_on run].
  - by apply Hk.
  - destruct s as [|x s]; [done|]. destruct (Ascii.eqb x c); [|done].
    unfold deeper. cbn [length] in Hd.
    replace (d =? 0)%N with false by (symmetry; apply N.eqb_neq; lia).
    apply Hk; [cbn [length]; lia|lia].
  - destruct s as [|x s]; [done|]. destruct (p x); [|done].
    unfold deeper. cbn [length] in Hd.
    replace (d =? 0)%N with false by (symmetry; apply N.eqb_neq; lia).
    apply Hk; [cbn [length]; lia|lia].
  - destruct g.
    + apply star_greedy_on_agree; [done|]. intros s' d' Hs' Hd'. by apply Hk.
    + apply star_lazy_on_agree; [done|]. intros s' d' Hs' Hd'. by apply Hk.
  - apply IH; [done|]. intros s' d' caps' Hs' Hd'. by apply Hk.
  - apply IH1; [done|]. intros s' d' caps' Hs' Hd'.
    apply IH2; [done|]. intros s'' d'' caps'' Hs'' Hd''.
    apply Hk; [lia|done].
Qed.

(** The sub-matches of a match are pieces of the text. *)
Lemma run_caps (r : regex) :
  forall (s : list ascii) (caps : captures)
         (k : list ascii -> captures -> option R) (res : R)
         (limit : nat) (Q : R -> Prop),
    (length s <= limit)%nat -> caps_within limit caps ->
    (forall s' caps', (length s' <= length s)%nat ->
                      caps_within limit caps' ->
                      k s' caps' = Some res -> Q res) ->
    run r s caps k = Some res -> Q res.
Proof.
  induction r as [|c|p|p g|n r IH|r1 IH1 r2 IH2];
    intros s caps k res limit Q Hs Hcaps Hk; cbn [run].
  - by apply Hk.
  - destruct s as [|x s]; [done|]. destruct (Ascii.eqb x c); [|done].
    apply Hk; [cbn [length]; lia|done].
  - destruct s as [|x s]; [done|]. destruct (p x); [|done].
    apply Hk; [cbn [length]; lia|done].
  - intros H.
    assert (Hsound : exists a b, s = a ++ b /\ k b caps = Some res).
    { destruct g.
      - apply star_greedy_sound in H as (a & b & -> & _ & Hb). by exists a, b.
      - apply star_lazy_sound in H as (a & b & -> & _ & Hb). by exists a, b. }
    destruct Hsound as (a & b & -> & Hb).
    apply (Hk b caps); [rewrite length_app; lia|done|done].
  - apply (IH s caps _ res limit Q Hs Hcaps).
    intros s' caps' Hs' Hcaps'. apply Hk; [done|].
    intros m v. destruct (decide (m = n)) as [->|Hne].
    + rewrite lookup_insert_eq. intros [= <-].
      rewrite length_take. lia.
    + rewrite lookup_insert_ne by done. apply Hcaps'.
  - apply (IH1 s caps _ res limit Q Hs Hcaps).
    intros s' caps' Hs' Hcaps'.
    apply (IH2 s' caps' k res limit Q); [lia|done|].
    intros s'' caps'' Hs'' Hcaps''. apply Hk; [lia|done].
Qed.

(** ** Running out of stack *)

Lemma run_on_lit (p s : list ascii) (d : N) (caps : captures)
    (k : list ascii -> N -> captures -> Try R) :
  run_on (lit p) (p ++ s) d caps k
  = if (N.of_nat (length p) <=? d)%N
    then k s (d - N.of_nat (length p))%N caps else Overflow.
Proof.
  revert d. induction p as [|c p IH]; intros d.
  - cbn [lit run_on app length]. change (N.of_nat 0) with 0%N.
    rewrite N.sub_0_r.
    by replace (0 <=? d)%N with true by (symmetry; apply N.leb_le; lia).
  - cbn [lit run_on app]. rewrite Ascii.eqb_refl. unfold deeper.
    destruct (N.eqb_spec d 0) as [->|Hd].
    + by destruct (N.leb_spec (N.of_nat (length (c :: p))) 0);
        [cbn [length] in *; lia|].
    + rewrite IH. cbn [length].
      destruct (N.leb_spec (N.of_nat (length p)) (d - 1));
        destruct (N.leb_spec (N.of_nat (S (length p))) d); try lia; [|done].
      f_equal. lia.
Qed.

Lemma run_on_lit_not_found (p s : list ascii) (d : N) (caps : captures)
    (k : list ascii -> N -> captures -> Try R) (res : R) :
  starts_with p s = false -> run_on (lit p) s d caps k <> Found res.
Proof.
  revert s d. induction p as [|c p IH]; intros s d; [done|].
  destruct s as [|x s]; [done|]. cbn [starts_with lit run_on].
  destruct (Ascii.eqb x c); cbn [andb]; [|done].
  intros Hs. unfold deeper. destruct (d =? 0)%N; [done|]. by apply IH.
Qed.

Lemma greedy_on_overflow (p : ascii -> bool) (a s : list ascii) (d : N)
    (k : list ascii -> N -> Try R) :
  forallb p a = true -> stops p s ->
  ((N.of_nat (length a) <= d)%N -> k s (d - N.of_nat (length a))%N = Overflow) ->
  star_greedy_on p (a ++ s) d k = Overflow.
Proof.
  intros Ha Hs. revert d. induction a as [|x a IH]; intros d Hk.
  - cbn [app]. cbn [length] in Hk. change (N.of_nat 0) with 0%N in Hk.
    rewrite N.sub_0_r in Hk. specialize (Hk ltac:(lia)).
    destruct s as [|c s]; cbn [star_greedy_on]; [done|].
    cbn [stops] in Hs. by rewrite Hs.
  - cbn [forallb] in Ha. apply andb_true_iff in Ha as [Hx Ha].
    cbn [app star_greedy_on]. rewrite Hx. unfold deeper.
    destruct (N.eqb_spec d 0) as [->|Hd]; [done|].
    rewrite (IH Ha (d - 1)%N); [done|].
    intros Hle. cbn [length] in Hk.
    replace (d - 1 - N.of_nat (length a))%N
      with (d - N.of_nat (S (length a)))%N by lia.
    apply Hk. lia.
Qed.

Lemma lazy_on_overflow (p : ascii -> bool) (a s : list ascii) (d : N)
    (k : list ascii -> N -> Try R) :
  forallb p a = true ->
  (forall pre post d' res, a = pre ++ post -> post <> [] ->
                           k (post ++ s) d' <> Found res) ->
  ((N.of_nat (length a) <= d)%N -> k s (d - N.of_nat (length a))%N = Overflow) ->
  star_lazy_on p (a ++ s) d k = Overflow.
Proof.
  intros Ha. revert d. induction a as [|x a IH]; intros d Hno Hk.
  - cbn [app]. cbn [length] in Hk. change (N.of_nat 0) with 0%N in Hk.
    rewrite N.sub_0_r in Hk. specialize (Hk ltac:(lia)).
    destruct s as [|c s]; cbn [star_lazy_on]; by rewrite Hk.
  - cbn [forallb] in Ha. apply andb_true_iff in Ha as [Hx Ha].
    cbn [app star_lazy_on].
    destruct (k (x :: a ++ s) d) as [| |res] eqn:Hhere; [done| |].
    2:{ by apply (Hno [] (x :: a) d res) in Hhere. }
    rewrite Hx. unfold deeper.
    destruct (N.eqb_spec d 0) as [->|Hd]; [done|].
    apply (IH Ha (d - 1)%N).
    + intros pre post d' res -> Hpost. by apply (Hno (x :: pre) post).
    + intros Hle. cbn [length] in Hk.
      replace (d - 1 - N.of_nat (length a))%N
        with (d - N.of_nat (S (length a)))%N by lia.
      apply Hk. lia.
Qed.

End Agree.

Lemma match_at_on_agree (r : regex) (s : list ascii) (d : N) :
  (N.of_nat (length s) <= d)%N ->
  match_at_on r s d = settled (match_at r s).
Proof.
  intros Hd. unfold match_at_on, match_at. by apply run_on_agree.
Qed.

Lemma match_at_caps (r : regex) (s : list ascii) (len : nat) (caps : captures) :
  match_at r s = Some (len, caps) -> caps_within (length s) caps.
Proof.
  unfold match_at.
  apply (run_caps r s ∅ _ (len, caps) (length s)
           (fun res => caps_within (length s) res.2)); [done|done|].
  intros s' caps' _ Hcaps' [= _ <-]. exact Hcaps'.
Qed.

Lemma iterate_on_agree (r : regex) (s : list ascii) (skip : nat) (d : N) :
  (N.of_nat (length s) <= d)%N ->
  iterate_on r s skip d = Some (iterate r s skip).
Proof.
  revert skip. induction s as [|c s IH]; intros skip Hd; [done|].
  cbn [length] in Hd. cbn [iterate_on iterate].
  destruct skip as [|n]; [|apply IH; lia].
  rewrite match_at_on_agree by (cbn [length]; lia).
  destruct (match_at r (c :: s)) as [[len caps]|]; cbn [settled].
  - by rewrite IH by lia.
  - apply IH. lia.
Qed.

Lemma iterate_caps (r : regex) (s : list ascii) (skip : nat) :
  Forall (caps_within (length s)) (iterate r s skip).
Proof.
  revert skip. induction s as [|c s IH]; intros skip; [constructor|].
  assert (Hmono : forall l, Forall (caps_within (length s)) l ->
                            Forall (caps_within (length (c :: s))) l).
  { intros l Hl. eapply Forall_impl; [exact Hl|]. intros caps H n v Hv.
    specialize (H n v Hv). cbn [length]. lia. }
  cbn [iterate]. destruct skip as [|n]; [|apply Hmono, IH].
  destruct (match_at r (c :: s)) as [[len caps]|] eqn:Hm;
    [|apply Hmono, IH].
  constructor; [by eapply match_at_caps|apply Hmono, IH].
Qed.

Lemma sub_within (limit : nat) (caps : captures) (n : nat) :
  caps_within limit caps -> (length (sub caps n) <= limit)%nat.
Proof.
  intros H. unfold sub. destruct (caps !! n) as [v|] eqn:Hv; simpl; [|lia].
  by apply (H n).
Qed.

Lemma parse_arguments_on_agree (d : N) (args_str : list ascii) :
  (N.of_nat (length args_str) <= d)%N ->
  parse_arguments_on d args_str = Some (parse_arguments args_str).
Proof.
  intros Hd. unfold parse_arguments_on, parse_arguments.
  by rewrite iterate_on_agree.
Qed.

Lemma collect_calls_on_agree (d : N) (limit : nat) (n : nat)
    (ms : list captures) :
  (N.of_nat limit <= d)%N -> Forall (caps_within limit) ms ->
  collect_calls_on d n ms = Some (collect_calls n ms).
Proof.
  intros Hd Hms. revert n. induction Hms as [|m ms Hm _ IH]; intros n; [done|].
  cbn [collect_calls_on collect_calls]. unfold make_call_on.
  rewrite parse_arguments_on_agree.
  - by rewrite IH.
  - pose proof (sub_within limit m 2 Hm). lia.
Qed.

(** Within the capacity of the stack the parser returns, and returns what
    the matcher finds. *)
Lemma parse_on_agree (d : N) (response : string) :
  (N.of_nat (String.length response) <= d)%N ->
  parse_tool_calls_on d response = Some (parse_tool_calls response).
Proof.
  intros Hd. rewrite <- chars_length in Hd.
  unfold parse_tool_calls_on, parse_tool_calls.
  rewrite iterate_on_agree by done.
  apply (collect_calls_on_agree d (length (chars response))); [done|].
  apply iterate_caps.
Qed.

Lemma collect_calls_on_calls (d : N) (n : nat) (ms : list captures)
    (calls : list ToolCall) :
  collect_calls_on d n ms = Some calls ->
  forall k c, calls !! k = Some c -> id c = "call_" +:+ nat_to_string (n + k).
Proof.
  revert n calls. induction ms as [|m ms IH]; intros n calls;
    cbn [collect_calls_on].
  - by intros [= <-].
  - unfold make_call_on.
    destruct (parse_arguments_on d (sub m 2)) as [args|]; [|done].
    destruct (collect_calls_on d (S n) ms) as [rest|] eqn:Hrest; [|done].
    intros [= <-] k c. destruct k as [|k]; cbn [lookup list_lookup].
    + intros [= <-]. by rewrite Nat.add_0_r.
    + intros H. apply (IH _ _ Hrest) in H. by rewrite Nat.add_succ_r.
Qed.

Lemma parse_on_id (d : N) (response : string) (calls : list ToolCall)
    (k : nat) (c : ToolCall) :
  parse_tool_calls_on d response = Some calls -> calls !! k = Some c ->
  id c = "call_" +:+ nat_to_string k.
Proof.
  unfold parse_tool_calls_on.
  destruct (iterate_on tool_regex (chars response) 0 d) as [ms|]; [|done].
  intros H Hk. by apply (collect_calls_on_calls _ _ _ _ H k c).
Qed.

Lemma parse_on_NoDup (d : N) (response : string) (calls : list ToolCall) :
  parse_tool_calls_on d response = Some calls -> NoDup (id <$> calls).
Proof.
  intros H. apply NoDup_alt. intros i j x Hi Hj.
  rewrite list_lookup_fmap in Hi, Hj.
  destruct (calls !! i) as [ci|] eqn:Hci; [|done].
  destruct (calls !! j) as [cj|] eqn:Hcj; [|done].
  injection Hi as <-. injection Hj as Hj.
  rewrite (parse_on_id _ _ _ _ _ H Hci), (parse_on_id _ _ _ _ _ H Hcj) in Hj.
  apply call_id_inj in Hj. done.
Qed.

(** A well-formed block that is longer than the stack is deep cannot be
    matched: the attempt at its opening delimiter overflows. *)
Lemma match_on_overflow (b : Block) (rest : list ascii) (d : N) :
  well_formed b = true ->
  (d < N.of_nat (length (render_block b)))%N ->
  match_at_on tool_regex (render_block b ++ rest) d = Overflow.
Proof.
  destruct b as [g1 g2 nm g3 g4 body].
  unfold well_formed, render_block.
  cbn [gap1 gap2 gap3 gap4 block_name block_body].
  rewrite !andb_true_iff, !negb_true_iff.
  intros ((((((((Hg1 & Hg2) & Hg3) & Hg4) & Hn3) & Hnm) & Hnn) & Hbody) & Hb0).
  apply bool_decide_eq_false in Hn3, Hnn.
  repeat (rewrite ?length_app, ?length_cons). intros Hd.
  unfold match_at_on, tool_regex.
  rewrite <- !app_assoc.
  set (whole := opener ++ _).
  cbn [seq run_on].
  unfold whole at 1. change (chars "<tool_call>") with opener.
  rewrite run_on_lit.
  destruct (N.leb_spec (N.of_nat (length opener)) d) as [H1|H1]; [|done].
  apply greedy_on_overflow; [exact Hg1|done|]. intros H2.
  change (chars "name:") with name_key. rewrite run_on_lit.
  destruct (N.leb_spec (N.of_nat (length name_key))
              (d - N.of_nat (length opener) - N.of_nat (length g1)))
    as [H3|H3]; [|done].
  destruct nm as [|c nm]; [done|].
  cbn [forallb] in Hnm. apply andb_true_iff in Hnm as [Hc Hnm].
  apply greedy_on_overflow; [exact Hg2| |].
  { cbn [app stops]. destruct (cls_space c) eqn:Hsp; [|done].
    apply space_not_word in Hsp. congruence. }
  intros H4. unfold plus. cbn [app run_on]. rewrite Hc. unfold deeper.
  match goal with |- context [(?x =? 0)%N] =>
    destruct (N.eqb_spec x 0) as [H5|H5]; [done|] end.
  apply greedy_on_overflow; [exact Hnm| |].
  { destruct g3 as [|g g3]; [done|]. cbn [forallb] in Hg3.
    apply andb_true_iff in Hg3 as [Hg _]. cbn [app stops].
    by apply space_not_word. }
  intros H6.
  apply greedy_on_overflow; [exact Hg3|done|]. intros H7.
  change (chars "arguments:") with arguments_key. rewrite run_on_lit.
  match goal with |- context [(?x <=? ?y)%N] =>
    destruct (N.leb_spec x y) as [H8|H8]; [|done] end.
  apply greedy_on_overflow; [exact Hg4| |].
  { destruct body as [|b0 body]; [done|]. cbn [app stops].
    by apply negb_true_iff. }
  intros H9.
  change (chars "</tool_call>") with closer.
  apply lazy_on_overflow.
  - apply forallb_forall. intros x _. apply orb_negb_r.
  - intros pre post d' res Hsplit Hpost. apply run_on_lit_not_found.
    by eapply closer_not_across.
  - intros H10. rewrite run_on_lit.
    match goal with |- context [(?x <=? ?y)%N] =>
      destruct (N.leb_spec x y) as [H11|H11]; [|done] end.
    exfalso. cbn [length] in *. lia.
Qed.

(** Such a block at the front of a response ends the parse. *)
Lemma parse_on_overflow (b : Block) (rest : list ascii) (d : N) :
  well_formed b = true ->
  (d < N.of_nat (length (render_block b)))%N ->
  parse_tool_calls_on d (text (render_block b ++ rest)) = None.
Proof.
  intros Hb Hd. unfold parse_tool_calls_on. rewrite chars_text.
  pose proof (match_on_overflow b rest d Hb Hd) as Hm.
  pose proof (render_block_not_nil b) as Hne.
  destruct (render_block b) as [|c l]; [done|].
  cbn [app iterate_on]. cbn [app] in Hm. by rewrite Hm.
Qed.

End StackFacts.

Module StackMore.
Import RegexFacts StackFacts.

Lemma text_length (l : list ascii) : String.length (text l) = length l.
Proof. by rewrite <- chars_length, chars_text. Qed.

Section Short.
Context {R : Type}.

(** A literal that is not there fails within its own length. *)
Lemma run_on_lit_fail (p s : list ascii) (d : N) (caps : captures)
    (k : list ascii -> N -> captures -> Try R) :
  starts_with p s = false -> (N.of_nat (length p) <= d)%N ->
  run_on (lit p) s d caps k = NoMatch.
Proof.
  revert s d. induction p as [|c p IH]; intros s d; [done|].
  destruct s as [|x s]; [done|]. cbn [starts_with lit run_on length].
  destruct (Ascii.eqb x c); cbn [andb]; [|done].
  intros Hs Hd. unfold deeper.
  replace (d =? 0)%N with false by (symmetry; apply N.eqb_neq; lia).
  apply IH; [done|lia].
Qed.

End Short.

(** A text without opening delimiter is searched without going deeper
    than the delimiter is long. *)
Lemma iterate_on_without_opener (s : list ascii) (skip : nat) (d : N) :
  contains opener s = false -> (N.of_nat (length opener) <= d)%N ->
  iterate_on tool_regex s skip d = Some [].
Proof.
  intros Hs Hd. revert skip Hs. induction s as [|c s IH]; intros skip Hs; [done|].
  pose proof (contains_tail _ _ _ Hs) as Hs'.
  cbn [iterate_on]. destruct skip as [|n]; [|by apply IH].
  assert (Hm : match_at_on tool_regex (c :: s) d = NoMatch).
  { unfold match_at_on, tool_regex. cbn [seq run_on].
    change (chars "<tool_call>") with opener.
    apply run_on_lit_fail; [|done].
    destruct (starts_with opener (c :: s)) eqn:Hst; [|done].
    apply contains_starts in Hst. congruence. }
  rewrite Hm. by apply IH.
Qed.

End StackMore.

(** ** parse_tool_calls on whole responses *)

(** C4 (as amended).  A response made of N well-formed blocks, with text
    in front and after each block in which no block starts, that is not
    longer than the stack lets the matcher go deep, is parsed into exactly N
    requests: the k-th request has the id call_k, the name of the k-th block
    and the arguments read from its body.  Whenever the parser returns, the
    request at position k has the id call_k, so the numbering starts at
    call_0 in each parse and the ids of one response are pairwise
    different. *)
Theorem parse_well_formed_blocks :
  (forall (depth : N) (f0 : list ascii) (items : list (Block * list ascii)),
      inert f0 = true -> well_formed_items items ->
      (N.of_nat (length (render f0 items)) <= depth)%N ->
      exists calls,
        parse_tool_calls_on depth (text (render f0 items)) = Some calls
        /\ calls = calls_from 0 (fst <$> items)
        /\ length calls = length items
        /\ forall k b, (fst <$> items) !! k = Some b ->
             calls !! k
             = Some (mkToolCall ("call_" +:+ nat_to_string k)
                       (text (block_name b)) (parse_arguments (block_body b))))
  /\ (forall (depth : N) (response : string) (calls : list ToolCall)
             (k : nat) (c : ToolCall),
        parse_tool_calls_on depth response = Some calls ->
        calls !! k = Some c ->
        id c = "call_" +:+ nat_to_string k)
  /\ (forall (depth : N) (response : string) (calls : list ToolCall),
        parse_tool_calls_on depth response = Some calls ->
        NoDup (id <$> calls)).
Proof.
  split; [|split].
  - intros depth f0 items Hf0 Hitems Hdepth.
    pose proof (RegexFacts.parse_blocks f0 items [] Hf0 Hitems I eq_refl)
      as Hparse.
    rewrite app_nil_r in Hparse.
    exists (calls_from 0 (fst <$> items)). split.
    { rewrite StackFacts.parse_on_agree; [by rewrite Hparse|].
      by rewrite StackMore.text_length. }
    split; [done|]. split.
    + by rewrite RegexFacts.calls_from_length, length_fmap.
    + intros k b Hb. by rewrite (RegexFacts.calls_from_lookup 0 k _ b Hb).
  - intros depth response calls k c H Hk.
    by apply (StackFacts.parse_on_id depth response calls).
  - intros depth response calls. apply StackFacts.parse_on_NoDup.
Qed.

Lemma parse_well_formed_blocks_witness :
  exists calls,
    parse_tool_calls_on 40000 (text (render sample_lead sample_items))
    = Some calls
    /\ calls = [ mkToolCall "call_0" "read_file" {[ "path" := "a.txt" ]};
                 mkToolCall "call_1" "shell" {[ "command" := "ls" ]} ].
Proof.
  destruct parse_well_formed_blocks as [H _].
  destruct (H 40000%N sample_lead sample_items) as (calls & Hp & Hc & _).
  - reflexivity.
  - repeat constructor.
  - vm_compute. discriminate.
  - exists calls. split; [exact Hp|]. rewrite Hc. reflexivity.
Defined.

(** C4 fails as stated: a block in the documented layout whose body has
    40000 characters is well formed, and on a stack that holds 40000 levels
    of the matcher the parse of the response made of this block returns
    nothing. *)
Lemma parse_long_block_counterexample :
  well_formed (long_block 40000) = true
  /\ parse_tool_calls_on 40000
       (text (render_block (long_block 40000) ++ [])) = None.
Proof.
  split; [by vm_compute|].
  apply StackFacts.parse_on_overflow; [by vm_compute|].
  by vm_compute.
Qed.

(** C5 (as amended).  On a response that is not longer than the stack lets
    the matcher go deep the parser returns.  A response without any
    closing delimiter or without any name key then yields the empty list,
    and a response without any opening delimiter yields the empty list
    whatever its length (on a stack that holds the delimiter).  In a
    response of well-formed blocks a block without name field counts as
    text between blocks, and an opening delimiter that no closing delimiter
    follows contributes nothing: the requests are those of the well-formed
    blocks before it. *)
Theorem parse_skips_incomplete_blocks :
  forall depth : N,
    (forall response : string,
        (N.of_nat (String.length response) <= depth)%N ->
        exists calls, parse_tool_calls_on depth response = Some calls)
    /\ (forall response : string,
          (N.of_nat (String.length response) <= depth)%N ->
          contains closer (chars response) = false ->
          parse_tool_calls_on depth response = Some [])
    /\ (forall response : string,
          (N.of_nat (String.length response) <= depth)%N ->
          contains name_key (chars response) = false ->
          parse_tool_calls_on depth response = Some [])
    /\ (forall response : string,
          (N.of_nat (length opener) <= depth)%N ->
          contains opener (chars response) = false ->
          parse_tool_calls_on depth response = Some [])
    /\ (forall (f0 : list ascii) (items : list (Block * list ascii))
               (tail : list ascii),
          inert f0 = true -> well_formed_items items ->
          contains closer (opener ++ tail) = false ->
          (N.of_nat (length (render f0 items ++ opener ++ tail)) <= depth)%N ->
          parse_tool_calls_on depth (text (render f0 items ++ opener ++ tail))
          = Some (calls_from 0 (fst <$> items))).
Proof.
  intros depth. split; [|split; [|split; [|split]]].
  - intros response Hd. exists (parse_tool_calls response).
    by apply StackFacts.parse_on_agree.
  - intros response Hd H. rewrite StackFacts.parse_on_agree by done.
    unfold parse_tool_calls.
    by rewrite (RegexFacts.iterate_without closer _ _
                  RegexFacts.tool_regex_closer H).
  - intros response Hd H. rewrite StackFacts.parse_on_agree by done.
    unfold parse_tool_calls.
    by rewrite (RegexFacts.iterate_without name_key _ _
                  RegexFacts.tool_regex_name_key H).
  - intros response Hd H. unfold parse_tool_calls_on.
    by rewrite StackMore.iterate_on_without_opener.
  - intros f0 items tail Hf0 Hitems Htail Hd.
    rewrite StackFacts.parse_on_agree
      by (by rewrite StackMore.text_length).
    f_equal. by apply RegexFacts.parse_blocks.
Qed.

Lemma parse_skips_incomplete_blocks_witness :
  parse_tool_calls_on 40000 "I will answer without tools: 3 < 4." = Some []
  /\ parse_tool_calls_on 40000
       (text (render sample_lead sample_items ++ opener ++ sample_tail))
     = Some [ mkToolCall "call_0" "read_file" {[ "path" := "a.txt" ]};
              mkToolCall "call_1" "shell" {[ "command" := "ls" ]} ].
Proof.
  destruct (parse_skips_incomplete_blocks 40000) as (_ & H1 & _ & _ & H4).
  split.
  - apply H1; [vm_compute; discriminate|reflexivity].
  - rewrite (H4 sample_lead sample_items sample_tail).
    + reflexivity.
    + reflexivity.
    + repeat constructor.
    + reflexivity.
    + vm_compute. discriminate.
Defined.

(** C5 fails as stated, in two ways.  A block whose closing delimiter is
    missing is not skipped when a later block brings a closing delimiter:
    the request returned carries the name of the unterminated block, and
    the complete block, which alone gives a request named b, ends up among
    its arguments.  And the parser does not return on every text: on a
    stack that holds 40000 levels of the matcher, a response that starts
    with a block of 40000 characters of body overflows it. *)
Lemma parse_unterminated_block_counterexample :
  parse_tool_calls (block_text "b" ("  y: 2" +:+ nl))
  = [ mkToolCall "call_0" "b" {[ "y" := "2" ]} ]
  /\ parse_tool_calls unterminated_then_block
     = [ mkToolCall "call_0" "a"
           {[ "x" := "1"; "name" := "b"; "arguments" := "y: 2" ]} ]
  /\ parse_tool_calls_on 40000 unterminated_then_block
     = Some [ mkToolCall "call_0" "a"
                {[ "x" := "1"; "name" := "b"; "arguments" := "y: 2" ]} ]
  /\ parse_tool_calls_on 40000
       (text (render_block (long_block 40000) ++ chars " Done."))
     = None.
Proof.
  split; [vm_compute; reflexivity|]. split; [vm_compute; reflexivity|].
  split; [vm_compute; reflexivity|].
  apply StackFacts.parse_on_overflow; by vm_compute.
Qed.

(* ===================================================================== *)
(** * Part III: further properties                                        *)
(* ===================================================================== *)

(** Proves [Forall P l] for a list written out, element by element. *)
Ltac each_element tac :=
  repeat first [apply List.Forall_nil | apply List.Forall_cons; [tac|]].

(** ** Context *)

Module CtxMore.
Import Ctx CtxFacts.

Lemma evict_last (msgs : list Message) :
  (2 < length msgs)%nat -> last (evict msgs) = last msgs.
Proof.
  unfold evict, oldest_unpinned.
  destruct msgs as [|m [|m2 [|m3 rest]]]; simpl; try lia.
  intros _. by destruct (is_system m).
Qed.

Lemma trim_loop_last (fuel : nat) (max : N) (msgs : list Message) :
  last (trim_loop fuel max msgs) = last msgs.
Proof.
  revert msgs. induction fuel as [|fuel IH]; intros msgs; simpl.
  - by destruct (_ && _).
  - destruct ((max <? estimate msgs)%N && (2 <? length msgs)%nat) eqn:Hc;
      [|done].
    apply over_budget_test in Hc as [_ Hlen].
    rewrite IH, erase_oldest_evict. by apply evict_last.
Qed.

Lemma trim_loop_within (fuel : nat) (max : N) (msgs : list Message) :
  ~ over_budget max msgs -> trim_loop fuel max msgs = msgs.
Proof.
  intros H. rewrite <- over_budget_test in H.
  destruct fuel; simpl; by destruct (_ && _).
Qed.

Lemma estimate_from (msgs : list Message) (a : N) :
  fold_left
    (fun total msg => (total + N.of_nat (String.length (content msg)) / 4)%N)
    msgs a = (a + estimate msgs)%N.
Proof.
  unfold estimate. revert a. induction msgs as [|m msgs IH]; intros a; simpl.
  - lia.
  - rewrite IH, (IH (0 + _)%N). lia.
Qed.

Lemma estimate_cons (m : Message) (msgs : list Message) :
  estimate (m :: msgs)
  = (N.of_nat (String.length (content m)) / 4 + estimate msgs)%N.
Proof. unfold estimate at 1. simpl. by rewrite estimate_from. Qed.

Lemma estimate_app (a b : list Message) :
  estimate (a ++ b) = (estimate a + estimate b)%N.
Proof.
  induction a as [|m a IH]; [done|].
  simpl. rewrite !estimate_cons, IH. lia.
Qed.

Lemma estimate_evict (msgs : list Message) :
  (estimate (evict msgs) <= estimate msgs)%N.
Proof.
  unfold evict, oldest_unpinned.
  destruct msgs as [|m [|m2 rest]]; [done| |];
    destruct (is_system m); simpl; rewrite ?estimate_cons;
    change (estimate []) with 0%N;
    repeat match goal with
           | |- context [(?a / 4)%N] => generalize (a / 4)%N; intro
           end; lia.
Qed.

Lemma estimate_iter_evict (k : nat) (msgs : list Message) :
  (estimate (Nat.iter k evict msgs) <= estimate msgs)%N.
Proof.
  induction k as [|k IH]; [done|]. simpl.
  etrans; [apply estimate_evict|exact IH].
Qed.

Lemma estimate_short (msgs : list Message) :
  Forall (fun m => (String.length (content m) < 4)%nat) msgs ->
  estimate msgs = 0%N.
Proof.
  induction 1 as [|m msgs Hm _ IH]; [done|].
  rewrite estimate_cons, IH.
  rewrite N.div_small; [done|]. lia.
Qed.

Lemma trim_loop_settled (c : Context) :
  ~ over_budget (max_tokens_ c) (messages_ (trim_if_needed c)).
Proof.
  destruct (trim_loop_evictions (length (messages_ c)) (max_tokens_ c)
              (messages_ c)) as (k & _ & _ & H); [lia|exact H].
Qed.

Lemma load_loop_saved_then (msgs : list Message) (fuel : nat)
    (rest : list ascii) (acc : list Message) :
  Forall (fun m => Z.of_nat (String.length (content m)) < 2 ^ 64) msgs ->
  load_loop (length msgs + fuel) (chars (save_text msgs) ++ rest) acc
  = load_loop fuel rest (acc ++ (persisted <$> msgs)).
Proof.
  revert acc. induction msgs as [|m msgs IH]; intros acc Hall.
  - by rewrite app_nil_r.
  - apply Forall_cons in Hall as [Hm Hall].
    unfold save_text. rewrite fmap_cons, concat_cons, chars_app, <- app_assoc.
    cbn [length Nat.add].
    rewrite PersistFacts.load_loop_record by done.
    fold (save_text msgs). rewrite IH by done. by rewrite <- app_assoc.
Qed.

Lemma load_loop_stop (fuel : nat) (l : list ascii) (acc : list Message) :
  extract_int l = None -> load_loop fuel l acc = Some acc.
Proof. intros H. destruct fuel; simpl; [done|]. by rewrite H. Qed.

End CtxMore.

(** X1.  The turn just appended is never the one evicted: it is the last turn
    afterwards, at most one turn was gained, and the estimate is not above
    that of the untrimmed history. *)
Theorem add_message_keeps_appended :
  forall (c : Ctx.Context) (m : Message),
    last (Ctx.messages_ (Ctx.add_message c m)) = Some m
    /\ (length (Ctx.messages_ (Ctx.add_message c m))
        <= S (length (Ctx.messages_ c)))%nat
    /\ (Ctx.estimate_tokens (Ctx.add_message c m)
        <= Ctx.estimate (Ctx.messages_ c ++ [m]))%N.
Proof.
  intros c m. split; [|split].
  - unfold Ctx.add_message, Ctx.trim_if_needed. cbn [Ctx.messages_].
    rewrite CtxMore.trim_loop_last. apply last_snoc.
  - destruct (CtxFacts.trim_loop_evictions
                (length (Ctx.messages_ c ++ [m])) (Ctx.max_tokens_ c)
                (Ctx.messages_ c ++ [m])) as (k & Hk & _); [lia|].
    unfold Ctx.add_message, Ctx.trim_if_needed.
    cbn [Ctx.messages_ Ctx.max_tokens_]. rewrite Hk.
    pose proof (sublist_length _ _
                  (CtxFacts.iter_evict_sublist k (Ctx.messages_ c ++ [m])))
      as Hlen.
    rewrite length_app in Hlen. cbn [length] in Hlen. lia.
  - destruct (CtxFacts.trim_loop_evictions
                (length (Ctx.messages_ c ++ [m])) (Ctx.max_tokens_ c)
                (Ctx.messages_ c ++ [m])) as (k & Hk & _); [lia|].
    unfold Ctx.estimate_tokens, Ctx.add_message, Ctx.trim_if_needed.
    cbn [Ctx.messages_ Ctx.max_tokens_]. rewrite Hk.
    apply CtxMore.estimate_iter_evict.
Qed.

(** X2.  Trimming a trimmed context changes nothing, and within the budget (or
    with at most two turns) appending only appends. *)
Theorem trim_settles :
  forall (c : Ctx.Context) (m : Message),
    Ctx.trim_if_needed (Ctx.trim_if_needed c) = Ctx.trim_if_needed c
    /\ (~ over_budget (Ctx.max_tokens_ c) (Ctx.messages_ c ++ [m]) ->
        Ctx.messages_ (Ctx.add_message c m) = Ctx.messages_ c ++ [m]).
Proof.
  intros c m. split.
  - pose proof (CtxMore.trim_loop_settled c) as H.
    unfold Ctx.trim_if_needed at 1. cbn [Ctx.max_tokens_ Ctx.trim_if_needed].
    rewrite CtxMore.trim_loop_within; [|exact H].
    by destruct c.
  - intros H. unfold Ctx.add_message, Ctx.trim_if_needed.
    cbn [Ctx.messages_ Ctx.max_tokens_]. by apply CtxMore.trim_loop_within.
Qed.

Lemma trim_settles_witness :
  Ctx.messages_ (Ctx.add_message Ctx.new (Message_user "hello" []))
  = [Message_user "hello" []].
Proof.
  apply (proj2 (trim_settles Ctx.new (Message_user "hello" []))).
  intros [_ H]. cbn in H. lia.
Defined.

(** X3.  The estimate is the sum over the turns of a quarter of the content
    length, rounded down: an empty history costs nothing, one turn costs
    its content length divided by four, and the estimate is additive.
    Turns of fewer than four characters therefore cost nothing, and a
    history of such turns is never trimmed, whatever the budget. *)
Theorem short_turns_are_free :
  forall (c : Ctx.Context) (m : Message) (a b : list Message),
    Ctx.estimate [] = 0%N
    /\ Ctx.estimate [m] = (N.of_nat (String.length (content m)) / 4)%N
    /\ Ctx.estimate (a ++ b) = (Ctx.estimate a + Ctx.estimate b)%N
    /\ (Forall (fun x => (String.length (content x) < 4)%nat)
               (Ctx.messages_ c ++ [m]) ->
        Ctx.messages_ (Ctx.add_message c m) = Ctx.messages_ c ++ [m]).
Proof.
  intros c m a b. split; [done|]. split; [done|].
  split; [apply CtxMore.estimate_app|].
  intros Hshort. unfold Ctx.add_message, Ctx.trim_if_needed.
  cbn [Ctx.messages_ Ctx.max_tokens_]. apply CtxMore.trim_loop_within.
  intros [Hover _]. rewrite (CtxMore.estimate_short _ Hshort) in Hover. lia.
Qed.

Lemma short_turns_are_free_witness :
  Ctx.messages_
    (Ctx.add_message
       (Ctx.mkContext [Message_user "abc" []; Message_assistant "ok";
                       Message_user "x" []] 0)
       (Message_user "hey" []))
  = [Message_user "abc" []; Message_assistant "ok"; Message_user "x" [];
     Message_user "hey" []].
Proof.
  apply (proj2 (proj2 (proj2 (short_turns_are_free
                  (Ctx.mkContext [Message_user "abc" []; Message_assistant "ok";
                                  Message_user "x" []] 0)
                  (Message_user "hey" []) [] [])))).
  each_element ltac:(cbn; lia).
Defined.

(** X4.  clear keeps every System turn, in order, and nothing else; clearing
    twice is clearing once. *)
Theorem clear_keeps_system_turns :
  forall c : Ctx.Context,
    Forall (fun m => role m = System) (Ctx.messages_ (Ctx.clear c))
    /\ (forall m, m ∈ Ctx.messages_ c -> role m = System ->
                  m ∈ Ctx.messages_ (Ctx.clear c))
    /\ Ctx.messages_ (Ctx.clear c) `sublist_of` Ctx.messages_ c
    /\ Ctx.clear (Ctx.clear c) = Ctx.clear c.
Proof.
  intros [msgs max]. unfold Ctx.clear. cbn [Ctx.messages_ Ctx.max_tokens_].
  assert (Hsys : forall m, Ctx.is_system m = true <-> role m = System).
  { intros m. unfold Ctx.is_system. by destruct (role m). }
  split; [|split; [|split]].
  - apply Forall_forall. intros m [_ Hm]%list_elem_of_In%filter_In.
    by apply Hsys.
  - intros m Hm Hr. apply list_elem_of_In, filter_In.
    split; [by apply list_elem_of_In|by apply Hsys].
  - induction msgs as [|m msgs IH]; [done|]. simpl.
    destruct (Ctx.is_system m); by constructor.
  - f_equal. induction msgs as [|m msgs IH]; [done|]. simpl.
    destruct (Ctx.is_system m) eqn:Hm; simpl; [|done]. by rewrite Hm, IH.
Qed.

Lemma clear_keeps_system_turns_witness :
  Message_system "t"
  ∈ Ctx.messages_
      (Ctx.clear (Ctx.mkContext [Message_system "s"; Message_user "u" [];
                                 Message_system "t"] 16000)).
Proof.
  destruct (clear_keeps_system_turns
              (Ctx.mkContext [Message_system "s"; Message_user "u" [];
                              Message_system "t"] 16000)) as (_ & H & _).
  apply H; [|reflexivity]. cbn [Ctx.messages_].
  rewrite !elem_of_cons. right. right. by left.
Defined.

(** X5.  Whatever follows the saved records and cannot be read as a role number
    is ignored by load: the records before it are returned. *)
Theorem load_ignores_trailing_text :
  forall (msgs : list Message) (junk : string),
    Forall (fun m => Z.of_nat (String.length (content m)) < 2 ^ 64) msgs ->
    Ctx.extract_int (chars junk) = None ->
    Ctx.load_text (Ctx.save_text msgs +:+ junk) = Some (persisted <$> msgs).
Proof.
  intros msgs junk Hall Hjunk. unfold Ctx.load_text.
  rewrite chars_app.
  assert (Hfuel : exists k, String.length (Ctx.save_text msgs +:+ junk)
                            = (length msgs + k)%nat).
  { exists (String.length (Ctx.save_text msgs +:+ junk) - length msgs)%nat.
    pose proof (PersistFacts.save_text_length msgs) as Hlen.
    rewrite <- (chars_length (_ +:+ _)), chars_app, length_app, !chars_length.
    lia. }
  destruct Hfuel as [k ->].
  rewrite CtxMore.load_loop_saved_then by done.
  by apply CtxMore.load_loop_stop.
Qed.

Lemma load_ignores_trailing_text_witness :
  Ctx.load_text
    (Ctx.save_text [Message_user "hi" ["i.png"]; Message_assistant "yo"]
     +:+ "end of file")
  = Some [mkMessage User "hi" None None []; Message_assistant "yo"].
Proof.
  apply (load_ignores_trailing_text
           [Message_user "hi" ["i.png"]; Message_assistant "yo"] "end of file").
  - each_element ltac:(reflexivity).
  - reflexivity.
Defined.

Module MemoryFacts.
Import Ctx.





Lemma load_loop_in_agree (mem : Memory) (fuel : nat) (l : list ascii)
    (acc : list Message) :
  (forall n, can_allocate mem n = true) ->
  load_loop_in mem fuel l acc
  = (fun msgs => (Returns tt, msgs)) <$> load_loop fuel l acc.
Proof.
  intros Hmem. revert l acc.
  induction fuel as [|fuel IH]; intros l acc; [done|].
  cbn [load_loop_in load_loop].
  destruct (extract_int l) as [[role_int l1]|]; [|done].
  destruct (extract_size l1) as [[content_len l2]|]; [|done].
  rewrite Hmem. destruct (role_of_int role_int); [apply IH|done].
Qed.

Lemma load_in_agree (mem : Memory) (c : Context) (path : string)
    (fs : FileSystem) :
  (forall n, can_allocate mem n = true) ->
  load_in mem c path fs
  = (fun r : bool * Context => (Returns r.1, r.2)) <$> load c path fs.
Proof.
  intros Hmem. unfold load_in, load, load_text_in, load_text.
  destruct (files fs !! path) as [file|]; [|done].
  destruct (can_read fs path); [|done].
  rewrite load_loop_in_agree by done.
  by destruct (load_loop _ _ _).
Qed.

End MemoryFacts.



(** ** The registry *)

Section RegistryMore.
Context {World : Type}.
Implicit Types (reg : gmap string (ToolImpl World)) (w : World).

Lemma key_le_trans : Transitive (@key_le World).
Proof. intros [a ?] [b ?] [c ?]. unfold key_le. simpl. apply transitivity. Qed.

Lemma key_le_total : Total (@key_le World).
Proof. intros [a ?] [b ?]. unfold key_le. simpl. apply total, _. Qed.

#[local] Existing Instances key_le_trans key_le_total.

Lemma get_all_tools_entries reg w :
  get_all_tools reg w
  = (filter (fun e : string * ToolImpl World => is_available e.2 w = true) (merge_sort key_le (map_to_list reg))).*2.
Proof.
  unfold get_all_tools, in_key_order.
  induction (merge_sort key_le (map_to_list reg)) as [|[n t] l IH]; [done|].
  rewrite fmap_cons, !filter_cons. simpl.
  destruct (decide (is_available t w = true)); simpl; by rewrite IH.
Qed.

Lemma entries_sorted reg w :
  StronglySorted key_le
    (filter (fun e : string * ToolImpl World => is_available e.2 w = true) (merge_sort key_le (map_to_list reg))).
Proof.
  pose proof (StronglySorted_merge_sort key_le (map_to_list reg)) as Hs.
  induction Hs as [|e l Hs IH He]; [constructor|].
  rewrite filter_cons. destruct (decide _); [|done].
  constructor; [done|]. apply Forall_forall. intros e' [_ He']%list_elem_of_filter.
  by eapply Forall_forall in He.
Qed.

Lemma entries_elem reg w (e : string * ToolImpl World) :
  e ∈ filter (fun e : string * ToolImpl World => is_available e.2 w = true) (merge_sort key_le (map_to_list reg))
  <-> is_available e.2 w = true /\ reg !! e.1 = Some e.2.
Proof.
  rewrite list_elem_of_filter, merge_sort_Permutation.
  destruct e as [n t]. by rewrite elem_of_map_to_list.
Qed.

Lemma entries_NoDup reg w :
  NoDup (filter (fun e : string * ToolImpl World => is_available e.2 w = true) (merge_sort key_le (map_to_list reg))).*1.
Proof.
  set (l := merge_sort key_le (map_to_list reg)).
  assert (Hsub : (filter (fun e : string * ToolImpl World => is_available e.2 w = true) l).*1 `sublist_of` l.*1)
    by apply fmap_sublist, sublist_filter.
  apply (sublist_NoDup _ (l.*1)); [|exact Hsub]. unfold l.
  rewrite merge_sort_Permutation. apply NoDup_fst_map_to_list.
Qed.

Lemma names_agree_register reg (o : option (ToolImpl World)) :
  names_agree reg -> names_agree (register_tool o reg).
Proof.
  intros Hreg. destruct o as [t|]; [|done]. simpl.
  intros n t'. destruct (decide (tool_name_of t = n)) as [<-|Hne].
  - rewrite lookup_insert_eq. by intros [= <-].
  - rewrite lookup_insert_ne by done. apply Hreg.
Qed.

Lemma entries_names reg w :
  names_agree reg ->
  tool_name_of <$> get_all_tools reg w
  = (filter (fun e : string * ToolImpl World => is_available e.2 w = true) (merge_sort key_le (map_to_list reg))).*1.
Proof.
  intros Hreg. rewrite get_all_tools_entries, <- list_fmap_compose.
  apply Forall_fmap_ext, Forall_forall.
  intros [n t] [_ Ht]%entries_elem. simpl in *. by apply Hreg.
Qed.

Lemma get_all_tools_elem reg w (t : ToolImpl World) :
  t ∈ get_all_tools reg w
  <-> is_available t w = true /\ exists n, reg !! n = Some t.
Proof.
  rewrite get_all_tools_entries, list_elem_of_fmap. split.
  - intros ([n t'] & -> & [Hav Hreg]%entries_elem). eauto.
  - intros (Hav & n & Hreg). exists (n, t). split; [done|].
    by apply entries_elem.
Qed.

Lemma get_all_tools_sorted reg w :
  names_agree reg ->
  StronglySorted String.le (tool_name_of <$> get_all_tools reg w)
  /\ NoDup (tool_name_of <$> get_all_tools reg w).
Proof.
  intros Hreg. rewrite entries_names by done. split; [|apply entries_NoDup].
  apply (StronglySorted_fmap fst key_le String.le);
    [done|apply entries_sorted].
Qed.

(** The entries of a registry in which one name holds an unavailable tool
    or nothing are the same, whatever that name holds. *)
Lemma entries_without reg w (n : string) :
  (forall t, reg !! n = Some t -> is_available t w = false) ->
  filter (fun e : string * ToolImpl World => is_available e.2 w = true) (merge_sort key_le (map_to_list reg))
  = filter (fun e : string * ToolImpl World => is_available e.2 w = true)
      (merge_sort key_le (map_to_list (delete n reg))).
Proof.
  intros Hn. apply (StronglySorted_unique_strong key_le);
    [|apply entries_sorted..|].
  - intros [n1 t1] [n2 t2] H1 [_ H2]%entries_elem Hle1 Hle2.
    apply entries_elem in H1 as [Hav H1]. simpl in *.
    assert (n1 = n2) as -> by (by apply (anti_symm String.le)).
    destruct (decide (n2 = n)) as [->|Hne].
    + by rewrite lookup_delete_eq in H2.
    + rewrite lookup_delete_ne in H2 by done. congruence.
  - rewrite !merge_sort_Permutation.
    destruct (reg !! n) as [t|] eqn:Hreg.
    + rewrite <- (insert_delete_id reg n t) at 1 by done.
      rewrite map_to_list_insert by apply lookup_delete_eq.
      rewrite filter_cons_False; [done|]. simpl. rewrite (Hn t) by done.
      done.
    + by rewrite delete_id.
Qed.

Lemma get_all_tools_register_unavailable reg w (t : ToolImpl World) :
  is_available t w = false ->
  (forall t0, reg !! tool_name_of t = Some t0 -> is_available t0 w = false) ->
  get_all_tools (register_tool (Some t) reg) w = get_all_tools reg w.
Proof.
  intros Ht Hold. rewrite !get_all_tools_entries. f_equal. simpl.
  rewrite (entries_without (<[_:=_]> reg) w (tool_name_of t)).
  - rewrite delete_insert_eq. symmetry. by apply entries_without.
  - intros t0. rewrite lookup_insert_eq. by intros [= <-].
Qed.

End RegistryMore.

(** X7.  Registering a tool puts it under its own name, in place of whatever
    was registered under that name, and leaves every other name alone: a
    call of that name is carried out as if the tool were alone in the
    registry, a call of another name as if nothing had been registered.
    Registering a null pointer changes nothing. *)
Theorem register_then_execute :
  forall (World : Type) (reg : gmap string (ToolImpl World))
         (t : ToolImpl World) (call : ToolCall) (w : World),
    get_tool (register_tool (Some t) reg) (tool_name_of t) = Some t
    /\ (name call = tool_name_of t ->
        registry_execute (register_tool (Some t) reg) call w
        = registry_execute {[tool_name_of t := t]} call w)
    /\ (name call <> tool_name_of t ->
        registry_execute (register_tool (Some t) reg) call w
        = registry_execute reg call w)
    /\ register_tool None reg = reg.
Proof.
  intros World reg t call w. unfold registry_execute, get_tool, register_tool.
  split; [apply lookup_insert_eq|]. split; [|split; [|done]].
  - intros ->. by rewrite lookup_insert_eq, lookup_singleton_eq.
  - intros Hne. by rewrite lookup_insert_ne.
Qed.

Lemma register_then_execute_witness :
  registry_execute (register_tool (Some echo_tool) sample_registry)
    (sample_call "echo") tt
  = registry_execute {[ tool_name_of echo_tool := echo_tool ]}
      (sample_call "echo") tt
  /\ registry_execute (register_tool (Some echo_tool) sample_registry)
       (sample_call "boom") tt
     = registry_execute sample_registry (sample_call "boom") tt.
Proof.
  destruct (register_then_execute unit sample_registry echo_tool
              (sample_call "echo") tt) as (_ & H1 & _).
  destruct (register_then_execute unit sample_registry echo_tool
              (sample_call "boom") tt) as (_ & _ & H2 & _).
  split; [exact (H1 eq_refl)|]. apply H2. discriminate.
Defined.

(** X8.  get_all_tools lists exactly the registered tools that are available.
    In a registry filled by register_tool every tool sits under its own
    name, and then the listing is in strictly increasing order of the tool
    names, whatever the order of registration. *)
Theorem get_all_tools_lists_available_by_name :
  forall (World : Type) (reg : gmap string (ToolImpl World)) (w : World),
    (forall t, t ∈ get_all_tools reg w
               <-> is_available t w = true /\ exists n, reg !! n = Some t)
    /\ (names_agree reg ->
        StronglySorted String.le (tool_name_of <$> get_all_tools reg w)
        /\ NoDup (tool_name_of <$> get_all_tools reg w))
    /\ names_agree (∅ : gmap string (ToolImpl World))
    /\ (forall o, names_agree reg -> names_agree (register_tool o reg)).
Proof.
  intros World reg w. split; [apply get_all_tools_elem|].
  split; [apply get_all_tools_sorted|]. split; [done|].
  intros o. apply names_agree_register.
Qed.

Lemma get_all_tools_lists_available_by_name_witness :
  StronglySorted String.le (tool_name_of <$> get_all_tools sample_registry tt)
  /\ NoDup (tool_name_of <$> get_all_tools sample_registry tt).
Proof.
  assert (Hstep : forall (reg : gmap string (ToolImpl unit)) t,
            names_agree reg -> names_agree (register_tool (Some t) reg)).
  { intros reg t.
    destruct (get_all_tools_lists_available_by_name unit reg tt)
      as (_ & _ & _ & H).
    apply H. }
  destruct (get_all_tools_lists_available_by_name unit sample_registry tt)
    as (_ & H & H0 & _).
  apply H. unfold sample_registry. cbn [foldl].
  do 4 apply Hstep. exact H0.
Defined.

(** X9.  A tool that is not available is invisible to the model: registering it
    under a name that held nothing, or a tool that is not available either,
    leaves the listing, the schemas and the tool section of the prompt
    unchanged. *)
Theorem unavailable_tool_not_advertised :
  forall (World : Type) (reg : gmap string (ToolImpl World))
         (t : ToolImpl World) (w : World),
    is_available t w = false ->
    (forall t0, reg !! tool_name_of t = Some t0 -> is_available t0 w = false) ->
    get_all_tools (register_tool (Some t) reg) w = get_all_tools reg w
    /\ get_all_schemas (register_tool (Some t) reg) w = get_all_schemas reg w
    /\ format_tools_prompt (register_tool (Some t) reg) w
       = format_tools_prompt reg w.
Proof.
  intros World reg t w Ht Hold.
  pose proof (get_all_tools_register_unavailable reg w t Ht Hold) as H.
  unfold format_tools_prompt, get_all_schemas. by rewrite H.
Qed.

Lemma unavailable_tool_not_advertised_witness :
  format_tools_prompt (register_tool (Some offline_tool) sample_registry) tt
  = format_tools_prompt sample_registry tt.
Proof.
  destruct (unavailable_tool_not_advertised unit sample_registry offline_tool
              tt) as (_ & _ & H).
  - reflexivity.
  - intros t0 Ht0. vm_compute in Ht0. injection Ht0 as <-. reflexivity.
  - exact H.
Defined.

(** ** The loop *)

Section LoopMore.
Context {World : Type}.
Implicit Types (i : Impl World) (w : World) (es : list Event).

(** Model calls and states along a run of the loop. *)
Lemma react_while_calls fuel imgs i w iterations errs final o i' w' :
  react_while fuel imgs i w iterations errs final = Some (o, i', w') ->
  state i = Thinking ->
  exists es,
    events i' = events i ++ es
    /\ Z.of_nat (count is_generated es)
       <= Z.max 0 (max_iterations (config i) - iterations)
    /\ match o with
       | Returns _ => state i' = Thinking
       | Throws _ => state i' = Thinking \/ state i' = CallingTool
       end.
Proof.
  revert i w iterations errs final.
  induction fuel as [|fuel IH]; intros i w iterations errs final;
    cbn [react_while];
    (destruct ((iterations <? max_iterations (config i))
               && negb (stop_requested i)) eqn:Hcond;
     [|intros H Hst;
       apply finish_marker in H as (-> & -> & t & -> & _);
       exists []; rewrite app_nil_r; repeat split; [|done];
       unfold count; simpl; lia]).
  - discriminate.
  - apply andb_true_iff in Hcond as [Hlt%Z.ltb_lt _].
    destruct (generate_response i w (build_prompt i w (history i)) imgs)
      as [[[response|f] i1] w1] eqn:Hgen;
      apply generate_response_log in Hgen as (es1 & -> & Hc1 & Hg1).
    2:{ intros [= <- <- <-] Hst. exists es1. split; [done|].
        split; [lia|by left]. }
    destruct (parse_tool_calls response) as [|c cs] eqn:Hparse.
    { intros H Hst. apply finish_marker in H as (-> & -> & t & -> & _).
      exists es1. split; [done|]. split; [lia|done]. }
    set (i2 := set_state (log i es1) CallingTool "Executing tools...").
    destruct (dispatch_all (c :: cs) i2 w1 errs final [])
      as [[[[[errs' final'] results]|f] i3] w3] eqn:Hd;
      apply dispatch_all_log in Hd as (es2 & -> & Hc2 & Hg2).
    2:{ intros [= <- <- <-] Hst.
        exists (es1 ++ [StateChanged CallingTool "Executing tools..."]
                ++ es2).
        split; [|split; [|by right]].
        - cbn [events log i2 set_state with_state]. by rewrite <- !app_assoc.
        - rewrite !count_app, Hg1, Hg2. unfold count. simpl. lia. }
    intros H Hst. apply IH in H as (es & He & Hn & Ho); [|done].
    exists (es1 ++ [StateChanged CallingTool "Executing tools..."] ++ es2
            ++ [StateChanged Thinking "Processing tool results..."] ++ es).
    split; [|split; [|done]].
    + rewrite He. cbn [events log push_history with_history set_state
                        with_state i2]. by rewrite <- !app_assoc.
    + cbn [config log push_history with_history set_state with_state i2]
        in Hn.
      rewrite !count_app, Hg1, Hg2. unfold count in *. simpl. lia.
Qed.

(** A call of process: how it ends, what it adds to the trace, and the
    state it leaves. *)
Lemma process_run i w message imgs :
  exists o i' w' es,
    process i w message imgs = Some (o, i', w')
    /\ events i' = events i ++ es
    /\ Z.of_nat (count is_generated es) <= Z.max 0 (max_iterations (config i))
    /\ match o with
       | Returns _ => state i' = Done
       | Throws _ => state i' = Thinking \/ state i' = CallingTool
       end.
Proof.
  unfold process, react_loop.
  set (i3 := push_history _ _).
  destruct (react_while_total (Z.to_nat (max_iterations (config i3))) imgs i3
              w 0 0 "") as [[[o i4] w4] Hrun]; [lia|].
  rewrite Hrun.
  apply react_while_calls in Hrun as (es & He & Hn & Ho); [|done].
  rewrite Z.sub_0_r in Hn.
  assert (Hcfg : config i3 = config i) by reflexivity.
  rewrite Hcfg in Hn.
  destruct o as [response|f].
  - eexists _, _, _,
      ([StateChanged Thinking "Processing message..."] ++ es
       ++ [StateChanged Done ""]).
    split; [reflexivity|]. split; [|split; [|done]].
    + cbn [events set_state log with_state push_history with_history].
      rewrite He. subst i3.
      cbn [events set_state log with_state push_history with_history
           with_stop_requested]. by rewrite <- !app_assoc.
    + rewrite !count_app. unfold count in *. simpl. lia.
  - eexists _, _, _, ([StateChanged Thinking "Processing message..."] ++ es).
    split; [reflexivity|]. split; [|split; [|done]].
    + rewrite He. subst i3.
      cbn [events set_state log with_state push_history with_history
           with_stop_requested]. by rewrite <- !app_assoc.
    + rewrite !count_app. unfold count in *. simpl. lia.
Qed.

End LoopMore.

(** X10.  process never calls the model more often than max_iterations allows
    (not at all when the limit is zero or negative). *)
Theorem model_calls_bounded :
  forall (World : Type) (i : Impl World) (w : World) (message : string)
         (imgs : list string),
    exists o i' w' es,
      process i w message imgs = Some (o, i', w')
      /\ events i' = events i ++ es
      /\ Z.of_nat (count is_generated es)
         <= Z.max 0 (max_iterations (config i)).
Proof.
  intros World i w message imgs.
  destruct (process_run i w message imgs) as (o & i' & w' & es & H & He & Hn & _).
  by exists o, i', w', es.
Qed.

(** X11.  When process returns, the agent is Done and no longer busy; when it
    ends by a fault, the state stays Thinking or CallingTool, so is_busy
    keeps answering true. *)
Theorem state_after_process :
  forall (World : Type) (i : Impl World) (w : World) (message : string)
         (imgs : list string),
    exists o i' w',
      process i w message imgs = Some (o, i', w')
      /\ match o with
         | Returns _ => get_state i' = Done /\ is_busy i' = false
         | Throws _ =>
             (get_state i' = Thinking \/ get_state i' = CallingTool)
             /\ is_busy i' = true
         end.
Proof.
  intros World i w message imgs.
  destruct (process_run i w message imgs) as (o & i' & w' & es & H & _ & _ & Hs).
  exists o, i', w'. split; [done|]. unfold get_state, is_busy.
  destruct o; [by rewrite Hs|]. split; [done|]. by destruct Hs as [-> | ->].
Qed.

Section BatchFacts.
Context {World : Type}.
Implicit Types (i : Impl World) (w : World).

Lemma dispatch_all_batch calls i w errs final results0 e f results i' w' :
  dispatch_all calls i w errs final results0
    = (Returns (e, f, results), i', w') ->
  stop_requested i = false ->
  exists rs,
    results = results0 ++ rs
    /\ rs.*1 `prefix_of` calls
    /\ Forall (fun cr => call_id cr.2 = id cr.1) rs
    /\ events i' = events i ++ told rs
    /\ e = errors_after errs rs
    /\ ((rs.*1 = calls /\ f = final)
        \/ (exists cr, last rs = Some cr /\ success cr.2 = false
                       /\ max_consecutive_errors (config i) <= e
                       /\ f = final +:+ cap_diagnostic cr.2)).
Proof.
  revert i w errs results0.
  induction calls as [|call rest IH]; intros i w errs results0; cbn [dispatch_all].
  - intros [= <- <- <- <- <-] _. exists []. rewrite !app_nil_r.
    repeat split; [done|constructor|by left].
  - intros H Hstop. rewrite Hstop in H.
    destruct (registry_execute (tools i) call w) as [[result|flt] w1] eqn:Hex;
      [|done].
    apply registry_execute_call_id in Hex.
    assert (Hcons : forall rs : list (ToolCall * ToolResult),
      rs.*1 `prefix_of` rest -> ((call, result) :: rs).*1 `prefix_of` call :: rest).
    { intros rs Hp. cbn. by apply prefix_cons. }
    destruct (success result) eqn:Hs; cbn [negb] in H.
    + apply IH in H as (rs & -> & Hp & Hid & He & -> & Hend); [|done].
      exists ((call, result) :: rs). rewrite <- app_assoc.
      split; [done|]. split; [by apply Hcons|].
      split; [by constructor|]. split.
      { rewrite He. cbn [events log told fmap list_fmap]. by rewrite <- app_assoc. }
      split; [cbn; by rewrite Hs|].
      destruct Hend as [[Hall ->]|(cr & Hl & Hf & Hcap & ->)].
      * left. split; [|done]. cbn. by rewrite Hall.
      * right. exists cr. split; [|done].
        destruct rs; [done|]. exact Hl.
    + destruct (errs + 1 >=? max_consecutive_errors (config i)) eqn:Hcap.
      * injection H as <- <- <- <- <-.
        exists [(call, result)]. split; [done|].
        split; [apply Hcons; apply prefix_nil|].
        split; [by repeat constructor|]. split; [done|].
        split; [cbn; by rewrite Hs|].
        right. exists (call, result). split; [done|]. split; [done|].
        split; [|done]. apply Z.geb_le in Hcap. lia.
      * apply IH in H as (rs & -> & Hp & Hid & He & -> & Hend); [|done].
        exists ((call, result) :: rs). rewrite <- app_assoc.
        split; [done|]. split; [by apply Hcons|].
        split; [by constructor|]. split.
        { rewrite He. cbn [events log told fmap list_fmap]. by rewrite <- app_assoc. }
        split; [cbn; by rewrite Hs|].
        destruct Hend as [[Hall ->]|(cr & Hl & Hf & Hcap' & ->)].
        -- left. split; [|done]. cbn. by rewrite Hall.
        -- right. exists cr. split; [|done].
           destruct rs; [done|]. exact Hl.
Qed.
End BatchFacts.

Lemma append_assoc (a b c : string) : (a +:+ b) +:+ c = a +:+ (b +:+ c).
Proof.
  induction a as [|x a IH]; [done|].
  change (String x ((a +:+ b) +:+ c) = String x (a +:+ (b +:+ c))).
  by rewrite IH.
Qed.

(** X12.  The outcomes of a batch follow the order of the calls: the calls
    carried out are an initial part of the batch, every outcome bears the
    id of its call, the tool observer is told the same pairs in the same
    order, and the error counter is the one obtained by resetting at every
    success and adding one at every failure. *)
Theorem dispatch_in_order :
  forall (World : Type) (calls : list ToolCall) (i : Impl World) (w : World)
         (errs : Z) (final : string) (e : Z) (f : string)
         (results : list (ToolCall * ToolResult)) (i' : Impl World) (w' : World),
    stop_requested i = false ->
    dispatch_all calls i w errs final [] = (Returns (e, f, results), i', w') ->
    results.*1 `prefix_of` calls
    /\ Forall (fun cr => call_id cr.2 = id cr.1) results
    /\ events i' = events i ++ told results
    /\ e = errors_after errs results.
Proof.
  intros World calls i w errs final e f results i' w' Hstop H.
  apply dispatch_all_batch in H as (rs & -> & Hp & Hid & He & -> & _); [|done].
  done.
Qed.

Lemma dispatch_in_order_witness :
  [(sample_call "echo", mkToolResult "call_7" true "hi" None);
   (sample_call "ghost",
    mkToolResult "call_7" false "" (Some "Unknown tool: ghost"))].*1
  `prefix_of` mixed_batch
  /\ 1 = errors_after 0
           [(sample_call "echo", mkToolResult "call_7" true "hi" None);
            (sample_call "ghost",
             mkToolResult "call_7" false "" (Some "Unknown tool: ghost"))].
Proof.
  destruct (dispatch_in_order unit mixed_batch batch_agent tt 0 "" 1 ""
              [(sample_call "echo", mkToolResult "call_7" true "hi" None);
               (sample_call "ghost",
                mkToolResult "call_7" false "" (Some "Unknown tool: ghost"))]
              (log (log batch_agent
                        [ToolDispatched (sample_call "echo")
                           (mkToolResult "call_7" true "hi" None)])
                   [ToolDispatched (sample_call "ghost")
                      (mkToolResult "call_7" false ""
                         (Some "Unknown tool: ghost"))])
              tt eq_refl eq_refl) as (H1 & _ & _ & H4).
  split; [exact H1|exact H4].
Defined.




(** X14.  When the first response of the model holds no tool call, process
    returns it after one model call, with the iteration marker appended
    exactly when max_iterations is 1, and the history gains the user turn
    and the answer. *)
Theorem plain_answer_ends_run :
  forall (World : Type) (i : Impl World) (w : World) (message : string)
         (imgs : list string) (r : string) (j' : Impl World) (w' : World),
    let j := push_history
               (set_state (with_stop_requested i false) Thinking
                          "Processing message...")
               (Message_user message imgs) in
    let answer := if 1 <? max_iterations (config i) then r
                  else r +:+ iteration_marker in
    0 < max_iterations (config i) ->
    generate_response j w (build_prompt j w (history j)) imgs
      = (Returns r, j', w') ->
    parse_tool_calls r = [] ->
    exists i',
      process i w message imgs = Some (Returns answer, i', w')
      /\ history i'
         = history i ++ [Message_user message imgs; Message_assistant answer]
      /\ state i' = Done
      /\ exists es, events i' = events i ++ es
                    /\ count is_generated es = 1%nat.
Proof.
  intros World i w message imgs r j' w' j answer Hmax Hgen Hparse.
  unfold process, react_loop. fold j.
  assert (Hcfg : config j = config i) by reflexivity.
  assert (Hstop : stop_requested j = false) by reflexivity.
  rewrite Hcfg.
  destruct (Z.to_nat (max_iterations (config i))) as [|fuel] eqn:Hfuel; [lia|].
  cbn [react_while]. rewrite Hcfg, Hstop.
  replace (0 <? max_iterations (config i)) with true
    by (symmetry; by apply Z.ltb_lt).
  cbn [andb negb]. rewrite Hgen, Hparse. cbn [finish].
  apply generate_response_log in Hgen as (es & -> & _ & Hg).
  assert (Hans : (if 0 + 1 >=? max_iterations (config (log j es))
                  then ("" +:+ r) +:+ nl +:+ "[Reached maximum iterations]"
                  else "" +:+ r) = answer).
  { subst answer. change (config (log j es)) with (config i).
    change ("" +:+ r) with r.
    destruct (1 <? max_iterations (config i)) eqn:H1.
    - apply Z.ltb_lt in H1.
      replace (0 + 1 >=? max_iterations (config i)) with false; [done|].
      symmetry. rewrite Z.geb_leb. apply Z.leb_gt. lia.
    - apply Z.ltb_ge in H1.
      replace (0 + 1 >=? max_iterations (config i)) with true; [done|].
      symmetry. rewrite Z.geb_leb. apply Z.leb_le. lia. }
  rewrite Hans. eexists. split; [reflexivity|].
  split; [|split; [done|]].
  - subst j. cbn [history set_state log with_state push_history with_history
                  with_stop_requested]. by rewrite <- app_assoc.
  - exists ([StateChanged Thinking "Processing message..."] ++ es
            ++ [StateChanged Done ""]).
    split.
    + subst j. cbn [events set_state log with_state push_history with_history
                    with_stop_requested]. by rewrite <- !app_assoc.
    + rewrite !count_app, Hg. unfold count. simpl. lia.
Qed.

Lemma plain_answer_ends_run_witness :
  exists i',
    process relenting_agent 1%nat "hi" [] = Some (Returns "done", i', 2%nat)
    /\ history i' = [Message_user "hi" []; Message_assistant "done"]
    /\ state i' = Done.
Proof.
  destruct (plain_answer_ends_run nat relenting_agent 1%nat "hi" [] "done"
              _ 2%nat ltac:(reflexivity) eq_refl eq_refl)
    as (i' & Hp & Hh & Hs & _).
  exists i'. split; [exact Hp|]. split; [exact Hh|exact Hs].
Defined.

(** X15.  A call of process changes neither the configuration, nor the engines,
    nor the registry, nor the token callback, and leaves the stop request
    cleared.  process_stream installs its callbacks for good: after the
    call the token callback is the one passed in, so later calls of process
    stream as well. *)
Theorem process_keeps_setup :
  forall (World : Type) (i : Impl World) (w : World) (message : string)
         (imgs : list string) (on_token : bool),
    (exists o i' w',
        process i w message imgs = Some (o, i', w')
        /\ config i' = config i /\ vlm i' = vlm i /\ llm i' = llm i
        /\ tools i' = tools i
        /\ stream_callback i' = stream_callback i
        /\ stop_requested i' = false)
    /\ (exists o i' w',
          process_stream i w message imgs on_token = Some (o, i', w')
          /\ config i' = config i /\ tools i' = tools i
          /\ stream_callback i' = on_token).
Proof.
  intros World.
  assert (H : forall (i : Impl World) (w : World) message imgs,
    exists o i' w',
      process i w message imgs = Some (o, i', w')
      /\ config i' = config i /\ vlm i' = vlm i /\ llm i' = llm i
      /\ tools i' = tools i
      /\ stream_callback i' = stream_callback i
      /\ stop_requested i' = false).
  { intros i w message imgs. unfold process, react_loop.
    set (i3 := push_history _ _).
    destruct (react_while_total (Z.to_nat (max_iterations (config i3))) imgs
                i3 w 0 0 "") as [[[o i4] w4] Hrun]; [lia|].
    rewrite Hrun.
    apply react_while_shape in Hrun
      as (turns & es & _ & _ & (Hc & Hv & Hl & Ht & Hs & Hcb) & _).
    destruct o as [response|f]; eexists _, _, _; (split; [reflexivity|]);
      cbn [config vlm llm tools stream_callback stop_requested set_state log
           with_state push_history with_history];
      rewrite Hc, Hv, Hl, Ht, Hs, Hcb; by subst i3. }
  intros i w message imgs on_token. split; [apply H|].
  unfold process_stream.
  destruct (H (with_stream_callback i on_token) w message imgs)
    as (o & i' & w' & Hp & Hc & _ & _ & Ht & Hcb & _).
  by exists o, i', w'.
Qed.

(** ** Prompts *)

Lemma format_message_spoken (msgs : list Message) :
  String.concat "" (format_message <$> msgs)
  = String.concat "" (format_prompt_turn <$> spoken msgs).
Proof.
  induction msgs as [|m msgs IH]; [done|].
  rewrite fmap_cons, concat_cons, IH. unfold spoken.
  rewrite filter_cons.
  destruct m as [[] c tn ti im]; unfold Ctx.is_system; cbn [role];
    destruct (decide _) as [Hd|Hd]; try done;
    by rewrite fmap_cons, concat_cons.
Qed.

Lemma spoken_idemp (msgs : list Message) : spoken (spoken msgs) = spoken msgs.
Proof.
  unfold spoken. induction msgs as [|m msgs IH]; [done|].
  rewrite filter_cons. destruct (decide _) as [Hd|Hd]; [|done].
  rewrite filter_cons. destruct (decide _); [|done]. by rewrite IH.
Qed.

(** X16.  The prompt of the agent is the chat format of the engine over one
    system turn, made of the configured system prompt and the tool listing,
    followed by the turns of the history that are not System turns: System
    turns of the history never reach the model. *)
Theorem build_prompt_is_chat_format :
  forall (World : Type) (i : Impl World) (w : World) (msgs : list Message),
    build_prompt i w msgs = format_prompt (system_turn i w :: spoken msgs)
    /\ build_prompt i w msgs = build_prompt i w (spoken msgs).
Proof.
  intros World i w msgs.
  assert (H : forall ms, build_prompt i w ms
                         = format_prompt (system_turn i w :: spoken ms)).
  { intros ms. unfold build_prompt, format_prompt.
    rewrite fmap_cons, concat_cons, format_message_spoken.
    change (format_prompt_turn (system_turn i w))
      with ("<|im_start|>system" +:+ nl
            +:+ (system_prompt (config i) +:+ nl +:+ nl
                 +:+ format_tools_prompt (tools i) w)
            +:+ "<|im_end|>" +:+ nl).
    by rewrite !append_assoc. }
  split; [apply H|]. by rewrite (H msgs), (H (spoken msgs)), spoken_idemp.
Qed.

(** X17.  The two engines format a conversation alike except for the image
    placeholders: on turns without images the prompt of LLMEngine::chat is
    that of VLMEngine::format_prompt. *)
Theorem chat_prompt_without_images :
  forall msgs : list Message,
    Forall (fun m => images m = []) msgs ->
    chat_prompt msgs = format_prompt msgs.
Proof.
  intros msgs H. unfold chat_prompt, format_prompt. f_equal.
  induction H as [|m msgs Hm _ IH]; [done|].
  rewrite !fmap_cons, !concat_cons, IH. f_equal.
  destruct m as [[] c tn ti im]; try done.
  cbn [images] in Hm. subst im. done.
Qed.

Lemma chat_prompt_without_images_witness :
  chat_prompt sample_history = format_prompt sample_history.
Proof.
  apply chat_prompt_without_images.
  each_element ltac:(reflexivity).
Defined.

(** ** Arguments *)

Module ArgFacts.
Import RegexFacts.

Lemma erase_leading_split (l : list ascii) :
  exists pre, l = pre ++ erase_leading l /\ forallb trim_char pre = true.
Proof.
  induction l as [|c l (pre & Hl & Hpre)]; [by exists []|].
  cbn [erase_leading]. destruct (trim_char c) eqn:Hc; [|by exists []].
  exists (c :: pre). cbn [forallb app]. rewrite Hc, Hpre. by rewrite <- Hl.
Qed.

Lemma erase_leading_head (l : list ascii) (c : ascii) :
  head (erase_leading l) = Some c -> trim_char c = false.
Proof.
  induction l as [|x l IH]; [done|]. cbn [erase_leading].
  destruct (trim_char x) eqn:Hx; [done|]. by intros [= <-].
Qed.

Lemma erase_trailing_split (l : list ascii) :
  exists post, l = erase_trailing l ++ post /\ forallb trim_char post = true.
Proof.
  induction l as [|c l (post & Hl & Hpost)]; [by exists []|].
  cbn [erase_trailing]. destruct (erase_trailing l) as [|t ts] eqn:Ht.
  - destruct (trim_char c) eqn:Hc.
    + exists (c :: post). cbn [forallb app]. rewrite Hc, Hpost.
      by rewrite Hl.
    + exists post. by rewrite Hl.
  - exists post. by rewrite Hl.
Qed.

Lemma erase_trailing_last (l : list ascii) (c : ascii) :
  last (erase_trailing l) = Some c -> trim_char c = false.
Proof.
  induction l as [|x l IH]; [done|]. cbn [erase_trailing].
  destruct (erase_trailing l) as [|t ts] eqn:Ht.
  - destruct (trim_char x) eqn:Hx; [done|]. by intros [= <-].
  - intros H. apply IH. by rewrite last_cons_cons in H.
Qed.

Lemma erase_trailing_head (l : list ascii) (c : ascii) :
  head (erase_trailing l) = Some c -> head l = Some c.
Proof.
  destruct l as [|x l]; [done|]. cbn [erase_trailing].
  destruct (erase_trailing l); [|done]. by destruct (trim_char x).
Qed.

(** Nothing to erase where the last character is kept. *)
Lemma erase_trailing_kept (l : list ascii) :
  (forall c, last l = Some c -> trim_char c = false) -> erase_trailing l = l.
Proof.
  induction l as [|x l IH]; [done|]. intros H. cbn [erase_trailing].
  destruct l as [|y l].
  - cbn. rewrite (H x); done.
  - rewrite IH; [done|]. intros c Hc. apply H. by rewrite last_cons_cons.
Qed.

Lemma erase_leading_kept (l : list ascii) :
  (forall c, head l = Some c -> trim_char c = false) -> erase_leading l = l.
Proof.
  destruct l as [|x l]; [done|]. intros H. cbn [erase_leading].
  by rewrite (H x).
Qed.

Lemma trim_space (c : ascii) : trim_char c = true -> cls_space c = true.
Proof. destruct c as [[] [] [] [] [] [] [] []]; by vm_compute. Qed.

Lemma colon_not_word : cls_word ":"%char = false.
Proof. by vm_compute. Qed.

Lemma newline_stops : cls_dot newline = false /\ cls_word newline = false.
Proof. by vm_compute. Qed.

Lemma match_arg (a : ArgLine) (rest : list ascii) :
  well_formed_arg a = true -> stops cls_dot rest ->
  match_at arg_regex
    (arg_key a ++ ":"%char :: arg_pad a ++ arg_value a ++ rest)
  = Some (length (arg_key a ++ ":"%char :: arg_pad a ++ arg_value a),
          arg_captures a).
Proof.
  destruct a as [ind key pad value].
  unfold well_formed_arg, arg_captures.
  cbn [arg_indent arg_key arg_pad arg_value].
  rewrite !andb_true_iff, !negb_true_iff.
  intros (((((_ & Hkey) & Hkn) & Hpad) & Hval) & Hv0) Hrest.
  apply bool_decide_eq_false in Hkn.
  destruct key as [|k key]; [done|].
  destruct value as [|v value]; [done|].
  cbn [forallb] in Hkey, Hval.
  apply andb_true_iff in Hkey as [Hk Hkey].
  apply andb_true_iff in Hval as [Hv Hval].
  apply negb_true_iff in Hv0.
  unfold match_at, arg_regex.
  set (whole := (k :: key) ++ _).
  cbn [seq run plus]. unfold whole at 1. cbn [app]. rewrite Hk.
  apply star_greedy_max; [exact Hkey|exact colon_not_word|].
  cbv beta. change (chars ":") with [":"%char]. cbn [lit run].
  rewrite Ascii.eqb_refl.
  apply star_greedy_max; [exact Hpad|exact Hv0|].
  cbv beta. cbn [app]. rewrite Hv.
  apply star_greedy_max; [exact Hval|exact Hrest|].
  f_equal. f_equal.
  - unfold whole. repeat (rewrite ?length_app, ?length_cons). lia.
  - f_equal.
    + change (v :: value ++ rest) with ((v :: value) ++ rest).
      by rewrite take_front.
    + f_equal. unfold whole.
      change ((k :: key) ++ ":"%char :: ?x) with ((k :: key) ++ (":"%char :: x)).
      by rewrite take_front.
Qed.

Lemma iterate_non_word (f t : list ascii) :
  non_word f = true ->
  iterate arg_regex (f ++ t) 0 = iterate arg_regex t 0.
Proof.
  induction f as [|c f IH]; [done|]. cbn [non_word forallb].
  intros [Hc Hf]%andb_true_iff. apply negb_true_iff in Hc.
  cbn [iterate app].
  assert (Hm : match_at arg_regex (c :: f ++ t) = None).
  { unfold match_at, arg_regex. cbn [seq run plus]. by rewrite Hc. }
  rewrite Hm. by apply IH.
Qed.

Lemma iterate_args (ls : list ArgLine) (tail : list ascii) :
  Forall (fun a => well_formed_arg a = true) ls -> non_word tail = true ->
  iterate arg_regex (flat_map render_arg ls ++ tail) 0 = arg_captures <$> ls.
Proof.
  intros Hls Htail. induction Hls as [|a ls Ha _ IH].
  - cbn [flat_map app]. rewrite <- (app_nil_r tail).
    by rewrite iterate_non_word.
  - cbn [flat_map]. unfold render_arg at 1. rewrite <- !app_assoc.
    rewrite iterate_non_word.
    2:{ unfold well_formed_arg in Ha. rewrite !andb_true_iff in Ha. tauto. }
    change (arg_key a ++ (":"%char :: arg_pad a ++ arg_value a ++ [newline])
            ++ ?x)
      with (arg_key a ++ ":"%char :: (arg_pad a ++ arg_value a ++ [newline])
            ++ x).
    rewrite <- !app_assoc.
    pose proof (match_arg a ([newline] ++ flat_map render_arg ls ++ tail) Ha)
      as Hm.
    specialize (Hm (proj1 newline_stops)).
    set (body := arg_key a ++ ":"%char :: arg_pad a ++ arg_value a) in *.
    assert (Hsplit :
      arg_key a ++ ":"%char :: arg_pad a ++ arg_value a
        ++ [newline] ++ flat_map render_arg ls ++ tail
      = body ++ [newline] ++ flat_map render_arg ls ++ tail).
    { unfold body. rewrite <- app_assoc. cbn [app]. f_equal. f_equal.
      by rewrite <- !app_assoc. }
    rewrite Hsplit in *.
    rewrite iterate_found with (caps := arg_captures a); [|..|exact Hm].
    2:{ unfold body. by destruct (arg_key a). }
    rewrite fmap_cons. f_equal. rewrite iterate_non_word; [exact IH|].
    cbn. by rewrite (proj2 newline_stops).
Qed.

Lemma fold_args (ms : list ArgLine) (acc : gmap string string) :
  fold_left
    (fun (args : gmap string string) (m : captures) =>
       <[text (sub m 1) := text (trim_value (sub m 2))]> args)
    (arg_captures <$> ms) acc
  = fold_left
      (fun (args : gmap string string) (a : ArgLine) =>
         <[text (arg_key a) := text (trim_value (arg_value a))]> args)
      ms acc.
Proof.
  revert acc. induction ms as [|a ms IH]; intros acc; [done|].
  rewrite fmap_cons. cbn [fold_left]. rewrite <- IH. done.
Qed.

Lemma arguments_of_snoc (ls : list ArgLine) (a : ArgLine) :
  arguments_of (ls ++ [a])
  = <[text (arg_key a) := text (trim_value (arg_value a))]> (arguments_of ls).
Proof. unfold arguments_of. by rewrite fold_left_app. Qed.

Lemma text_inj (a b : list ascii) : text a = text b -> a = b.
Proof. intros H. by rewrite <- (chars_text a), <- (chars_text b), H. Qed.

End ArgFacts.

(** X18.  The two erase calls remove exactly the blanks, tabs and line ends at
    both ends of a value: what is left neither starts nor ends with one of
    them, what was cut consists of them, and trimming again changes nothing. *)
Theorem trim_value_strips_both_ends :
  forall l : list ascii,
    (exists pre post,
        l = pre ++ trim_value l ++ post
        /\ forallb trim_char pre = true /\ forallb trim_char post = true)
    /\ (forall c, head (trim_value l) = Some c -> trim_char c = false)
    /\ (forall c, last (trim_value l) = Some c -> trim_char c = false)
    /\ trim_value (trim_value l) = trim_value l.
Proof.
  intros l. unfold trim_value.
  destruct (ArgFacts.erase_leading_split l) as (pre & Hl & Hpre).
  destruct (ArgFacts.erase_trailing_split (erase_leading l))
    as (post & Hm & Hpost).
  assert (Hhead : forall c, head (erase_trailing (erase_leading l)) = Some c ->
                            trim_char c = false).
  { intros c Hc. apply ArgFacts.erase_trailing_head in Hc.
    by apply ArgFacts.erase_leading_head in Hc. }
  split; [|split; [exact Hhead|split]].
  - exists pre, post. by rewrite <- Hm.
  - apply ArgFacts.erase_trailing_last.
  - rewrite (ArgFacts.erase_leading_kept _ Hhead).
    apply ArgFacts.erase_trailing_kept, ArgFacts.erase_trailing_last.
Qed.

Lemma trim_value_strips_both_ends_witness :
  trim_char "l"%char = false /\ trim_char "a"%char = false.
Proof.
  destruct (trim_value_strips_both_ends (chars "  ls -la  "))
    as (_ & Hh & Hl & _).
  split; [exact (Hh "l"%char eq_refl)|exact (Hl "a"%char eq_refl)].
Defined.

(** X19.  A body written in the documented layout, one "key: value" per line, is
    read as the map of its lines: every key stands for its value with the
    blanks at the end removed, and of two lines with the same key the later
    one wins. *)
Theorem parse_argument_lines :
  forall (ls : list ArgLine) (tail : list ascii),
    Forall (fun a => well_formed_arg a = true) ls ->
    non_word tail = true ->
    parse_arguments (flat_map render_arg ls ++ tail) = arguments_of ls
    /\ forall before a after,
         ls = before ++ a :: after ->
         Forall (fun b => arg_key b <> arg_key a) after ->
         parse_arguments (flat_map render_arg ls ++ tail)
           !! text (arg_key a)
         = Some (text (erase_trailing (arg_value a))).
Proof.
  intros ls tail Hls Htail.
  assert (Hparse :
    parse_arguments (flat_map render_arg ls ++ tail) = arguments_of ls).
  { unfold parse_arguments. rewrite ArgFacts.iterate_args; [|done..].
    apply ArgFacts.fold_args. }
  split; [exact Hparse|].
  intros before a after -> Hafter. rewrite Hparse.
  rewrite Forall_app, Forall_cons in Hls. destruct Hls as [_ [Ha _]].
  assert (Htrim : trim_value (arg_value a) = erase_trailing (arg_value a)).
  { unfold trim_value. f_equal. apply ArgFacts.erase_leading_kept.
    intros c Hc. unfold well_formed_arg in Ha.
    rewrite !andb_true_iff in Ha. destruct Ha as [_ Hv].
    destruct (arg_value a) as [|v value]; [done|].
    injection Hc as <-. apply negb_true_iff in Hv.
    destruct (trim_char v) eqn:Ht; [|done].
    apply ArgFacts.trim_space in Ht. congruence. }
  rewrite <- Htrim. clear Htrim Ha Hparse.
  induction after as [|b after IH] using rev_ind.
  - change (before ++ [a]) with (before ++ [a]).
    rewrite ArgFacts.arguments_of_snoc. apply lookup_insert_eq.
  - rewrite Forall_app, Forall_singleton in Hafter.
    destruct Hafter as [Hafter Hb].
    change (before ++ a :: after ++ [b]) with (before ++ (a :: after) ++ [b]).
    rewrite app_assoc, ArgFacts.arguments_of_snoc.
    rewrite lookup_insert_ne; [by apply IH|].
    intros H. by apply ArgFacts.text_inj in H.
Qed.

Lemma parse_argument_lines_witness :
  parse_arguments (flat_map render_arg sample_lines ++ [])
  = {[ "path" := "a.txt"; "mode" := "r" ]}.
Proof.
  destruct (parse_argument_lines sample_lines []) as [H _].
  - each_element ltac:(reflexivity).
  - reflexivity.
  - rewrite H. reflexivity.
Defined.

(** ** The shell tool *)

Lemma find_first {A : Type} (p : A -> bool) (pre : list A) (b : A)
    (post : list A) :
  Forall (fun x => p x = false) pre -> p b = true ->
  List.find p (pre ++ b :: post) = Some b.
Proof.
  intros Hpre Hb. induction Hpre as [|x pre Hx _ IH]; cbn [List.find app].
  - by rewrite Hb.
  - by rewrite Hx.
Qed.

Lemma find_none {A : Type} (p : A -> bool) (l : list A) :
  Forall (fun x => p x = false) l -> List.find p l = None.
Proof.
  intros H. induction H as [|x l Hx _ IH]; [done|].
  cbn [List.find]. by rewrite Hx.
Qed.

(** X20.  The shell tool refuses before anything is run: without a command, with
    a command that holds an entry of the block list (the first such entry
    in list order is reported), and with a timeout that is not a number
    (the exception of stoi leaves the tool).  In all three cases the world
    is untouched. *)
Theorem shell_refuses_before_running :
  forall (World : Type) (popen : World -> string -> option (Pipe World) * World)
         (t : ShellExecTool) (w : World) (args : gmap string string),
    (args !! "command" = None ->
     ShellExecTool_execute popen t w args
     = (Returns (mkToolResult "" false "" (Some "command is required")), w))
    /\ (forall command pre blocked post,
          args !! "command" = Some command ->
          blocked_commands t = pre ++ blocked :: post ->
          Forall (fun b => contains (chars b) (chars command) = false) pre ->
          contains (chars blocked) (chars command) = true ->
          ShellExecTool_execute popen t w args
          = (Returns (mkToolResult "" false ""
                        (Some ("Command blocked for security: " +:+ blocked))),
             w))
    /\ (forall command s f,
          args !! "command" = Some command ->
          allowed t command ->
          args !! "timeout" = Some s -> stoi s = Throws f ->
          ShellExecTool_execute popen t w args = (Throws f, w)).
Proof.
  intros World popen t w args. unfold ShellExecTool_execute.
  split; [|split].
  - by intros ->.
  - intros command pre blocked post -> -> Hpre Hb.
    by rewrite (find_first _ pre blocked post Hpre Hb).
  - intros command s f -> Hall -> ->. by rewrite (find_none _ _ Hall).
Qed.

Lemma shell_refuses_before_running_witness :
  ShellExecTool_execute failing_popen ShellExecTool_default tt
    {[ "command" := "git log --format=%H" ]}
  = (Returns (mkToolResult "" false ""
                (Some "Command blocked for security: format")), tt)
  /\ ShellExecTool_execute failing_popen ShellExecTool_default tt
       {[ "command" := "ls"; "timeout" := "soon" ]}
     = (Throws (StdException "stoi"), tt).
Proof.
  destruct (shell_refuses_before_running unit failing_popen
              ShellExecTool_default tt
              {[ "command" := "git log --format=%H" ]}) as (_ & H2 & _).
  destruct (shell_refuses_before_running unit failing_popen
              ShellExecTool_default tt
              {[ "command" := "ls"; "timeout" := "soon" ]}) as (_ & _ & H3).
  split.
  - apply (H2 "git log --format=%H" ["rm -rf /"] "format"
              ["mkfs"; "dd if="; ":(){"; "fork bomb"; "> /dev/sda"]);
      [reflexivity|reflexivity| |reflexivity].
    each_element ltac:(reflexivity).
  - apply (H3 "ls" "soon"); [reflexivity| |reflexivity|reflexivity].
    each_element ltac:(reflexivity).
Defined.

Lemma WEXITSTATUS_mod (status : Z) :
  WEXITSTATUS status = (status / 256) mod 256.
Proof.
  unfold WEXITSTATUS. rewrite Z.shiftr_land.
  change (Z.shiftr 65280 8) with (Z.ones 8).
  rewrite Z.land_ones by lia. by rewrite Z.shiftr_div_pow2 by lia.
Qed.

Lemma WEXITSTATUS_range (status : Z) : 0 <= WEXITSTATUS status <= 255.
Proof.
  rewrite WEXITSTATUS_mod.
  pose proof (Z.mod_pos_bound (status / 256) 256). lia.
Qed.

Lemma WEXITSTATUS_signal (status : Z) :
  0 <= status < 256 -> WEXITSTATUS status = 0.
Proof.
  intros H. rewrite WEXITSTATUS_mod. by rewrite Z.div_small.
Qed.

(** X21.  A command that passes the checks, with no timeout argument or one
    that stoi reads as a number, is run once, as
    "[cd 'dir' && ]command 2>&1"; the timeout has no part in the run.  The
    result is a success exactly when bits 8 to 15 of the wait status are
    zero; otherwise the error text names that exit code, a number from 1
    to 255.  A command ended by a signal (wait status below 256) is
    therefore reported as a success. *)
Theorem shell_reports_exit_status :
  forall (World : Type) (popen : World -> string -> option (Pipe World) * World)
         (t : ShellExecTool) (w : World) (args : gmap string string)
         (command : string) (pipe : Pipe World) (w0 : World),
    args !! "command" = Some command ->
    allowed t command ->
    (forall s, args !! "timeout" = Some s -> exists z, stoi s = Returns z) ->
    popen w (command_line t args command) = (Some pipe, w0) ->
    let out := read_pipe (max_output_size t) (chunks pipe) "" 0 0 in
    let status := (pclose pipe out.2).1 in
    exists r,
      ShellExecTool_execute popen t w args
      = (Returns r, (pclose pipe out.2).2)
      /\ output r = out.1
      /\ success r = bool_decide (WEXITSTATUS status = 0)
      /\ error r = (if success r then None
                    else Some ("Exit code: "
                               +:+ int_to_string (WEXITSTATUS status)))
      /\ 0 <= WEXITSTATUS status <= 255
      /\ (0 <= status < 256 -> success r = true /\ error r = None).
Proof.
  intros World popen t w args command pipe w0 Hc Hall Ht Hp out status.
  unfold ShellExecTool_execute. rewrite Hc, (find_none _ _ Hall).
  assert (Htime : exists z, match args !! "timeout" with
                            | Some s => stoi s
                            | None => Returns (timeout_ms t)
                            end = Returns z).
  { destruct (args !! "timeout") as [s|]; [by apply Ht|by eexists]. }
  destruct Htime as [z ->].
  fold (command_line t args command). rewrite Hp.
  fold out. destruct out as [txt reads] eqn:Hout. cbn [fst snd] in *.
  destruct (pclose pipe reads) as [st w'] eqn:Hcl. cbn [fst snd] in *.
  subst status. eexists. split; [reflexivity|]. cbn [output success error].
  split; [done|].
  assert (Hs : (WEXITSTATUS st =? 0) = bool_decide (WEXITSTATUS st = 0)).
  { destruct (Z.eqb_spec (WEXITSTATUS st) 0) as [He|He].
    - by rewrite bool_decide_eq_true_2.
    - by rewrite bool_decide_eq_false_2. }
  split; [exact Hs|]. split; [done|]. split; [apply WEXITSTATUS_range|].
  intros Hsig. rewrite (WEXITSTATUS_signal st Hsig). done.
Qed.

Lemma shell_reports_exit_status_witness :
  (exists r,
     ShellExecTool_execute killed_popen ShellExecTool_default tt
       {[ "command" := "sleep 100" ]} = (Returns r, tt)
     /\ success r = true /\ error r = None)
  /\ (exists r,
        ShellExecTool_execute killed_popen ShellExecTool_default tt
          {[ "command" := "sleep 100"; "timeout" := "5000" ]} = (Returns r, tt)
        /\ success r = true /\ error r = None).
Proof.
  split.
  - destruct (shell_reports_exit_status unit killed_popen ShellExecTool_default
                tt {[ "command" := "sleep 100" ]} "sleep 100"
                (mkPipe ["partial" +:+ nl] (fun _ => (9, tt))) tt)
      as (r & Hr & _ & _ & _ & _ & Hsig);
      [reflexivity| |intros s Hs; discriminate Hs|reflexivity|].
    + each_element ltac:(reflexivity).
    + exists r. split; [exact Hr|]. apply Hsig. cbn. lia.
  - destruct (shell_reports_exit_status unit killed_popen ShellExecTool_default
                tt {[ "command" := "sleep 100"; "timeout" := "5000" ]}
                "sleep 100"
                (mkPipe ["partial" +:+ nl] (fun _ => (9, tt))) tt)
      as (r & Hr & _ & _ & _ & _ & Hsig);
      [reflexivity| |intros s Hs; injection Hs as <-; by exists 5000
      |reflexivity|].
    + each_element ltac:(reflexivity).
    + exists r. split; [exact Hr|]. apply Hsig. cbn. lia.
Defined.

Lemma length_append (a b : string) :
  String.length (a +:+ b) = (String.length a + String.length b)%nat.
Proof. by rewrite <- !chars_length, chars_app, length_app. Qed.

Lemma read_pipe_run (limit : N) (chunks : list string) (out : string)
    (reads : nat) :
  (limit + 4095 < 2 ^ 64)%N ->
  Forall (fun c => (String.length c <= 4095)%nat) chunks ->
  (N.of_nat (String.length out) <= limit)%N ->
  let res := read_pipe limit chunks out (N.of_nat (String.length out)) reads in
  ((N.of_nat (String.length (out +:+ String.concat "" chunks)) <= limit)%N
   /\ res = (out +:+ String.concat "" chunks, (reads + length chunks)%nat))
  \/ (exists n,
        (1 <= n <= length chunks)%nat
        /\ res = (out +:+ String.concat "" (take n chunks) +:+ truncation_note,
                  (reads + n)%nat)
        /\ (limit
            < N.of_nat (String.length (out +:+ String.concat "" (take n chunks)))
            <= limit + 4095)%N
        /\ (N.of_nat (String.length
                        (out +:+ String.concat "" (take (pred n) chunks)))
            <= limit)%N).
Proof.
  intros Hlimit Hchunks. revert out reads.
  induction Hchunks as [|c chunks Hc _ IH]; intros out reads Hout res.
  - left. subst res. cbn [read_pipe String.concat length].
    rewrite append_empty_r, Nat.add_0_r. done.
  - subst res. cbn [read_pipe].
    assert (Hsmall :
      ((N.of_nat (String.length out) + N.of_nat (String.length c)) mod 2 ^ 64
       = N.of_nat (String.length (out +:+ c)))%N).
    { rewrite N.mod_small by lia. rewrite length_append. lia. }
    rewrite Hsmall.
    destruct (N.ltb_spec limit (N.of_nat (String.length (out +:+ c))))
      as [Hover|Hfit].
    + right. exists 1%nat. cbn [take length pred].
      rewrite concat_cons. cbn [String.concat].
      rewrite !append_empty_r.
      split; [lia|]. split.
      { unfold truncation_note. f_equal; [by rewrite !append_assoc|lia]. }
      split; [|done]. rewrite length_append in *. lia.
    + specialize (IH (out +:+ c) (S reads) Hfit). cbv zeta in IH.
      destruct IH as [[Hall ->]|(n & Hn & -> & Hlen & Hprev)].
      * left. rewrite concat_cons, <- append_assoc. split; [done|].
        f_equal. cbn [length]. lia.
      * right. exists (S n). cbn [take length pred].
        rewrite concat_cons, <- !append_assoc.
        split; [lia|]. split; [f_equal; lia|]. split; [done|].
        destruct n as [|n]; [lia|]. cbn [pred] in Hprev. cbn [take].
        by rewrite concat_cons, <- append_assoc.
Qed.

(** X22.  The reading loop copies the output of the command as long as the count
    of characters read stays within max_output_size.  The text that first
    exceeds the limit is still copied in full before the note is added, so
    a truncated output is longer than the limit, by up to one buffer and
    the note. *)
Theorem shell_output_truncated_after_limit :
  forall (limit : N) (chunks : list string),
    (limit + 4095 < 2 ^ 64)%N ->
    Forall (fun c => (String.length c <= 4095)%nat) chunks ->
    let out := read_pipe limit chunks "" 0 0 in
    (N.of_nat (String.length out.1) <= limit + 4095 + 23)%N
    /\ ((N.of_nat (String.length (String.concat "" chunks)) <= limit)%N ->
        out = (String.concat "" chunks, length chunks))
    /\ ((limit < N.of_nat (String.length (String.concat "" chunks)))%N ->
        (limit < N.of_nat (String.length out.1))%N
        /\ (1 <= out.2 <= length chunks)%nat
        /\ out.1 = String.concat "" (take out.2 chunks) +:+ truncation_note).
Proof.
  intros limit chunks Hlimit Hchunks out.
  pose proof (read_pipe_run limit chunks "" 0 Hlimit Hchunks) as H.
  cbv zeta in H. change (N.of_nat (String.length "")) with 0%N in H.
  specialize (H ltac:(lia)). subst out.
  change ("" +:+ ?x) with x in H.
  destruct H as [[Hfit Hres]|(n & Hn & Hres & Hlen & Hprev)];
    rewrite Hres; cbn [fst snd].
  - split; [lia|]. split; [done|]. lia.
  - change ("" +:+ ?x) with x in *.
    assert (Hnote : String.length truncation_note = 23%nat) by reflexivity.
    split; [rewrite length_append, Hnote; lia|].
    split.
    + intros Hfit. exfalso.
      assert (Hmono : (String.length (String.concat "" (take n chunks))
                       <= String.length (String.concat "" chunks))%nat).
      { rewrite <- (take_drop n chunks) at 2.
        clear. generalize (take n chunks) (drop n chunks). intros a b.
        induction a as [|x a IH]; [cbn; lia|].
        cbn [app]. rewrite !concat_cons, !length_append. lia. }
      lia.
    + intros _. split; [rewrite length_append; lia|done].
Qed.

Lemma shell_output_truncated_after_limit_witness :
  (read_pipe 4 ["abc"; "def"; "ghi"] "" 0 0).1
  = String.concat "" (take (read_pipe 4 ["abc"; "def"; "ghi"] "" 0 0).2
                           ["abc"; "def"; "ghi"])
    +:+ truncation_note.
Proof.
  destruct (shell_output_truncated_after_limit 4 ["abc"; "def"; "ghi"])
    as (_ & _ & H).
  - reflexivity.
  - each_element ltac:(cbn; lia).
  - apply H. reflexivity.
Defined.

(** ** The question tool *)

Module OptionFacts.

Lemma erase_front_head p (l : list ascii) (c : ascii) :
  head (erase_front p l) = Some c -> p c = false.
Proof.
  induction l as [|x l IH]; [done|]. cbn [erase_front].
  destruct (p x) eqn:Hx; [done|]. by intros [= <-].
Qed.

Lemma erase_front_suffix p (l : list ascii) : erase_front p l `suffix_of` l.
Proof.
  induction l as [|x l IH]; [done|]. cbn [erase_front].
  destruct (p x); [by apply suffix_cons_r|done].
Qed.

Lemma erase_back_prefix p (l : list ascii) : erase_back p l `prefix_of` l.
Proof.
  induction l as [|x l IH]; [done|]. cbn [erase_back].
  destruct (erase_back p l) as [|t ts] eqn:Ht.
  - destruct (p x); [apply prefix_nil|].
    apply prefix_cons, prefix_nil.
  - by apply prefix_cons.
Qed.

Lemma erase_back_last p (l : list ascii) (c : ascii) :
  last (erase_back p l) = Some c -> p c = false.
Proof.
  induction l as [|x l IH]; [done|]. cbn [erase_back].
  destruct (erase_back p l) as [|t ts] eqn:Ht.
  - destruct (p x) eqn:Hx; [done|]. by intros [= <-].
  - intros H. apply IH. by rewrite last_cons_cons in H.
Qed.

Lemma erase_back_head p (l : list ascii) (c : ascii) :
  head (erase_back p l) = Some c -> head l = Some c.
Proof.
  destruct l as [|x l]; [done|]. cbn [erase_back].
  destruct (erase_back p l); [|done]. by destruct (p x).
Qed.

Lemma erase_back_kept p (l : list ascii) :
  (forall c, last l = Some c -> p c = false) -> erase_back p l = l.
Proof.
  induction l as [|x l IH]; [done|]. intros H. cbn [erase_back].
  destruct l as [|y l].
  - cbn. rewrite (H x); done.
  - rewrite IH; [done|]. intros c Hc. apply H. by rewrite last_cons_cons.
Qed.

Lemma erase_front_kept p (l : list ascii) :
  (forall c, head l = Some c -> p c = false) -> erase_front p l = l.
Proof.
  destruct l as [|x l]; [done|]. intros H. cbn [erase_front].
  by rewrite (H x).
Qed.

(** No field holds the delimiter. *)
Lemma getline_all_fields d (l cur : list ascii) :
  d ∉ cur -> Forall (fun o => d ∉ o) (getline_all d l cur).
Proof.
  revert cur. induction l as [|c l IH]; intros cur Hcur; cbn [getline_all].
  - destruct cur; [constructor|]. by repeat constructor.
  - destruct (Ascii.eqb_spec c d) as [->|Hne].
    + constructor; [done|]. apply IH. apply not_elem_of_nil.
    + apply IH. rewrite elem_of_app, list_elem_of_singleton.
      intros [?|?]; [done|]. by subst.
Qed.

Lemma getline_field d (o r cur : list ascii) :
  d ∉ o ->
  getline_all d (o ++ d :: r) cur = (cur ++ o) :: getline_all d r [].
Proof.
  revert cur. induction o as [|c o IH]; intros cur Ho; cbn [getline_all app].
  - by rewrite Ascii.eqb_refl, app_nil_r.
  - apply not_elem_of_cons in Ho as [Hc Ho].
    destruct (Ascii.eqb_spec c d) as [->|_]; [done|].
    rewrite IH by done. by rewrite <- app_assoc.
Qed.

Lemma getline_last d (o cur : list ascii) :
  d ∉ o -> cur ++ o <> [] -> getline_all d o cur = [cur ++ o].
Proof.
  revert cur. induction o as [|c o IH]; intros cur Ho Hne; cbn [getline_all].
  - rewrite app_nil_r in *. by destruct cur.
  - apply not_elem_of_cons in Ho as [Hc Ho].
    destruct (Ascii.eqb_spec c d) as [->|_]; [done|].
    rewrite IH; [by rewrite <- app_assoc|done|].
    rewrite <- app_assoc. cbn. by destruct cur.
Qed.

Lemma trimmed_clean (o : list ascii) :
  ","%char ∉ o ->
  erase_back blank (erase_front blank o) <> [] ->
  clean_option (erase_back blank (erase_front blank o)).
Proof.
  intros Ho Hne. split; [done|]. split; [|split].
  - intros Hin. apply Ho.
    apply (fun H => elem_of_suffix _ _ _ H (erase_front_suffix blank o)).
    apply list_elem_of_lookup in Hin as [k Hk].
    apply list_elem_of_lookup. exists k.
    by apply (prefix_lookup_Some _ _ _ _ Hk), erase_back_prefix.
  - intros c Hc. apply erase_back_head in Hc.
    by apply erase_front_head in Hc.
  - apply erase_back_last.
Qed.

Lemma parse_options_clean (s : string) :
  Forall (fun o => clean_option (chars o)) (parse_options s).
Proof.
  unfold parse_options.
  pose proof (getline_all_fields ","%char (chars s) []
                ltac:(apply not_elem_of_nil)) as Hf.
  induction Hf as [|o fields Ho _ IH]; [constructor|].
  rewrite fmap_cons, filter_cons.
  destruct (decide _) as [Hne|_]; [|exact IH].
  rewrite fmap_cons. constructor; [|exact IH].
  rewrite chars_text. by apply trimmed_clean.
Qed.

Lemma clean_trim (o : list ascii) :
  clean_option o -> erase_back blank (erase_front blank o) = o.
Proof.
  intros (_ & _ & Hh & Hl).
  rewrite (erase_front_kept blank o Hh). by apply erase_back_kept.
Qed.

Lemma clean_trim_blank (o : list ascii) :
  clean_option o ->
  erase_back blank (erase_front blank (" "%char :: o)) = o.
Proof. intros H. cbn [erase_front]. by apply clean_trim. Qed.

Lemma fields_joined (o : list ascii) (rest : list (list ascii)) cur :
  Forall clean_option (o :: rest) -> ","%char ∉ cur ->
  getline_all ","%char (join_options (o :: rest)) cur
  = (cur ++ o) :: ((fun x => " "%char :: x) <$> rest).
Proof.
  revert o cur. induction rest as [|o' rest IH]; intros o cur Hall Hcur.
  - cbn [join_options fmap list_fmap].
    apply Forall_cons in Hall as [(Hne & Hc & _) _].
    apply getline_last; [done|]. destruct cur; [done|done].
  - apply Forall_cons in Hall as [(Hne & Hc & _) Hrest].
    change (join_options (o :: o' :: rest))
      with (o ++ ","%char :: " "%char :: join_options (o' :: rest)).
    rewrite getline_field by done. f_equal.
    cbn [getline_all]. 
    change (Ascii.eqb " " ",") with false. cbv iota. cbn [app].
    rewrite IH; [done|done|].
    rewrite list_elem_of_singleton. done.
Qed.

(** A check of the four conditions by evaluation. *)
Lemma clean_check (o : list ascii) :
  (negb (bool_decide (o = []))
   && forallb (fun c => negb (Ascii.eqb c ","%char)) o
   && match head o with Some c => negb (blank c) | None => true end
   && match last o with Some c => negb (blank c) | None => true end) = true ->
  clean_option o.
Proof.
  rewrite !andb_true_iff, negb_true_iff, bool_decide_eq_false.
  intros [[[Hne Hc] Hh] Hl]. split; [done|]. split; [|split].
  - intros Hin. rewrite forallb_forall in Hc.
    apply list_elem_of_In, Hc in Hin. by rewrite Ascii.eqb_refl in Hin.
  - intros c Hc'. rewrite Hc' in Hh. by apply negb_true_iff.
  - intros c Hc'. rewrite Hc' in Hl. by apply negb_true_iff.
Qed.

End OptionFacts.

(** X23.  The tool calls the callback only when a question is given and a
    callback is installed.  Without a question it fails with
    "question is required", and with a question but no callback it fails
    with "No input callback configured"; in both cases the world is
    untouched.  Every option the callback receives is non-empty, holds no
    comma and neither starts nor ends with a blank or tab. *)
Theorem ask_user_passes_clean_options :
  forall (World : Type)
         (callback : World -> string -> list string -> Outcome string * World)
         (w : World) (args : gmap string string),
    (args !! "question" = None ->
     forall cb,
       AskUserTool_execute cb w args
       = (Returns (mkToolResult "" false "" (Some "question is required")), w))
    /\ (forall question,
          args !! "question" = Some question ->
          AskUserTool_execute None w args
          = (Returns (mkToolResult "" false ""
                        (Some "No input callback configured")), w))
    /\ (forall question,
          args !! "question" = Some question ->
          exists options,
            Forall (fun o => clean_option (chars o)) options
            /\ AskUserTool_execute (Some callback) w args
               = match callback w question options with
                 | (Returns response, w') =>
                     (Returns (mkToolResult "" true response None), w')
                 | (Throws f, w') => (Throws f, w')
                 end).
Proof.
  intros World callback w args. unfold AskUserTool_execute.
  split; [by intros ->|]. split; [by intros question ->|].
  intros question ->.
  destruct (args !! "options") as [s|].
  - exists (parse_options s). split; [apply OptionFacts.parse_options_clean|done].
  - exists []. by split.
Qed.

Lemma ask_user_passes_clean_options_witness :
  AskUserTool_execute None tt
    {[ "question" := "Which one?"; "options" := " a, b ,,c " ]}
  = (Returns (mkToolResult "" false "" (Some "No input callback configured")),
     tt)
  /\ exists options,
       Forall (fun o => clean_option (chars o)) options
       /\ AskUserTool_execute (Some echo_callback) tt
            {[ "question" := "Which one?"; "options" := " a, b ,,c " ]}
          = match echo_callback tt "Which one?" options with
            | (Returns response, w') =>
                (Returns (mkToolResult "" true response None), w')
            | (Throws f, w') => (Throws f, w')
            end.
Proof.
  destruct (ask_user_passes_clean_options unit echo_callback tt
              {[ "question" := "Which one?"; "options" := " a, b ,,c " ]})
    as (_ & H1 & H2).
  split; [exact (H1 "Which one?" eq_refl)|exact (H2 "Which one?" eq_refl)].
Defined.

(** X24.  Options written as a list separated by comma and blank are recovered
    one by one, provided each is non-empty, holds no comma and has no blank
    or tab at its ends. *)
Theorem parse_options_recovers_list :
  forall opts : list (list ascii),
    Forall clean_option opts ->
    parse_options (text (join_options opts)) = text <$> opts.
Proof.
  intros opts Hall. unfold parse_options. rewrite chars_text. f_equal.
  destruct opts as [|o rest]; [done|].
  rewrite OptionFacts.fields_joined; [|done|apply not_elem_of_nil].
  cbn [app]. rewrite fmap_cons.
  apply Forall_cons in Hall as [Ho Hrest].
  rewrite (OptionFacts.clean_trim o Ho).
  rewrite filter_cons. destruct (decide (o <> [])) as [_|Hn].
  2:{ destruct Ho as [? _]. done. }
  f_equal. induction Hrest as [|o' rest Ho' _ IH]; [done|].
  rewrite !fmap_cons, (OptionFacts.clean_trim_blank o' Ho').
  rewrite filter_cons. destruct (decide (o' <> [])) as [_|Hn].
  2:{ destruct Ho' as [? _]. done. }
  by rewrite IH.
Qed.

Lemma parse_options_recovers_list_witness :
  parse_options (text (join_options [chars "yes"; chars "not now"]))
  = ["yes"; "not now"].
Proof.
  apply (parse_options_recovers_list [chars "yes"; chars "not now"]).
  each_element ltac:(apply OptionFacts.clean_check; reflexivity).
Defined.

(** ** The edit tool *)

Module EditFacts.

Lemma starts_with_length (p s : list ascii) :
  starts_with p s = true -> (length p <= length s)%nat.
Proof.
  revert s. induction p as [|c p IH]; intros [|x s]; simpl; try done; try lia.
  intros [_ H]%andb_true_iff. apply IH in H. lia.
Qed.

Lemma find_at_bound (p s : list ascii) (k : nat) :
  find_at p s = Some k -> (k + length p <= length s)%nat.
Proof.
  revert k. induction s as [|x s IH]; intros k; cbn [find_at].
  - destruct (starts_with p []) eqn:Hs; [|done].
    intros [= <-]. by apply starts_with_length in Hs.
  - destruct (starts_with p (x :: s)) eqn:Hs.
    + intros [= <-]. by apply starts_with_length in Hs.
    + destruct (find_at p s) as [j|]; [|done]. intros [= <-].
      specialize (IH j eq_refl). cbn [length]. lia.
Qed.

Lemma find_at_first (p a b : list ascii) :
  absent_before p (a ++ p ++ b) (length a) ->
  find_at p (a ++ p ++ b) = Some (length a).
Proof.
  induction a as [|x a IH]; intros Habs.
  - cbn [app length]. destruct (p ++ b) eqn:Hpb; cbn [find_at];
      rewrite <- Hpb; by rewrite starts_with_app.
  - pose proof (Habs 0%nat ltac:(cbn [length]; lia)) as H0.
    cbn [drop app] in H0. cbn [app find_at length]. rewrite H0.
    rewrite IH; [done|]. intros k Hk.
    exact (Habs (S k) ltac:(cbn [length]; lia)).
Qed.

Lemma find_at_empty (s : list ascii) : find_at [] s = Some 0%nat.
Proof. by destruct s. Qed.

Lemma find_at_occurs (p s : list ascii) (k : nat) :
  find_at p s = Some k -> starts_with p (drop k s) = true.
Proof.
  revert k. induction s as [|x s IH]; intros k; cbn [find_at].
  - destruct (starts_with p []) eqn:Hs; [|done]. by intros [= <-].
  - destruct (starts_with p (x :: s)) eqn:Hs; [by intros [= <-]|].
    destruct (find_at p s) as [j|]; [|done]. intros [= <-].
    by apply IH.
Qed.

(** With an empty pattern the loop never ends. *)
Lemma replace_loop_empty (fuel : nat) (new content : list ascii)
    (pos count : nat) :
  (pos <= length content)%nat ->
  replace_loop fuel [] new content pos count = None.
Proof.
  revert content pos count.
  induction fuel as [|fuel IH]; intros content pos count Hpos;
    cbn [replace_loop]; unfold find_from;
    (replace (pos <=? length content)%nat with true
       by (symmetry; by apply Nat.leb_le));
    rewrite find_at_empty; cbn [fmap option_fmap option_map]; [done|].
  apply IH. unfold replace_at.
  rewrite !length_app, length_take, length_drop. cbn [length]. lia.
Qed.

(** With a pattern that is not empty it ends within the length of the
    text behind the position. *)
Lemma replace_loop_ends (fuel : nat) (old new content : list ascii)
    (pos count : nat) :
  old <> [] -> (length content - pos < fuel)%nat ->
  exists content' count',
    replace_loop fuel old new content pos count = Some (content', count')
    /\ (count <= count')%nat.
Proof.
  intros Hold. revert content pos count.
  induction fuel as [|fuel IH]; intros content pos count Hfuel; [lia|].
  cbn [replace_loop]. unfold find_from.
  destruct (Nat.leb_spec pos (length content)) as [Hpos|Hpos];
    [|by exists content, count].
  destruct (find_at old (drop pos content)) as [k|] eqn:Hk;
    cbn [fmap option_fmap option_map]; [|by exists content, count].
  apply find_at_bound in Hk. rewrite length_drop in Hk.
  assert (1 <= length old)%nat by (destruct old; [done|cbn; lia]).
  destruct (IH (replace_at content (pos + k) (length old) new)
               (pos + k + length new)%nat (S count))
    as (c' & n' & Hrun & Hn).
  { unfold replace_at. rewrite !length_app, length_take, length_drop. lia. }
  exists c', n'. split; [exact Hrun|lia].
Qed.

Lemma find_at_contains (p s : list ascii) (k : nat) :
  find_at p s = Some k -> contains p s = true.
Proof.
  revert k. induction s as [|x s IH]; intros k; cbn [find_at contains].
  - by destruct (starts_with p []).
  - destruct (starts_with p (x :: s)); [done|].
    destruct (find_at p s) as [j|]; [|done]. intros _. by apply (IH j).
Qed.

Lemma find_from_start (p s : list ascii) : find_from p s 0 = find_at p s.
Proof.
  unfold find_from. change (0 <=? length s)%nat with true.
  change (drop 0 s) with s. by destruct (find_at p s).
Qed.

Lemma replace_loop_none (fuel : nat) (old new content : list ascii)
    (pos count : nat) content' count' :
  replace_loop fuel old new content pos count = Some (content', count') ->
  find_from old content pos = None -> count' = count.
Proof.
  intros H Hnone. destruct fuel; cbn [replace_loop] in H;
    rewrite Hnone in H; by injection H.
Qed.

End EditFacts.

(** X25.  Editing changes nothing unless it succeeds: every failure (a missing
    argument, a missing or unreadable file, no occurrence of old_string, a
    file that cannot be written) leaves all files as they were, and a
    success rewrites the named file only, which held old_string. *)
Theorem edit_touches_only_on_success :
  forall (fuel : nat) (fs fs' : Ctx.FileSystem) (args : gmap string string)
         (o : Outcome ToolResult),
    EditFileTool_execute fuel fs args = Some (o, fs') ->
    exists r,
      o = Returns r
      /\ (success r = false -> fs' = fs)
      /\ (success r = true ->
          exists file_path old_string file content,
            args !! "file_path" = Some file_path
            /\ args !! "old_string" = Some old_string
            /\ Ctx.files fs !! file_path = Some file
            /\ contains (chars old_string) (chars file) = true
            /\ fs' = Ctx.mkFS (<[file_path := content]> (Ctx.files fs))
                              (Ctx.can_write fs) (Ctx.can_read fs)).
Proof.
  intros fuel fs fs' args o. unfold EditFileTool_execute, edit_failure.
  assert (Hfail : forall m (x : Outcome ToolResult * Ctx.FileSystem),
    x = (Returns (mkToolResult "" false "" (Some m)), fs) ->
    Some x = Some (o, fs') ->
    exists r, o = Returns r /\ (success r = false -> fs' = fs)
      /\ (success r = true ->
          exists file_path old_string file content,
            args !! "file_path" = Some file_path
            /\ args !! "old_string" = Some old_string
            /\ Ctx.files fs !! file_path = Some file
            /\ contains (chars old_string) (chars file) = true
            /\ fs' = Ctx.mkFS (<[file_path := content]> (Ctx.files fs))
                              (Ctx.can_write fs) (Ctx.can_read fs))).
  { intros m x -> [= <- <-]. eexists. split; [done|]. by split. }
  destruct (args !! "file_path") as [file_path|]; [|by eapply Hfail].
  destruct (args !! "old_string") as [old_string|]; [|by eapply Hfail].
  destruct (args !! "new_string") as [new_string|]; [|by eapply Hfail].
  destruct (Ctx.files fs !! file_path) as [file|] eqn:Hfile;
    [|by eapply Hfail].
  destruct (Ctx.can_read fs file_path); cbn [negb]; [|by eapply Hfail].
  set (replace_all := match args !! "replace_all" with
                      | Some v => String.eqb v "true" | None => false end).
  assert (Hocc : forall content count,
    (if replace_all then
       replace_loop fuel (chars old_string) (chars new_string) (chars file) 0 0
     else match find_at (chars old_string) (chars file) with
          | Some pos =>
              Some (replace_at (chars file) pos (length (chars old_string))
                               (chars new_string), 1%nat)
          | None => Some (chars file, 0%nat)
          end) = Some (content, count) ->
    count <> 0%nat -> contains (chars old_string) (chars file) = true).
  { intros content count Hrun Hcount. destruct replace_all.
    - destruct (find_at (chars old_string) (chars file)) as [k|] eqn:Hk.
      + by apply EditFacts.find_at_contains in Hk.
      + apply EditFacts.replace_loop_none in Hrun; [done|].
        by rewrite EditFacts.find_from_start.
    - destruct (find_at (chars old_string) (chars file)) as [k|] eqn:Hk.
      + by apply EditFacts.find_at_contains in Hk.
      + by injection Hrun as <- <-. }
  destruct (if replace_all then _ else _) as [[content count]|] eqn:Hrun;
    [|done].
  destruct (Nat.eqb_spec count 0) as [->|Hcount]; [by eapply Hfail|].
  destruct (Ctx.can_write fs file_path); cbn [negb]; [|by eapply Hfail].
  intros [= <- <-]. eexists. split; [done|]. split; [done|]. intros _.
  exists file_path, old_string, file, (text content).
  repeat split; try done. by eapply Hocc.
Qed.

Lemma edit_touches_only_on_success_witness :
  exists r,
    Returns (edit_failure "old_string not found in file") = Returns r
    /\ (success r = false -> one_file "hello" = one_file "hello").
Proof.
  destruct (edit_touches_only_on_success 0 (one_file "hello")
              (one_file "hello") (edit_args "xyz" "q")
              (Returns (edit_failure "old_string not found in file"))
              eq_refl) as (r & Hr & Hf & _).
  exists r. split; [exact Hr|exact Hf].
Defined.

(** X26.  Without replace_all the first occurrence of old_string, and only that
    one, is replaced: a readable and writable file holding a, old_string, b
    with no earlier occurrence becomes a, new_string, b, and the tool
    reports one replacement. *)
Theorem edit_replaces_first_occurrence :
  forall (fuel : nat) (fs : Ctx.FileSystem) (args : gmap string string)
         (file_path old_string new_string : string) (a b : list ascii),
    args !! "file_path" = Some file_path ->
    args !! "old_string" = Some old_string ->
    args !! "new_string" = Some new_string ->
    args !! "replace_all" = None ->
    Ctx.files fs !! file_path = Some (text (a ++ chars old_string ++ b)) ->
    Ctx.can_read fs file_path = true ->
    Ctx.can_write fs file_path = true ->
    absent_before (chars old_string) (a ++ chars old_string ++ b) (length a) ->
    EditFileTool_execute fuel fs args
    = Some (Returns (mkToolResult "" true "Replaced 1 occurrence(s)" None),
            Ctx.mkFS (<[file_path := text (a ++ chars new_string ++ b)]>
                        (Ctx.files fs))
                     (Ctx.can_write fs) (Ctx.can_read fs)).
Proof.
  intros fuel fs args file_path old_string new_string a b
         Hp Ho Hn Hall Hfile Hr Hw Habs.
  unfold EditFileTool_execute. rewrite Hp, Ho, Hn, Hall, Hfile, Hr.
  cbn [negb]. rewrite chars_text, (EditFacts.find_at_first _ _ _ Habs).
  cbn [Nat.eqb]. rewrite Hw. cbn [negb].
  do 4 f_equal. unfold replace_at.
  rewrite take_app_length. f_equal. f_equal.
  by rewrite <- drop_drop, !drop_app_length.
Qed.

Lemma edit_replaces_first_occurrence_witness :
  EditFileTool_execute 0 (one_file "a-b-a-b") (edit_args "b" "XY")
  = Some (Returns (mkToolResult "" true "Replaced 1 occurrence(s)" None),
          Ctx.mkFS (<[ "f.txt" := text (chars "a-" ++ chars "XY" ++ chars "-a-b") ]>
                      (Ctx.files (one_file "a-b-a-b")))
                   (Ctx.can_write (one_file "a-b-a-b"))
                   (Ctx.can_read (one_file "a-b-a-b"))).
Proof.
  apply (edit_replaces_first_occurrence 0 (one_file "a-b-a-b")
           (edit_args "b" "XY") "f.txt" "b" "XY" (chars "a-") (chars "-a-b"));
    try reflexivity.
  intros k Hk. destruct k as [|[|k]]; [reflexivity|reflexivity|].
  cbn in Hk. lia.
Defined.

(** X27.  With replace_all and an empty old_string that is replaced by an
    empty new_string, every turn of the loop over the occurrences finds the
    pattern again at the same position of the same content, so the call
    never ends.  With an old_string that is not empty the loop ends after
    at most as many turns as the file has characters. *)
Theorem edit_replace_all_termination :
  forall (fs : Ctx.FileSystem) (args : gmap string string)
         (file_path old_string new_string file : string),
    args !! "file_path" = Some file_path ->
    args !! "old_string" = Some old_string ->
    args !! "new_string" = Some new_string ->
    args !! "replace_all" = Some "true" ->
    Ctx.files fs !! file_path = Some file ->
    Ctx.can_read fs file_path = true ->
    (old_string = "" -> new_string = "" ->
     forall fuel, EditFileTool_execute fuel fs args = None)
    /\ (old_string <> "" ->
        forall fuel, (String.length file < fuel)%nat ->
                     exists res, EditFileTool_execute fuel fs args = Some res).
Proof.
  intros fs args file_path old_string new_string file Hp Ho Hn Hall Hfile Hr.
  unfold EditFileTool_execute. rewrite Hp, Ho, Hn, Hall, Hfile, Hr.
  cbn [negb]. change (String.eqb "true" "true") with true. cbv iota.
  split.
  - intros -> -> fuel. change (chars "") with (@nil ascii).
    rewrite EditFacts.replace_loop_empty; [done|lia].
  - intros Hne fuel Hfuel.
    destruct (EditFacts.replace_loop_ends fuel (chars old_string)
                (chars new_string) (chars file) 0 0)
      as (content' & count' & -> & _).
    + intros Hnil. apply Hne. by rewrite <- (text_chars old_string), Hnil.
    + rewrite chars_length. lia.
    + destruct (count' =? 0)%nat; [by eexists|].
      destruct (negb (Ctx.can_write fs file_path)); by eexists.
Qed.

Lemma edit_replace_all_termination_witness :
  EditFileTool_execute 1000 (one_file "aaa")
    (<[ "replace_all" := "true" ]> (edit_args "" "")) = None
  /\ exists res,
       EditFileTool_execute 4 (one_file "aaa")
         (<[ "replace_all" := "true" ]> (edit_args "a" "aa")) = Some res.
Proof.
  destruct (edit_replace_all_termination (one_file "aaa")
              (<[ "replace_all" := "true" ]> (edit_args "" ""))
              "f.txt" "" "" "aaa") as [H1 _]; try reflexivity.
  destruct (edit_replace_all_termination (one_file "aaa")
              (<[ "replace_all" := "true" ]> (edit_args "a" "aa"))
              "f.txt" "a" "aa" "aaa") as [_ H2]; try reflexivity.
  split; [exact (H1 eq_refl eq_refl 1000%nat)|].
  apply H2; [discriminate|cbn; lia].
Defined.

(** ** The read tool *)

Module ReadFacts.

Lemma listing_cons (first : Z) (line : list ascii) (lines : list (list ascii)) :
  listing first (line :: lines)
  = numbered first line +:+ listing (first + 1) lines.
Proof.
  unfold listing. rewrite imap_cons, concat_cons.
  rewrite Z.add_0_r. f_equal. f_equal. apply imap_ext.
  intros k x _. cbn. f_equal. lia.
Qed.

Lemma read_lines_emit (lines : list (list ascii)) (offset limit n r : Z) :
  offset <= n + 1 -> 0 <= r ->
  read_lines lines offset limit n r
  = listing (n + 1) (take (Z.to_nat (limit - r)) lines).
Proof.
  revert n r. induction lines as [|line lines IH]; intros n r Hn Hr.
  - by rewrite take_nil.
  - cbn [read_lines]. destruct (Z.ltb_spec r limit) as [Hlt|Hge].
    + replace (n + 1 >=? offset) with true
        by (symmetry; rewrite Z.geb_leb; by apply Z.leb_le).
      replace (Z.to_nat (limit - r)) with (S (Z.to_nat (limit - (r + 1))))
        by lia.
      cbn [take]. rewrite listing_cons. f_equal.
      rewrite IH by lia. done.
    + replace (Z.to_nat (limit - r)) with 0%nat by lia. done.
Qed.

Lemma read_lines_skip (lines : list (list ascii)) (offset limit n : Z) :
  0 <= n -> n + 1 <= offset -> 0 <= limit ->
  read_lines lines offset limit n 0
  = listing offset
      (take (Z.to_nat limit) (drop (Z.to_nat (offset - 1 - n)) lines)).
Proof.
  revert n. induction lines as [|line lines IH]; intros n Hn Hoff Hlim.
  - by rewrite drop_nil, take_nil.
  - destruct (Z.eq_dec (n + 1) offset) as [Heq|Hne].
    + rewrite read_lines_emit by lia.
      replace (Z.to_nat (offset - 1 - n)) with 0%nat by lia.
      rewrite Z.sub_0_r, Heq. done.
    + cbn [read_lines]. destruct (Z.ltb_spec 0 limit) as [Hlt|Hge].
      * replace (n + 1 >=? offset) with false
          by (symmetry; rewrite Z.geb_leb; apply Z.leb_gt; lia).
        rewrite IH by lia.
        replace (Z.to_nat (offset - 1 - n))
          with (S (Z.to_nat (offset - 1 - (n + 1)))) by lia.
        done.
      * replace (Z.to_nat limit) with 0%nat by lia. done.
Qed.

Lemma read_lines_low_offset (lines : list (list ascii)) (offset limit : Z) :
  offset <= 1 ->
  read_lines lines offset limit 0 0 = read_lines lines 1 limit 0 0.
Proof. intros H. by rewrite !read_lines_emit by lia. Qed.

End ReadFacts.

(** X28.  read_file returns the window of the file that starts at line offset
    (counted from 1) and holds at most limit lines, each line behind its own
    number; offset is 1 and limit is 2000 when the argument is not given.
    An offset below 1 reads from the first line, and a limit of zero or
    less gives an empty output.  The lines are those of getline: the last
    one need not end in a line feed. *)
Theorem read_file_window :
  forall (t : ReadFileTool) (fs : Ctx.FileSystem) (args : gmap string string)
         (file_path file : string) (offset limit : Z),
    args !! "file_path" = Some file_path ->
    Ctx.files fs !! file_path = Some file ->
    (N.of_nat (String.length file) <= max_file_size t)%N ->
    Ctx.can_read fs file_path = true ->
    match args !! "offset" with
    | Some s => stoi s = Returns offset
    | None => offset = 1
    end ->
    match args !! "limit" with
    | Some s => stoi s = Returns limit
    | None => limit = 2000
    end ->
    let lines := getline_all "010"%char (chars file) [] in
    exists out,
      ReadFileTool_execute t fs args = Returns (mkToolResult "" true out None)
      /\ (1 <= offset -> 0 <= limit ->
          out = listing offset
                  (take (Z.to_nat limit) (drop (Z.to_nat (offset - 1)) lines)))
      /\ (offset <= 1 -> out = listing 1 (take (Z.to_nat limit) lines))
      /\ (limit <= 0 -> out = "").
Proof.
  intros t fs args file_path file offset limit Hp Hfile Hsize Hr Ho Hl lines.
  unfold ReadFileTool_execute. rewrite Hp, Hfile, Hr.
  replace (max_file_size t <? N.of_nat (String.length file))%N with false
    by (symmetry; by apply N.ltb_ge).
  assert (Hoff : match args !! "offset" with
                 | Some s => stoi s
                 | None => Returns 1
                 end = Returns offset).
  { destruct (args !! "offset"); [done|by subst]. }
  assert (Hlim : match args !! "limit" with
                 | Some s => stoi s
                 | None => Returns 2000
                 end = Returns limit).
  { destruct (args !! "limit"); [done|by subst]. }
  rewrite Hoff, Hlim.
  cbn [negb]. fold lines. eexists. split; [reflexivity|]. split; [|split].
  - intros H1 H0. rewrite ReadFacts.read_lines_skip by lia.
    by rewrite Z.sub_0_r.
  - intros H1. rewrite ReadFacts.read_lines_emit by lia.
    by rewrite Z.sub_0_r.
  - intros H0. destruct lines as [|line rest]; [done|]. cbn [read_lines].
    by replace (0 <? limit) with false by (symmetry; apply Z.ltb_ge; lia).
Qed.

Lemma read_file_window_witness :
  (exists out,
     ReadFileTool_execute ReadFileTool_default
       (one_file ("a" +:+ nl +:+ "b" +:+ nl +:+ "c"))
       {[ "file_path" := "f.txt"; "offset" := "2"; "limit" := "1" ]}
     = Returns (mkToolResult "" true out None)
     /\ out = listing 2 [chars "b"])
  /\ (exists out,
        ReadFileTool_execute ReadFileTool_default
          (one_file ("a" +:+ nl +:+ "b" +:+ nl +:+ "c"))
          {[ "file_path" := "f.txt" ]}
        = Returns (mkToolResult "" true out None)
        /\ out = listing 1 [chars "a"; chars "b"; chars "c"]).
Proof.
  split.
  - destruct (read_file_window ReadFileTool_default
                (one_file ("a" +:+ nl +:+ "b" +:+ nl +:+ "c"))
                {[ "file_path" := "f.txt"; "offset" := "2"; "limit" := "1" ]}
                "f.txt" ("a" +:+ nl +:+ "b" +:+ nl +:+ "c") 2 1)
      as (out & Hout & Hwin & _); try reflexivity.
    + vm_compute. discriminate.
    + exists out. split; [exact Hout|]. apply Hwin; lia.
  - destruct (read_file_window ReadFileTool_default
                (one_file ("a" +:+ nl +:+ "b" +:+ nl +:+ "c"))
                {[ "file_path" := "f.txt" ]}
                "f.txt" ("a" +:+ nl +:+ "b" +:+ nl +:+ "c") 1 2000)
      as (out & Hout & _ & Hwin & _); try reflexivity.
    + vm_compute. discriminate.
    + exists out. split; [exact Hout|]. apply Hwin; lia.
Defined.

(** ** String utilities *)

Module UtilsFacts.
Import Utils.

Lemma first_leading (l : list ascii) :
  match find_first_not_of trim_char l with
  | Some k =>
      erase_leading l = drop k l
      /\ exists c, l !! k = Some c /\ trim_char c = false
  | None => erase_leading l = []
  end.
Proof.
  induction l as [|c l IH]; [done|]. cbn [find_first_not_of erase_leading].
  destruct (trim_char c) eqn:Hc.
  - destruct (find_first_not_of trim_char l) as [k|]; [|done].
    cbn [fmap option_fmap option_map]. exact IH.
  - split; [done|]. by exists c.
Qed.

Lemma last_bound (p : ascii -> bool) (l : list ascii) (e : nat) :
  find_last_not_of p l = Some e -> (e < length l)%nat.
Proof.
  revert e. induction l as [|c l IH]; intros e; [done|].
  cbn [find_last_not_of length].
  destruct (find_last_not_of p l) as [k|].
  - intros [= <-]. specialize (IH k eq_refl). lia.
  - destruct (p c); [done|]. intros [= <-]. lia.
Qed.

Lemma last_trailing (l : list ascii) :
  erase_trailing l
  = match find_last_not_of trim_char l with
    | Some e => take (S e) l
    | None => []
    end.
Proof.
  induction l as [|c l IH]; [done|]. cbn [erase_trailing find_last_not_of].
  rewrite IH. destruct (find_last_not_of trim_char l) as [k|] eqn:Hk.
  - apply last_bound in Hk. destruct l as [|x l]; [cbn in Hk; lia|]. done.
  - destruct (trim_char c); [done|]. cbn [take]. by rewrite take_0.
Qed.

Lemma last_after (p : ascii -> bool) (l : list ascii) (k : nat) (c : ascii) :
  l !! k = Some c -> p c = false ->
  exists e, find_last_not_of p l = Some e /\ (k <= e)%nat
            /\ find_last_not_of p (drop k l) = Some (e - k)%nat.
Proof.
  revert k. induction l as [|x l IH]; intros k Hk Hc; [done|].
  destruct k as [|k].
  - injection Hk as ->. cbn [drop find_last_not_of].
    destruct (find_last_not_of p l) as [e|].
    + exists (S e). split; [done|]. split; [lia|]. by rewrite Nat.sub_0_r.
    + rewrite Hc. exists 0%nat. split; [done|]. split; [lia|done].
  - cbn [lookup list_lookup] in Hk. destruct (IH k Hk Hc) as (e & He & Hle & Hd).
    cbn [find_last_not_of drop]. rewrite He. exists (S e).
    split; [done|]. split; [lia|]. exact Hd.
Qed.

End UtilsFacts.

(** X29.  The helper trim of the string utilities and the two erase calls of the
    argument parser remove the same characters: on every text (shorter
    than 2^64 characters, as every std::string is) they give the same
    result. *)
Theorem utils_trim_agrees_with_parser :
  forall s : string,
    Z.of_nat (String.length s) < 2 ^ 64 ->
    Utils.trim s = text (trim_value (chars s)).
Proof.
  intros s Hlen. rewrite <- chars_length in Hlen. unfold Utils.trim, trim_value.
  pose proof (UtilsFacts.first_leading (chars s)) as Hfirst.
  destruct (Utils.find_first_not_of trim_char (chars s)) as [k|].
  2:{ by rewrite Hfirst. }
  destruct Hfirst as [-> (c & Hk & Hc)].
  destruct (UtilsFacts.last_after trim_char (chars s) k c Hk Hc)
    as (e & He & Hle & Hd).
  rewrite He, UtilsFacts.last_trailing, Hd. f_equal.
  unfold Utils.substr, Utils.position.
  pose proof (UtilsFacts.last_bound _ _ _ He) as Hb.
  rewrite Z.mod_small by lia. f_equal. lia.
Qed.

Lemma utils_trim_agrees_with_parser_witness :
  Utils.trim "  ls -la  " = text (trim_value (chars "  ls -la  ")).
Proof. apply utils_trim_agrees_with_parser. reflexivity. Defined.

(** X30.  truncate keeps a text that fits; a longer one is cut so that, with the
    ellipsis, it is exactly max_length long, provided the ellipsis itself
    fits into max_length.  When max_length is smaller than the ellipsis the
    subtraction wraps around, nothing is cut, and the result is the whole
    text followed by the ellipsis. *)
Theorem truncate_lengths :
  forall (str ellipsis : string) (max_length : Z),
    0 <= max_length < 2 ^ 64 ->
    Z.of_nat (String.length str) + Z.of_nat (String.length ellipsis) < 2 ^ 64 ->
    (Z.of_nat (String.length str) <= max_length ->
     Utils.truncate str max_length ellipsis = str)
    /\ (Z.of_nat (String.length ellipsis) <= max_length
                                          < Z.of_nat (String.length str) ->
        Z.of_nat (String.length (Utils.truncate str max_length ellipsis))
        = max_length
        /\ ends_with ellipsis (Utils.truncate str max_length ellipsis) = true)
    /\ (max_length < Z.of_nat (String.length ellipsis) ->
        max_length < Z.of_nat (String.length str) ->
        Utils.truncate str max_length ellipsis = str +:+ ellipsis).
Proof.
  intros str ellipsis max_length Hmax Hlen. unfold Utils.truncate.
  split; [|split].
  - intros Hfit. by replace (Z.of_nat (String.length str) <=? max_length)
      with true by (symmetry; by apply Z.leb_le).
  - intros [He Hs].
    replace (Z.of_nat (String.length str) <=? max_length) with false
      by (symmetry; apply Z.leb_gt; lia).
    split; [|apply ends_with_app].
    rewrite <- !chars_length, chars_app, length_app, chars_text.
    unfold Utils.substr. rewrite drop_0, length_take, !chars_length.
    rewrite Z.mod_small by lia. lia.
  - intros He Hs.
    replace (Z.of_nat (String.length str) <=? max_length) with false
      by (symmetry; apply Z.leb_gt; lia).
    f_equal. unfold Utils.substr. rewrite drop_0.
    rewrite take_ge; [apply text_chars|].
    rewrite chars_length.
    replace ((max_length - Z.of_nat (String.length ellipsis)) mod 2 ^ 64)
      with (2 ^ 64 + max_length - Z.of_nat (String.length ellipsis)); [lia|].
    symmetry.
    rewrite <- (Z.mod_small
                  (2 ^ 64 + max_length - Z.of_nat (String.length ellipsis))
                  (2 ^ 64)) by lia.
    replace (2 ^ 64 + max_length - Z.of_nat (String.length ellipsis))
      with ((max_length - Z.of_nat (String.length ellipsis)) + 1 * 2 ^ 64)
      by lia.
    by rewrite Z.mod_add by lia.
Qed.

Lemma truncate_lengths_witness :
  Utils.truncate "hello world" 2 "..." = "hello world" +:+ "..."
  /\ Z.of_nat (String.length (Utils.truncate "hello world" 8 "...")) = 8.
Proof.
  destruct (truncate_lengths "hello world" "..." 2) as (_ & _ & H3);
    [lia|reflexivity|].
  destruct (truncate_lengths "hello world" "..." 8) as (_ & H2 & _);
    [lia|reflexivity|].
  split; [apply H3; reflexivity|]. apply H2. cbn. lia.
Defined.

